(** * Trip stops and cached route segments of google-timeline

    A shallow embedding of the stop and route handlers of [server.ts]
    together with the two tables of [schema.sql] they work on,
    [trip_stops] and [trip_route_segments].

    Modelling conventions.
    - A table is the list of its rows in storage order.  A [SELECT]
      without [ORDER BY] returns the matching rows in that order; an
      [UPDATE] rewrites the rows in place; an [INSERT] adds the row at the
      end.  PostgreSQL stores the new version of an updated row apart from
      the old one, so that after an [UPDATE] a scan may meet the rows in
      another order than the list has.  Where the order decides (which row
      a multi-row [UPDATE] moves first, which of two neighbours a [SELECT]
      returns first), a theorem states the order it starts from
      ([in_order], [stored_in_order]) or the requests that built the
      table.
    - The ranges of the column types are not modelled: an id or a position
      is an integer of any size, a distance or a duration is stored as it
      is given (the columns round to two decimals), and so is a coordinate
      (the cast to [geography] brings a coordinate outside of
      [-180, 180] x [-90, 90] into that range).  The positions [0 .. N-1]
      of a trip of N stops are taken to be in the range of [INTEGER]; a
      theorem that promises that another position the handler computes is
      accepted, or that states a stored coordinate, has the range for
      hypothesis ([INTEGER_max], [in_range]).  The theorems do not depend
      on the distance or the duration a segment is stored with.
    - Every SQL statement is atomic and is its own transaction (the
      handlers never open one): a statement that violates a constraint
      raises a database error and changes nothing, and what earlier
      statements of the same request did stays.
    - [unique_position_per_trip] is declared without [DEFERRABLE], so
      PostgreSQL checks it row by row while a statement runs, not on the
      result of the statement: an [UPDATE] of several rows visits them in
      storage order and fails as soon as the new key of a row is the key
      another row holds at that moment.  The reorder handler, whose
      statements each write one row, stages positions through negative
      values to stay clear of the constraint; the shift of an insert and
      the renumbering of a delete each write several rows in one statement.
    - An exception that leaves a handler is answered by the server with
      status 500.
    - The directions service is a function from a query to its answer,
      given to each request.
    - The timestamp columns ([created_at], [fetched_at]) are left out. *)

From Stdlib Require Import ZArith QArith List Bool String Lia Permutation Sorted.
Import ListNotations.
#[local] Open Scope string_scope.
#[local] Open Scope list_scope.
#[local] Open Scope Z_scope.

(** ** Rows *)

(** A JavaScript [number] that is only passed along (coordinates,
    distances, durations). *)
Definition number := Q.

(** [GEOGRAPHY(POINT)]: longitude, latitude. *)
Definition point := (number * number)%type.

Record timeline_entry := {
  entry_id : Z;
  location : option point;
  place_name : option string
}.

Record trip_stop := {
  stop_id : Z;
  stop_trip_id : Z;
  position : Z;
  timeline_entry_id : option Z;
  waypoint_location : option point;
  waypoint_name : option string
}.

Record route_segment := {
  segment_id : Z;
  segment_trip_id : Z;
  from_stop_id : Z;
  to_stop_id : Z;
  route_geometry : list (list number);
  distance_meters : number;
  duration_seconds : number;
  profile : string
}.

Record Db := {
  trips : list Z;
  timeline_entries : list timeline_entry;
  trip_stops : list trip_stop;
  trip_route_segments : list route_segment;
  trip_stops_id_seq : Z;
  trip_route_segments_id_seq : Z
}.

Definition with_trip_stops (rows : list trip_stop) (db : Db) : Db :=
  {| trips := trips db;
     timeline_entries := timeline_entries db;
     trip_stops := rows;
     trip_route_segments := trip_route_segments db;
     trip_stops_id_seq := trip_stops_id_seq db;
     trip_route_segments_id_seq := trip_route_segments_id_seq db |}.

Definition with_segments (rows : list route_segment) (db : Db) : Db :=
  {| trips := trips db;
     timeline_entries := timeline_entries db;
     trip_stops := trip_stops db;
     trip_route_segments := rows;
     trip_stops_id_seq := trip_stops_id_seq db;
     trip_route_segments_id_seq := trip_route_segments_id_seq db |}.

Definition set_position (p : Z) (s : trip_stop) : trip_stop :=
  {| stop_id := stop_id s;
     stop_trip_id := stop_trip_id s;
     position := p;
     timeline_entry_id := timeline_entry_id s;
     waypoint_location := waypoint_location s;
     waypoint_name := waypoint_name s |}.

(** ** Constraints of [schema.sql] *)

(** [CONSTRAINT stop_has_source CHECK (...)]. *)
Definition stop_has_source (s : trip_stop) : bool :=
  match timeline_entry_id s, waypoint_location s with
  | Some _, None => true
  | None, Some _ => true
  | _, _ => false
  end.

Fixpoint mem_key (k : Z * Z) (l : list (Z * Z)) : bool :=
  match l with
  | [] => false
  | k' :: l' => ((fst k =? fst k') && (snd k =? snd k')) || mem_key k l'
  end.

Fixpoint distinct_keys (l : list (Z * Z)) : bool :=
  match l with
  | [] => true
  | k :: l' => negb (mem_key k l') && distinct_keys l'
  end.

Definition position_key (s : trip_stop) : Z * Z := (stop_trip_id s, position s).

(** [CONSTRAINT unique_position_per_trip UNIQUE (trip_id, position)]. *)
Definition unique_position_per_trip (rows : list trip_stop) : bool :=
  distinct_keys (map position_key rows).

Definition mem_id (x : Z) (l : list Z) : bool := existsb (Z.eqb x) l.

(** ** Statements: state and exceptions *)

Inductive exn :=
| DbError (constraint : string)
| JsError (message : string).

Inductive outcome (A : Type) :=
| Returns (a : A)
| Throws (e : exn).
Arguments Returns {A} a.
Arguments Throws {A} e.

Definition io (A : Type) := Db -> Db * outcome A.

Definition ret {A} (a : A) : io A := fun db => (db, Returns a).

Definition bind {A B} (c : io A) (k : A -> io B) : io B :=
  fun db =>
    match c db with
    | (db', Returns a) => k a db'
    | (db', Throws e) => (db', Throws e)
    end.

Definition throw {A} (e : exn) : io A := fun db => (db, Throws e).

Notation "x <- c ;; k" := (bind c (fun x => k))
  (at level 61, c at next level, right associativity).
Notation "c ;;; k" := (bind c (fun _ => k))
  (at level 61, right associativity).

(** [for (let i = start; ...; i++) body(i, order[i])] over the elements of
    an array. *)
Fixpoint for_each (i : Z) (order : list Z) (body : Z -> Z -> io unit) : io unit :=
  match order with
  | [] => ret tt
  | x :: rest => body i x ;;; for_each (i + 1) rest body
  end.

(** ** Statements on [trip_stops] *)

(** [SELECT ... FROM trip_stops WHERE cond]. *)
Definition select_stops (cond : trip_stop -> bool) : io (list trip_stop) :=
  fun db => (db, Returns (filter cond (trip_stops db))).

(** [SELECT COALESCE(MAX(position), -1) FROM trip_stops WHERE trip_id = tripId]. *)
Definition max_position (tripId : Z) (rows : list trip_stop) : Z :=
  match map position (filter (fun s => stop_trip_id s =? tripId) rows) with
  | [] => -1
  | p :: ps => fold_left Z.max ps p
  end.

Definition select_max_position (tripId : Z) : io Z :=
  fun db => (db, Returns (max_position tripId (trip_stops db))).

(** [UPDATE trip_stops SET position = f(position) WHERE cond], were no
    constraint checked. *)
Definition update_position (cond : trip_stop -> bool) (f : Z -> Z)
  (rows : list trip_stop) : list trip_stop :=
  map (fun s => if cond s then set_position (f (position s)) s else s) rows.

(** The same statement as PostgreSQL runs it: [done] are the rows already
    visited, [todo] the rows still to visit; [None] is a violation of
    [unique_position_per_trip].  The rows keep their places, and a new
    position is not checked against the range of [INTEGER] (see the
    conventions). *)
Fixpoint update_rows (cond : trip_stop -> bool) (f : Z -> Z)
  (done todo : list trip_stop) : option (list trip_stop) :=
  match todo with
  | [] => Some done
  | s :: rest =>
      if cond s
      then
        let s' := set_position (f (position s)) s in
        if mem_key (position_key s') (map position_key (done ++ rest))
        then None
        else update_rows cond f (done ++ [s']) rest
      else update_rows cond f (done ++ [s]) rest
  end.

Definition update_trip_stops (cond : trip_stop -> bool) (f : Z -> Z) : io unit :=
  fun db =>
    match update_rows cond f [] (trip_stops db) with
    | Some rows => (with_trip_stops rows db, Returns tt)
    | None => (db, Throws (DbError "unique_position_per_trip"))
    end.

(** [nextval('trip_stops_id_seq')]. *)
Definition advance_stop_seq (db : Db) : Db :=
  {| trips := trips db;
     timeline_entries := timeline_entries db;
     trip_stops := trip_stops db;
     trip_route_segments := trip_route_segments db;
     trip_stops_id_seq := trip_stops_id_seq db + 1;
     trip_route_segments_id_seq := trip_route_segments_id_seq db |}.

Definition new_stop (db : Db) (tripId pos : Z) (entry : option Z)
  (wl : option point) (wn : option string) : trip_stop :=
  {| stop_id := trip_stops_id_seq db;
     stop_trip_id := tripId;
     position := pos;
     timeline_entry_id := entry;
     waypoint_location := wl;
     waypoint_name := wn |}.

(** [INSERT INTO trip_stops (trip_id, position, ...) VALUES (...) RETURNING *].
    The id comes from the sequence, which moves on whether or not the row is
    accepted.  The position and the coordinate are stored as they are given
    (see the conventions for the range of [INTEGER] and the cast to
    [geography]). *)
Definition insert_trip_stop (tripId pos : Z) (entry : option Z)
  (wl : option point) (wn : option string) : io trip_stop :=
  fun db =>
    let s := new_stop db tripId pos entry wl wn in
    let db1 := advance_stop_seq db in
    if negb (stop_has_source s) then (db1, Throws (DbError "stop_has_source"))
    else if mem_key (position_key s) (map position_key (trip_stops db))
    then (db1, Throws (DbError "unique_position_per_trip"))
    else if negb (mem_id tripId (trips db))
    then (db1, Throws (DbError "trip_stops_trip_id_fkey"))
    else if match entry with
            | Some e => negb (mem_id e (map entry_id (timeline_entries db)))
            | None => false
            end
    then (db1, Throws (DbError "trip_stops_timeline_entry_id_fkey"))
    else (with_trip_stops (trip_stops db ++ [s]) db1, Returns s).

Definition touches (stopId : Z) (g : route_segment) : bool :=
  (from_stop_id g =? stopId) || (to_stop_id g =? stopId).

(** [DELETE FROM trip_stops WHERE id = stopId]; the segments that have the
    stop as an end go with it ([ON DELETE CASCADE] of both references). *)
Definition delete_trip_stop (stopId : Z) : io unit :=
  fun db =>
    (with_segments
       (filter (fun g => negb (touches stopId g)) (trip_route_segments db))
       (with_trip_stops
          (filter (fun s => negb (stop_id s =? stopId)) (trip_stops db)) db),
     Returns tt).

(** ** Statements on [trip_route_segments] *)

(** [DELETE FROM trip_route_segments WHERE cond]. *)
Definition delete_segments (cond : route_segment -> bool) : io unit :=
  fun db =>
    (with_segments (filter (fun g => negb (cond g)) (trip_route_segments db)) db,
     Returns tt).

(** [SELECT ... FROM trip_route_segments WHERE cond]. *)
Definition select_segments (cond : route_segment -> bool) : io (list route_segment) :=
  fun db => (db, Returns (filter cond (trip_route_segments db))).

Definition segment_key (tripId fromId toId : Z) (g : route_segment) : bool :=
  (segment_trip_id g =? tripId) && (from_stop_id g =? fromId)
  && (to_stop_id g =? toId).

(** [INSERT INTO trip_route_segments ... ON CONFLICT (trip_id, from_stop_id,
    to_stop_id) DO UPDATE SET ...] ([CONSTRAINT unique_segment]).  The
    stops and the trip of the row were read from the tables by the caller.
    The distance and the duration are stored as they are given (the columns
    round them to two decimals, see the conventions). *)
Definition upsert_segment (tripId fromId toId : Z) (geometry : list (list number))
  (distance duration : number) : io unit :=
  fun db =>
    let seq := trip_route_segments_id_seq db in
    let rows := trip_route_segments db in
    let rows' :=
      if existsb (segment_key tripId fromId toId) rows
      then map (fun g =>
                  if segment_key tripId fromId toId g
                  then {| segment_id := segment_id g;
                          segment_trip_id := segment_trip_id g;
                          from_stop_id := from_stop_id g;
                          to_stop_id := to_stop_id g;
                          route_geometry := geometry;
                          distance_meters := distance;
                          duration_seconds := duration;
                          profile := profile g |}
                  else g) rows
      else rows ++ [{| segment_id := seq;
                       segment_trip_id := tripId;
                       from_stop_id := fromId;
                       to_stop_id := toId;
                       route_geometry := geometry;
                       distance_meters := distance;
                       duration_seconds := duration;
                       profile := "driving" |}] in
    ({| trips := trips db;
        timeline_entries := timeline_entries db;
        trip_stops := trip_stops db;
        trip_route_segments := rows';
        trip_stops_id_seq := trip_stops_id_seq db;
        trip_route_segments_id_seq := seq + 1 |}, Returns tt).

(** ** Responses *)

(** A row of [loadStopsWithCoords]. *)
Record stop_with_coords := {
  id : Z;
  sc_position : Z;
  sc_timeline_entry_id : option Z;
  name : string;
  lng : option number;
  lat : option number;
  type : string
}.

(** The answer of [buildTripResponse]: the stops and the route features of
    the trip (the columns of the [trips] row are not modelled). *)
Record trip_response := {
  trip : Z;
  stops : list stop_with_coords;
  route : list route_segment
}.

Inductive Response :=
| Created (stop : trip_stop)                 (* 201 *)
| OkTrue                                     (* 200 { ok: true } *)
| OkTrip (body : option trip_response)       (* 200, the trip or null *)
| BadRequest (error : string)                (* 400 *)
| NotFound                                   (* 404 *)
| InternalServerError (e : exn).             (* 500, uncaught exception *)

(** The error classes of the specification, as the handlers report them. *)
Definition ValidationError (r : Response) : Prop := exists msg, r = BadRequest msg.
Definition NotFoundError (r : Response) : Prop := r = NotFound.

Definition serve (handler : io Response) (db : Db) : Db * Response :=
  match handler db with
  | (db', Returns r) => (db', r)
  | (db', Throws e) => (db', InternalServerError e)
  end.

(** ** [POST /api/trips/:id/stops] *)

Record stop_body := {
  body_position : option Z;
  body_timeline_entry_id : option Z;
  body_lat : option number;
  body_lng : option number;
  body_name : option string
}.

(** [if (body.timeline_entry_id)]: absent, [null] and [0] are falsy. *)
Definition truthy_id (o : option Z) : option Z :=
  match o with
  | Some n => if n =? 0 then None else Some n
  | None => None
  end.

(** [body.name || null]. *)
Definition name_or_null (o : option string) : option string :=
  match o with
  | Some s => if String.eqb s "" then None else Some s
  | None => None
  end.

Definition post_stop_handler (tripId : Z) (body : stop_body) : io Response :=
  pos <-
    match body_position body with
    | None =>
        max <- select_max_position tripId ;;
        ret (max + 1)
    | Some pos =>
        update_trip_stops
          (fun s => (stop_trip_id s =? tripId) && (pos <=? position s))
          (fun p => p + 1) ;;;
        ret pos
    end ;;
  inserted <-
    match truthy_id (body_timeline_entry_id body), body_lat body, body_lng body with
    | Some entry, _, _ =>
        stop <- insert_trip_stop tripId pos (Some entry) None None ;;
        ret (Some stop)
    | None, Some lat, Some lng =>
        stop <- insert_trip_stop tripId pos None (Some (lng, lat))
                  (name_or_null (body_name body)) ;;
        ret (Some stop)
    | None, _, _ => ret None
    end ;;
  match inserted with
  | None => ret (BadRequest "Provide timeline_entry_id or lat/lng")
  | Some stop =>
      delete_segments
        (fun g => (segment_trip_id g =? tripId) && touches (stop_id stop) g) ;;;
      neighbors <-
        select_stops
          (fun s => (stop_trip_id s =? tripId)
                    && ((position s =? pos - 1) || (position s =? pos + 1))) ;;
      match neighbors with
      | [n0; n1] =>
          delete_segments (segment_key tripId (stop_id n0) (stop_id n1)) ;;;
          ret (Created stop)
      | _ => ret (Created stop)
      end
  end.

Definition post_stop (tripId : Z) (body : stop_body) : Db -> Db * Response :=
  serve (post_stop_handler tripId body).

(** ** [DELETE /api/trips/:id/stops/:stopId] *)

Definition delete_stop_handler (tripId stopId : Z) : io Response :=
  found <- select_stops (fun s => (stop_id s =? stopId) && (stop_trip_id s =? tripId)) ;;
  match found with
  | [] => ret NotFound
  | stop :: _ =>
      delete_trip_stop stopId ;;;
      update_trip_stops
        (fun s => (stop_trip_id s =? tripId) && (position stop <? position s))
        (fun p => p - 1) ;;;
      ret OkTrue
  end.

Definition delete_stop (tripId stopId : Z) : Db -> Db * Response :=
  serve (delete_stop_handler tripId stopId).

(** ** [PUT /api/trips/:id/stops/reorder] *)

(** The [order] field of the request body. *)
Inductive order_field :=
| NotAnArray
| OrderArray (order : list Z).

Definition stage (tripId : Z) (i x : Z) : io unit :=
  update_trip_stops (fun s => (stop_id s =? x) && (stop_trip_id s =? tripId))
    (fun _ => - (i + 1)).

Definition finalize (tripId : Z) (i x : Z) : io unit :=
  update_trip_stops (fun s => (stop_id s =? x) && (stop_trip_id s =? tripId))
    (fun _ => i).

Definition put_reorder_handler (tripId : Z) (body : order_field) : io Response :=
  match body with
  | NotAnArray => ret (BadRequest "order must be an array of stop IDs")
  | OrderArray order =>
      delete_segments (fun g => segment_trip_id g =? tripId) ;;;
      for_each 0 order (stage tripId) ;;;
      for_each 0 order (finalize tripId) ;;;
      ret OkTrue
  end.

Definition put_reorder (tripId : Z) (body : order_field) : Db -> Db * Response :=
  serve (put_reorder_handler tripId body).

(** ** The directions service and [fetchRouteSegment] *)

Record mapbox_route := {
  geometry : list (list number);
  distance : number;
  duration : number
}.

Record MapboxDirectionsResponse := {
  code : string;
  routes : option (list mapbox_route)
}.

(** The arguments of one call of [fetchRouteSegment]; the profile is always
    the default, ["driving"]. *)
Record query := {
  fromLng : number;
  fromLat : number;
  toLng : number;
  toLat : number
}.

(** [fetch(url)] followed by [res.json()]: the body the service sends for
    a query, or the exception of a failed transfer. *)
Definition directions := query -> outcome MapboxDirectionsResponse.

Definition fetchRouteSegment (svc : directions) (q : query) : outcome mapbox_route :=
  match svc q with
  | Throws e => Throws e
  | Returns data =>
      if negb (String.eqb (code data) "Ok")
         || match routes data with
            | None => true
            | Some l => (Z.of_nat (List.length l) =? 0)
            end
      then Throws (JsError ("Mapbox Directions failed: " ++ code data))
      else
        match routes data with
        | Some (r :: _) => Returns r
        | _ => Throws (JsError "No route returned from Mapbox Directions API")
        end
  end.

(** ** [loadStopsWithCoords] *)

Fixpoint insert_by_position (s : trip_stop) (l : list trip_stop) : list trip_stop :=
  match l with
  | [] => [s]
  | x :: l' =>
      if position s <=? position x then s :: l else x :: insert_by_position s l'
  end.

(** [ORDER BY position]. *)
Fixpoint order_by_position (l : list trip_stop) : list trip_stop :=
  match l with
  | [] => []
  | s :: l' => insert_by_position s (order_by_position l')
  end.

(** [LEFT JOIN timeline_entries te ON ts.timeline_entry_id = te.id]. *)
Definition joined_entry (entries : list timeline_entry) (s : trip_stop)
  : option timeline_entry :=
  match timeline_entry_id s with
  | Some e => find (fun te => entry_id te =? e) entries
  | None => None
  end.

Definition coalesce {A} (a b : option A) : option A :=
  match a with Some _ => a | None => b end.

Definition with_coords (entries : list timeline_entry) (s : trip_stop)
  : stop_with_coords :=
  let te := joined_entry entries s in
  let te_location := match te with Some e => location e | None => None end in
  let te_name := match te with Some e => place_name e | None => None end in
  let loc := match timeline_entry_id s with
             | Some _ => te_location
             | None => waypoint_location s
             end in
  {| id := stop_id s;
     sc_position := position s;
     sc_timeline_entry_id := timeline_entry_id s;
     name := match coalesce te_name (waypoint_name s) with
             | Some n => n
             | None => "Waypoint"
             end;
     lng := option_map fst loc;
     lat := option_map snd loc;
     type := match timeline_entry_id s with
             | Some _ => "timeline_entry"
             | None => "waypoint"
             end |}.

Definition stops_of (tripId : Z) (db : Db) : list trip_stop :=
  filter (fun s => stop_trip_id s =? tripId) (trip_stops db).

Definition loadStopsWithCoords (tripId : Z) (db : Db) : list stop_with_coords :=
  map (with_coords (timeline_entries db)) (order_by_position (stops_of tripId db)).

(** ** [buildTripResponse] *)

Definition buildTripResponse (tripId : Z) (db : Db) : option trip_response :=
  if mem_id tripId (trips db)
  then Some {| trip := tripId;
               stops := loadStopsWithCoords tripId db;
               route := filter (fun g => segment_trip_id g =? tripId)
                          (trip_route_segments db) |}
  else None.

(** ** [POST /api/trips/:id/routes] *)

(** [Number(x)] of a column that may be [null]. *)
Definition Number (x : option number) : number :=
  match x with Some n => n | None => 0%Q end.

Definition query_of (from to : stop_with_coords) : query :=
  {| fromLng := Number (lng from); fromLat := Number (lat from);
     toLng := Number (lng to); toLat := Number (lat to) |}.

Definition cached (tripId : Z) (from to : stop_with_coords) (db : Db) : bool :=
  match filter (segment_key tripId (id from) (id to)) (trip_route_segments db) with
  | [] => false
  | _ :: _ => true
  end.

(** The loop over the consecutive pairs [stops[i]], [stops[i + 1]].  The
    result is the database, how the loop ended, and the calls of
    [fetchRouteSegment] it made, in order. *)
Fixpoint routes_loop (svc : directions) (tripId : Z) (force : bool)
  (stops : list stop_with_coords) (db : Db) : Db * outcome unit * list query :=
  match stops with
  | from :: ((to :: _) as rest) =>
      if negb force && cached tripId from to db
      then routes_loop svc tripId force rest db
      else
        match fetchRouteSegment svc (query_of from to) with
        | Throws e => (db, Throws e, [query_of from to])
        | Returns r =>
            let db1 := fst (upsert_segment tripId (id from) (id to)
                              (geometry r) (distance r) (duration r) db) in
            let '(db2, res, calls) := routes_loop svc tripId force rest db1 in
            (db2, res, query_of from to :: calls)
        end
  | _ => (db, Returns tt, [])
  end.

Definition post_routes (svc : directions) (tripId : Z) (force : bool) (db : Db)
  : Db * Response * list query :=
  let stops := loadStopsWithCoords tripId db in
  if Z.of_nat (List.length stops) <? 2
  then (db, BadRequest "Need at least 2 stops to generate routes", [])
  else
    let db0 := if force
               then fst (delete_segments (fun g => segment_trip_id g =? tripId) db)
               else db in
    match routes_loop svc tripId force stops db0 with
    | (db1, Returns _, calls) => (db1, OkTrip (buildTripResponse tripId db1), calls)
    | (db1, Throws e, calls) => (db1, InternalServerError e, calls)
    end.

(** * Properties *)

(** ** Vocabulary *)

(** [a; a + 1; ...; a + n - 1]. *)
Fixpoint zseq (a : Z) (n : nat) : list Z :=
  match n with
  | O => []
  | S n' => a :: zseq (a + 1) n'
  end.

(** The positions of the stops of a trip are exactly [0 .. N-1], each once. *)
Definition contiguous (tripId : Z) (db : Db) : Prop :=
  Permutation (map position (stops_of tripId db))
              (zseq 0 (List.length (stops_of tripId db))).

(** What the schema guarantees of the stops of every database state: the
    primary key, ids below the sequence, and [unique_position_per_trip]. *)
Record stops_integrity (db : Db) : Prop := {
  primary_key : NoDup (map stop_id (trip_stops db));
  below_sequence :
    Forall (fun i => i < trip_stops_id_seq db) (map stop_id (trip_stops db));
  unique_positions : NoDup (map position_key (trip_stops db))
}.

(** The two foreign keys of [trip_route_segments] into [trip_stops]. *)
Definition segments_integrity (db : Db) : Prop :=
  Forall (fun g => In (from_stop_id g) (map stop_id (trip_stops db))
                   /\ In (to_stop_id g) (map stop_id (trip_stops db)))
         (trip_route_segments db).

(** The three steps of [POST .../stops]: the position and the shift, the
    insert of the source the body carries, the invalidation. *)
Definition place (tripId : Z) (body : stop_body) : io Z :=
  match body_position body with
  | None =>
      max <- select_max_position tripId ;;
      ret (max + 1)
  | Some pos =>
      update_trip_stops
        (fun s => (stop_trip_id s =? tripId) && (pos <=? position s))
        (fun p => p + 1) ;;;
      ret pos
  end.

(** The source the handler takes from a body: the columns
    [timeline_entry_id], [waypoint_location], [waypoint_name] of the row. *)
Definition chosen_source (body : stop_body)
  : option (option Z * option point * option string) :=
  match truthy_id (body_timeline_entry_id body), body_lat body, body_lng body with
  | Some entry, _, _ => Some (Some entry, None, None)
  | None, Some lat, Some lng =>
      Some (None, Some (lng, lat), name_or_null (body_name body))
  | None, _, _ => None
  end.

Definition insert_chosen (tripId pos : Z) (body : stop_body) : io (option trip_stop) :=
  match chosen_source body with
  | Some (entry, wl, wn) =>
      stop <- insert_trip_stop tripId pos entry wl wn ;;
      ret (Some stop)
  | None => ret None
  end.

Definition invalidate (tripId pos : Z) (inserted : option trip_stop) : io Response :=
  match inserted with
  | None => ret (BadRequest "Provide timeline_entry_id or lat/lng")
  | Some stop =>
      delete_segments
        (fun g => (segment_trip_id g =? tripId) && touches (stop_id stop) g) ;;;
      neighbors <-
        select_stops
          (fun s => (stop_trip_id s =? tripId)
                    && ((position s =? pos - 1) || (position s =? pos + 1))) ;;
      match neighbors with
      | [n0; n1] =>
          delete_segments (segment_key tripId (stop_id n0) (stop_id n1)) ;;;
          ret (Created stop)
      | _ => ret (Created stop)
      end
  end.

(** A body carries a timeline-entry reference, a waypoint coordinate. *)
Definition has_entry (body : stop_body) : Prop :=
  truthy_id (body_timeline_entry_id body) <> None.

Definition has_coordinate (body : stop_body) : Prop :=
  body_lat body <> None /\ body_lng body <> None.

(** The shift of an explicit position is accepted by the constraint. *)
Definition shift_accepted (tripId : Z) (body : stop_body) (db : Db) : Prop :=
  match body_position body with
  | None => True
  | Some pos =>
      update_rows (fun s => (stop_trip_id s =? tripId) && (pos <=? position s))
        (fun p => p + 1) [] (trip_stops db) <> None
  end.

(** The insert of the chosen source passes the two foreign keys. *)
Definition references_hold (tripId : Z) (body : stop_body) (db : Db) : Prop :=
  In tripId (trips db) /\
  match chosen_source body with
  | Some (Some e, _, _) => In e (map entry_id (timeline_entries db))
  | Some (None, _, _) => True
  | None => False
  end.

(** The largest value of the type [INTEGER], the type of [position]. *)
Definition INTEGER_max : Z := 2147483647.

(** A coordinate that the cast to [geography] stores as it is. *)
Definition in_range (lng lat : number) : Prop :=
  (-180 # 1 <= lng)%Q /\ (lng <= 180 # 1)%Q
  /\ (-90 # 1 <= lat)%Q /\ (lat <= 90 # 1)%Q.

(** The positions of the stops of a trip, read in storage order, are
    [0, 1, ..., N-1]. *)
Definition in_order (tripId : Z) (db : Db) : Prop :=
  map position (stops_of tripId db) = zseq 0 (List.length (stops_of tripId db)).

(** The stops of a trip are stored in position order, and the primary key
    and the sequence of the table are sound. *)
Definition stored_in_order (tripId : Z) (db : Db) : Prop :=
  NoDup (map stop_id (trip_stops db))
  /\ Forall (fun i => i < trip_stops_id_seq db) (map stop_id (trip_stops db))
  /\ in_order tripId db.

(** The counter at which a loop over [order], counting from [i], meets [x]. *)
Fixpoint index_of (x : Z) (i : Z) (order : list Z) : option Z :=
  match order with
  | [] => None
  | y :: rest => if x =? y then Some i else index_of x (i + 1) rest
  end.

(** What a loop of [UPDATE ... SET position = f(i) WHERE id = order[i] AND
    trip_id = tripId] makes of a row. *)
Definition reassign (tripId : Z) (f : Z -> Z) (i : Z) (order : list Z)
  (s : trip_stop) : trip_stop :=
  if stop_trip_id s =? tripId
  then match index_of (stop_id s) i order with
       | Some j => set_position (f j) s
       | None => s
       end
  else s.

(** The statement of the two loops of the reorder handler. *)
Definition assign (tripId : Z) (f : Z -> Z) (i x : Z) : io unit :=
  update_trip_stops (fun s => (stop_id s =? x) && (stop_trip_id s =? tripId))
    (fun _ => f i).

(** The four requests of the API on stops and routes, and a session of
    them. *)
Inductive api_request :=
| PostStop (tripId : Z) (body : stop_body)
| DeleteStop (tripId stopId : Z)
| PutReorder (tripId : Z) (body : order_field)
| PostRoutes (svc : directions) (tripId : Z) (force : bool).

Definition answer (r : api_request) (db : Db) : Db :=
  match r with
  | PostStop tripId body => fst (post_stop tripId body db)
  | DeleteStop tripId stopId => fst (delete_stop tripId stopId db)
  | PutReorder tripId body => fst (put_reorder tripId body db)
  | PostRoutes svc tripId force => fst (fst (post_routes svc tripId force db))
  end.

Definition session (rs : list api_request) (db : Db) : Db :=
  fold_left (fun db r => answer r db) rs db.

Definition integrity (db : Db) : Prop :=
  stops_integrity db /\ segments_integrity db.

(** Requests on the stops of one trip. *)
Inductive request :=
| Insert (body : stop_body)
| Delete (stopId : Z).

Definition handle (tripId : Z) (r : request) (db : Db) : Db :=
  match r with
  | Insert body => fst (post_stop tripId body db)
  | Delete stopId => fst (delete_stop tripId stopId db)
  end.

Definition handle_all (tripId : Z) (rs : list request) (db : Db) : Db :=
  fold_left (fun db r => handle tripId r db) rs db.

(** An insert at the end of the trip: it gives no position, or the number
    of stops the trip has. *)
Definition at_end (tripId : Z) (r : request) (db : Db) : Prop :=
  match r with
  | Insert body =>
      body_position body = None
      \/ body_position body = Some (Z.of_nat (List.length (stops_of tripId db)))
  | Delete _ => True
  end.

(** A sequence of deletes and of inserts at the end, each taken in the
    state the requests before it left. *)
Fixpoint at_end_all (tripId : Z) (rs : list request) (db : Db) : Prop :=
  match rs with
  | [] => True
  | r :: rest => at_end tripId r db /\ at_end_all tripId rest (handle tripId r db)
  end.

(** The states a loop of statements goes through, one per completed
    iteration, up to the first exception. *)
Fixpoint for_each_states (i : Z) (order : list Z) (body : Z -> Z -> io unit)
  (db : Db) : list Db :=
  match order with
  | [] => []
  | x :: rest =>
      match body i x db with
      | (db', Returns _) => db' :: for_each_states (i + 1) rest body db'
      | (_, Throws _) => []
      end
  end.

(** The reorder handler: the database after the segments of the trip are
    deleted, after the first loop, and after each [UPDATE] of the two loops. *)
Definition without_segments (tripId : Z) (db : Db) : Db :=
  fst (delete_segments (fun g => segment_trip_id g =? tripId) db).

Definition staged (tripId : Z) (order : list Z) (db : Db) : Db :=
  last (for_each_states 0 order (stage tripId) (without_segments tripId db))
       (without_segments tripId db).

Definition reorder_states (tripId : Z) (order : list Z) (db : Db) : list Db :=
  for_each_states 0 order (stage tripId) (without_segments tripId db)
  ++ for_each_states 0 order (finalize tripId) (staged tripId order db).

(** The consecutive pairs of a list of stops, as queries. *)
Fixpoint consecutive_queries (l : list stop_with_coords) : list query :=
  match l with
  | from :: ((to :: _) as rest) => query_of from to :: consecutive_queries rest
  | _ => []
  end.


Fixpoint consecutive (l : list stop_with_coords)
  : list (stop_with_coords * stop_with_coords) :=
  match l with
  | from :: ((to :: _) as rest) => (from, to) :: consecutive rest
  | _ => []
  end.

(** The cached rows of a pair of stops. *)
Definition segments_of (tripId : Z) (p : stop_with_coords * stop_with_coords)
  (db : Db) : list route_segment :=
  filter (segment_key tripId (id (fst p)) (id (snd p))) (trip_route_segments db).

(** The database a run of [POST .../routes] starts its loop from. *)
Definition routes_start (tripId : Z) (force : bool) (db : Db) : Db :=
  if force
  then fst (delete_segments (fun g => segment_trip_id g =? tripId) db)
  else db.

(** ** Sample data *)

Definition empty_db : Db :=
  {| trips := [1];
     timeline_entries :=
       [{| entry_id := 7; location := Some (10#1, 20#1)%Q; place_name := Some "Home" |}];
     trip_stops := [];
     trip_route_segments := [];
     trip_stops_id_seq := 1;
     trip_route_segments_id_seq := 1 |}.

Definition waypoint (pos : option Z) (x : Z) : stop_body :=
  {| body_position := pos;
     body_timeline_entry_id := None;
     body_lat := Some (x # 1)%Q;
     body_lng := Some (x # 1)%Q;
     body_name := None |}.

Definition sample_route : mapbox_route :=
  {| geometry := [[1#1; 1#1]; [2#1; 2#1]]%Q; distance := (1200#1)%Q; duration := (90#1)%Q |}.

Definition service_up : directions :=
  fun _ => Returns {| code := "Ok"; routes := Some [sample_route] |}.

Definition no_route : MapboxDirectionsResponse :=
  {| code := "NoRoute"; routes := Some [] |}.

(** A service that finds no route for the queries that start at longitude [x]. *)
Definition service_down_from (x : Z) : directions :=
  fun q =>
    if Qeq_bool (fromLng q) (x # 1)
    then Returns no_route
    else Returns {| code := "Ok"; routes := Some [sample_route] |}.

(** Stops A, B, C appended to trip 1 (ids 1, 2, 3 at positions 0, 1, 2). *)
Definition three_stops : Db :=
  handle_all 1 [Insert (waypoint None 1); Insert (waypoint None 2);
                Insert (waypoint None 3)] empty_db.

(** The same with both segments, A to B and B to C, cached. *)
Definition three_stops_routed : Db :=
  fst (fst (post_routes service_up 1 false three_stops)).

(** Stops A, B appended, then D inserted at position 1: A, D, B at positions
    0, 1, 2, stored in the order A, B, D. *)
Definition inserted_before_last : Db :=
  handle_all 1 [Insert (waypoint None 1); Insert (waypoint None 2);
                Insert (waypoint (Some 1) 4)] empty_db.

(** Stop Y appended, then X inserted at position -1: Y at 1, X at -1. *)
Definition below_zero : Db :=
  handle_all 1 [Insert (waypoint None 1); Insert (waypoint (Some (-1)) 2)] empty_db.

Definition both_sources : stop_body :=
  {| body_position := None;
     body_timeline_entry_id := Some 7;
     body_lat := Some (1 # 1)%Q;
     body_lng := Some (2 # 1)%Q;
     body_name := Some "both" |}.

(** ** More vocabulary of the stops and the segments *)

(** The schema's foreign key of [trip_stops] into [trips]. *)
Definition stops_reference_trips (db : Db) : Prop :=
  Forall (fun s => In (stop_trip_id s) (trips db)) (trip_stops db).

Definition trip_segments (tripId : Z) (db : Db) : list route_segment :=
  filter (fun g => segment_trip_id g =? tripId) (trip_route_segments db).

Definition other_segments (tripId : Z) (db : Db) : list route_segment :=
  filter (fun g => negb (segment_trip_id g =? tripId)) (trip_route_segments db).

(** * The trips, the timeline and the whole server

    The routes of [server.ts] on [trips] and [timeline_entries], over the
    full rows of the two tables.  The handlers of the stops and the routes
    read these tables through [tables]: the ids of the trips, and the id,
    the location and the place name of the timeline entries.
    - [NOW()] is an argument of the requests that write a timestamp.
    - A path parameter is an integer, and the fields of a body hold values
      of the type the handler takes them for, or are absent.
    - The values a caller gives are taken to fit the types of their
      columns ([VARCHAR(n)], [INTEGER]); for the values the database
      computes, rounds or coerces see the conventions at the head of the
      file. *)

(** ** Rows of [trips] and [timeline_entries] *)

Module Trips.
Record row := {
  id : Z;
  name : string;
  description : option string;
  color : option string;
  created_at : Z;
  updated_at : Z
}.
End Trips.

Module Timeline.
(** [entry_type IN ('visit', 'activity')]. *)
Inductive kind := visit | activity.

(** The columns the server reads or writes, and [place_id] for
    [valid_visit_data]; [duration_seconds] is the stored value of the
    generated column. *)
Record row := {
  id : Z;
  entry_type : kind;
  start_time : Z;
  end_time : Z;
  duration_seconds : Z;
  location : option point;
  route : option (list point);
  place_id : option string;
  place_name : option string;
  semantic_type : option string;
  activity_type : option string;
  distance_meters : option number;
  edited : option bool
}.

(** [CONSTRAINT valid_visit_data] and [CONSTRAINT valid_activity_data]. *)
Definition valid_visit_data (r : row) : bool :=
  match entry_type r with
  | visit =>
      match location r, place_id r with
      | Some _, Some _ => true
      | _, _ => false
      end
  | activity => true
  end.

Definition valid_activity_data (r : row) : bool :=
  match entry_type r with
  | activity => match route r with Some _ => true | None => false end
  | visit => true
  end.

(** The constraint a row written to the table is refused for: the checks
    are made in the order of their names. *)
Definition violated (r : row) : option string :=
  if negb (valid_activity_data r) then Some "valid_activity_data"
  else if negb (valid_visit_data r) then Some "valid_visit_data"
  else None.

Fixpoint first_violated (rows : list row) : option string :=
  match rows with
  | [] => None
  | r :: rest =>
      match violated r with
      | Some c => Some c
      | None => first_violated rest
      end
  end.
End Timeline.

Record Server := {
  trips_table : list Trips.row;
  trips_id_seq : Z;
  timeline_table : list Timeline.row;
  stops_table : list trip_stop;
  segments_table : list route_segment;
  stops_id_seq : Z;
  segments_id_seq : Z
}.

(** What the handlers of the stops and the routes read of a timeline entry. *)
Definition entry_of (r : Timeline.row) : timeline_entry :=
  {| entry_id := Timeline.id r;
     location := Timeline.location r;
     place_name := Timeline.place_name r |}.

Definition tables (s : Server) : Db :=
  {| trips := map Trips.id (trips_table s);
     timeline_entries := map entry_of (timeline_table s);
     trip_stops := stops_table s;
     trip_route_segments := segments_table s;
     trip_stops_id_seq := stops_id_seq s;
     trip_route_segments_id_seq := segments_id_seq s |}.

(** The tables of the stops and the segments, and their sequences, written
    back. *)
Definition store (db : Db) (s : Server) : Server :=
  {| trips_table := trips_table s;
     trips_id_seq := trips_id_seq s;
     timeline_table := timeline_table s;
     stops_table := trip_stops db;
     segments_table := trip_route_segments db;
     stops_id_seq := trip_stops_id_seq db;
     segments_id_seq := trip_route_segments_id_seq db |}.

Definition with_trips (rows : list Trips.row) (seq : Z) (s : Server) : Server :=
  {| trips_table := rows;
     trips_id_seq := seq;
     timeline_table := timeline_table s;
     stops_table := stops_table s;
     segments_table := segments_table s;
     stops_id_seq := stops_id_seq s;
     segments_id_seq := segments_id_seq s |}.

Definition with_timeline (rows : list Timeline.row) (s : Server) : Server :=
  {| trips_table := trips_table s;
     trips_id_seq := trips_id_seq s;
     timeline_table := rows;
     stops_table := stops_table s;
     segments_table := segments_table s;
     stops_id_seq := stops_id_seq s;
     segments_id_seq := segments_id_seq s |}.

(** [Response.json(body, { status })] of the handlers below. *)
Inductive reply (A : Type) :=
| Status200 (body : A)
| Status201 (body : A)
| Status400 (error : string)
| Status404 (error : string)
| Status500 (e : exn).
Arguments Status200 {A} body.
Arguments Status201 {A} body.
Arguments Status400 {A} error.
Arguments Status404 {A} error.
Arguments Status500 {A} e.

(** ** [/api/trips] *)

Record trip_body := {
  trip_name : option string;
  trip_description : option string;
  trip_color : option string
}.

(** [POST /api/trips]. *)
Definition post_trip (now : Z) (body : trip_body) (s : Server)
  : Server * reply Trips.row :=
  match name_or_null (trip_name body) with
  | None => (s, Status400 "name required")
  | Some name =>
      let trip :=
        {| Trips.id := trips_id_seq s;
           Trips.name := name;
           Trips.description := name_or_null (trip_description body);
           Trips.color := Some match name_or_null (trip_color body) with
                               | Some c => c
                               | None => "#e11d48"
                               end;
           Trips.created_at := now;
           Trips.updated_at := now |} in
      (with_trips (trips_table s ++ [trip]) (trips_id_seq s + 1) s, Status201 trip)
  end.

Fixpoint insert_newest (t : Trips.row) (l : list Trips.row) : list Trips.row :=
  match l with
  | [] => [t]
  | x :: l' =>
      if Trips.created_at x <=? Trips.created_at t
      then t :: l
      else x :: insert_newest t l'
  end.

(** [ORDER BY t.created_at DESC]; trips created at the same instant, whose
    order the statement leaves open, come in storage order. *)
Definition newest_first (l : list Trips.row) : list Trips.row :=
  fold_right insert_newest [] l.

(** [COUNT(ts.id)] of the group of a trip. *)
Definition stop_count (tripId : Z) (s : Server) : Z :=
  Z.of_nat (List.length (filter (fun st => stop_trip_id st =? tripId) (stops_table s))).

(** [GET /api/trips]. *)
Definition get_trips (s : Server) : reply (list (Trips.row * Z)) :=
  Status200 (map (fun t => (t, stop_count (Trips.id t) s))
               (newest_first (trips_table s))).

(** ** [/api/trips/:id] *)

(** [GET /api/trips/:id]: the row of the trip with what [buildTripResponse]
    adds to it. *)
Definition get_trip (tripId : Z) (s : Server) : reply (Trips.row * trip_response) :=
  match find (fun t => Trips.id t =? tripId) (trips_table s),
        buildTripResponse tripId (tables s) with
  | Some t, Some r => Status200 (t, r)
  | _, _ => Status404 "Not found"
  end.

(** [SET name = COALESCE(${name ?? null}, name), ...]; the trigger
    [update_trips_updated_at] sets [updated_at]. *)
Definition updated_trip (now : Z) (body : trip_body) (t : Trips.row) : Trips.row :=
  {| Trips.id := Trips.id t;
     Trips.name := match trip_name body with
                   | Some n => n
                   | None => Trips.name t
                   end;
     Trips.description := coalesce (trip_description body) (Trips.description t);
     Trips.color := coalesce (trip_color body) (Trips.color t);
     Trips.created_at := Trips.created_at t;
     Trips.updated_at := now |}.

(** [PUT /api/trips/:id]. *)
Definition put_trip (now tripId : Z) (body : trip_body) (s : Server)
  : Server * reply Trips.row :=
  match filter (fun t => Trips.id t =? tripId) (trips_table s) with
  | [] => (s, Status404 "Not found")
  | t :: _ =>
      (with_trips
         (map (fun r => if Trips.id r =? tripId then updated_trip now body r else r)
            (trips_table s))
         (trips_id_seq s) s,
       Status200 (updated_trip now body t))
  end.

(** [DELETE /api/trips/:id].  The stops of a deleted trip go with it, and
    with the trip and the stops the segments that reference either
    ([ON DELETE CASCADE]). *)
Definition delete_trip (tripId : Z) (s : Server) : Server * reply unit :=
  if existsb (fun t => Trips.id t =? tripId) (trips_table s)
  then
    let gone := filter (fun st => stop_trip_id st =? tripId) (stops_table s) in
    ({| trips_table := filter (fun t => negb (Trips.id t =? tripId)) (trips_table s);
        trips_id_seq := trips_id_seq s;
        timeline_table := timeline_table s;
        stops_table := filter (fun st => negb (stop_trip_id st =? tripId)) (stops_table s);
        segments_table :=
          filter (fun g => negb (segment_trip_id g =? tripId)
                           && negb (existsb (fun st => touches (stop_id st) g) gone))
            (segments_table s);
        stops_id_seq := stops_id_seq s;
        segments_id_seq := segments_id_seq s |},
     Status200 tt)
  else (s, Status200 tt).

(** ** [PATCH /api/timeline/:id] *)

Record location_body := {
  patch_lng : option number;
  patch_lat : option number
}.

(** [SET location = ST_MakePoint(lng, lat), edited = true], for a coordinate
    the cast to [geography] stores as it is ([in_range]). *)
Definition relocated (lng lat : number) (r : Timeline.row) : Timeline.row :=
  {| Timeline.id := Timeline.id r;
     Timeline.entry_type := Timeline.entry_type r;
     Timeline.start_time := Timeline.start_time r;
     Timeline.end_time := Timeline.end_time r;
     Timeline.duration_seconds := Timeline.duration_seconds r;
     Timeline.location := Some (lng, lat);
     Timeline.route := Timeline.route r;
     Timeline.place_id := Timeline.place_id r;
     Timeline.place_name := Timeline.place_name r;
     Timeline.semantic_type := Timeline.semantic_type r;
     Timeline.activity_type := Timeline.activity_type r;
     Timeline.distance_meters := Timeline.distance_meters r;
     Timeline.edited := Some true |}.

Definition patch_timeline (entryId : Z) (body : location_body) (s : Server)
  : Server * reply (Z * number * number) :=
  match patch_lng body, patch_lat body with
  | Some lng, Some lat =>
      match Timeline.first_violated
              (map (relocated lng lat)
                 (filter (fun r => Timeline.id r =? entryId) (timeline_table s))) with
      | Some c => (s, Status500 (DbError c))
      | None =>
          (with_timeline
             (map (fun r => if Timeline.id r =? entryId then relocated lng lat r else r)
                (timeline_table s)) s,
           Status200 (entryId, lng, lat))
      end
  | _, _ => (s, Status400 "lng and lat required")
  end.

(** ** The requests of the server *)

(** A handler of the stops or the routes, run on the tables of the server. *)
Definition on_tables {R} (handler : Db -> Db * R) (s : Server) : Server * R :=
  (store (fst (handler (tables s))) s, snd (handler (tables s))).

Inductive server_request :=
| Api (r : api_request)
| PostTrip (now : Z) (body : trip_body)
| PutTrip (now tripId : Z) (body : trip_body)
| DeleteTrip (tripId : Z)
| PatchTimeline (entryId : Z) (body : location_body).

Definition serve_request (r : server_request) (s : Server) : Server :=
  match r with
  | Api r => store (answer r (tables s)) s
  | PostTrip now body => fst (post_trip now body s)
  | PutTrip now tripId body => fst (put_trip now tripId body s)
  | DeleteTrip tripId => fst (delete_trip tripId s)
  | PatchTimeline entryId body => fst (patch_timeline entryId body s)
  end.

Definition serve_all (rs : list server_request) (s : Server) : Server :=
  fold_left (fun s r => serve_request r s) rs s.

(** ** What every state of the server satisfies *)

(** The checks and the foreign keys of a row of [trip_stops]. *)
Definition stop_sound (db : Db) (st : trip_stop) : Prop :=
  stop_has_source st = true
  /\ In (stop_trip_id st) (trips db)
  /\ match timeline_entry_id st with
     | Some e => In e (map entry_id (timeline_entries db))
     | None => True
     end.

Definition owner (st : trip_stop) : Z * Z := (stop_id st, stop_trip_id st).

(** A cached segment joins two stops of its own trip. *)
Definition joins (stops : list trip_stop) (g : route_segment) : Prop :=
  In (from_stop_id g, segment_trip_id g) (map owner stops)
  /\ In (to_stop_id g, segment_trip_id g) (map owner stops).

Definition segment_triple (g : route_segment) : Z * Z * Z :=
  (segment_trip_id g, from_stop_id g, to_stop_id g).

(** The primary key and [unique_segment] of [trip_route_segments], and the
    segments as the handlers cache them. *)
Record segments_sound (db : Db) : Prop := {
  segments_key : NoDup (map segment_id (trip_route_segments db));
  segments_below_sequence :
    Forall (fun i => i < trip_route_segments_id_seq db)
      (map segment_id (trip_route_segments db));
  unique_segment : NoDup (map segment_triple (trip_route_segments db));
  segments_join : Forall (joins (trip_stops db)) (trip_route_segments db)
}.

Definition sound (db : Db) : Prop :=
  stops_integrity db
  /\ Forall (stop_sound db) (trip_stops db)
  /\ segments_sound db.

Record consistent (s : Server) : Prop := {
  trips_key : NoDup (map Trips.id (trips_table s));
  trips_below_sequence :
    Forall (fun i => i < trips_id_seq s) (map Trips.id (trips_table s));
  timeline_key : NoDup (map Timeline.id (timeline_table s));
  timeline_checks :
    Forall (fun r => Timeline.violated r = None) (timeline_table s);
  tables_sound : sound (tables s)
}.

(** ** [GET /api/timeline] *)

(** What PostgreSQL reads of the two date parameters: [$1::timestamptz],
    and [$2::date + interval '1 day'], as instants; [None] for a text it
    refuses. *)
Record postgres_dates := {
  timestamptz : string -> option Z;
  day_after : string -> option Z
}.

(** The value of [Number(url.searchParams.get("limit"))]: [Number(null)]
    is [0].  Numbers with a fractional part, and those beyond the range of
    [bigint], are left out. *)
Inductive js_number :=
| NaN
| Num (n : Z)
| Infinity
| NegInfinity.

(** [x || 5000]. *)
Definition or_5000 (x : js_number) : js_number :=
  match x with
  | NaN => Num 5000
  | Num 0 => Num 5000
  | _ => x
  end.

(** [Math.min(x, 5000)]. *)
Definition min_5000 (x : js_number) : js_number :=
  match x with
  | NaN => NaN
  | Num n => Num (Z.min n 5000)
  | Infinity => Num 5000
  | NegInfinity => NegInfinity
  end.

(** The row count [LIMIT] takes: a [bigint] that is not negative. *)
Definition sql_limit (x : js_number) : option nat :=
  match x with
  | Num n => if n <? 0 then None else Some (Z.to_nat n)
  | _ => None
  end.

(** The message of the error for a limit that is refused: a number that is
    not finite is no [bigint]. *)
Definition limit_error (x : js_number) : string :=
  match x with
  | Num _ => "LIMIT must not be negative"
  | _ => "bigint out of range"
  end.

Inductive geojson :=
| Point (coordinates : point)
| LineString (coordinates : list point).

(** The [feature] column of the query. *)
Record feature := {
  feature_geometry : option geojson;
  feature_id : Z;
  feature_type : Timeline.kind;
  feature_start_time : Z;
  feature_end_time : Z;
  feature_duration_seconds : Z;
  feature_semantic_type : option string;
  feature_activity_type : option string;
  feature_distance_meters : option number;
  feature_edited : option bool
}.

Definition feature_of (r : Timeline.row) : feature :=
  {| feature_geometry :=
       match Timeline.entry_type r with
       | Timeline.visit => option_map Point (Timeline.location r)
       | Timeline.activity => option_map LineString (Timeline.route r)
       end;
     feature_id := Timeline.id r;
     feature_type := Timeline.entry_type r;
     feature_start_time := Timeline.start_time r;
     feature_end_time := Timeline.end_time r;
     feature_duration_seconds := Timeline.duration_seconds r;
     feature_semantic_type := Timeline.semantic_type r;
     feature_activity_type := Timeline.activity_type r;
     feature_distance_meters := Timeline.distance_meters r;
     feature_edited := Timeline.edited r |}.

Fixpoint insert_by_start (r : Timeline.row) (l : list Timeline.row)
  : list Timeline.row :=
  match l with
  | [] => [r]
  | x :: l' =>
      if Timeline.start_time r <=? Timeline.start_time x
      then r :: l
      else x :: insert_by_start r l'
  end.

(** [ORDER BY start_time]; rows that start at the same instant, whose order
    the statement leaves open, come in storage order. *)
Definition order_by_start (l : list Timeline.row) : list Timeline.row :=
  fold_right insert_by_start [] l.

Definition is_visit (r : Timeline.row) : bool :=
  match Timeline.entry_type r with
  | Timeline.visit => true
  | Timeline.activity => false
  end.

(** The handler.  The parameters are read when the statement is bound,
    the limit is checked when it runs; a database error is named by its
    message here. *)
Definition get_timeline (pg : postgres_dates) (start end_ : option string)
  (limit : js_number) (s : Server) : reply (list feature) :=
  match name_or_null start, name_or_null end_ with
  | Some a, Some b =>
      match timestamptz pg a, day_after pg b with
      | Some from, Some until =>
          match sql_limit (min_5000 (or_5000 limit)) with
          | Some n =>
              Status200
                (map feature_of
                   (firstn n
                      (order_by_start
                         (filter (fun r => is_visit r
                                           && (from <=? Timeline.start_time r)
                                           && (Timeline.end_time r <=? until))
                            (timeline_table s)))))
          | None => Status500 (DbError (limit_error (min_5000 (or_5000 limit))))
          end
      | _, _ => Status500 (DbError "invalid input syntax for a date")
      end
  | _, _ => Status400 "start and end query params required (YYYY-MM-DD)"
  end.

(** * The stop list of the page ([frontend.ts])

    The handler of the move buttons of [renderStopList].  The array
    [order] holds the ids of the stops the page shows, in the order of the
    list; an element is [None] where the array holds [undefined]. *)

(** [order.indexOf(x)], counting from [i]. *)
Fixpoint indexOf_from (x : Z) (i : Z) (order : list (option Z)) : Z :=
  match order with
  | [] => -1
  | y :: rest =>
      if match y with Some v => v =? x | None => false end
      then i
      else indexOf_from x (i + 1) rest
  end.

Definition indexOf (x : Z) (order : list (option Z)) : Z := indexOf_from x 0 order.

(** [order[i]]: [undefined] outside the array. *)
Definition at_index (order : list (option Z)) (i : Z) : option Z :=
  if i <? 0 then None else nth (Z.to_nat i) order None.

Fixpoint set_nth (n : nat) (v : option Z) (order : list (option Z))
  : list (option Z) :=
  match n, order with
  | O, [] => [v]
  | O, _ :: rest => v :: rest
  | S n', [] => None :: set_nth n' v []
  | S n', y :: rest => y :: set_nth n' v rest
  end.

(** [order[i] = v].  A negative [i] names a property of the object and
    leaves the elements as they are; past the end the array grows. *)
Definition assign_index (order : list (option Z)) (i : Z) (v : option Z)
  : list (option Z) :=
  if i <? 0 then order else set_nth (Z.to_nat i) v order.

(** The click on a move button of the stop [stopId]: the array sent as
    [order] to [PUT .../stops/reorder], or [None] when the handler returns
    without a request. *)
Definition move (dir : string) (stopId : Z) (stops : list stop_with_coords)
  : option (list (option Z)) :=
  let order := map (fun s => Some (id s)) stops in
  let idx := indexOf stopId order in
  if String.eqb dir "up" && (0 <? idx)
  then
    let moved := at_index order idx in
    let other := at_index order (idx - 1) in
    Some (assign_index (assign_index order (idx - 1) moved) idx other)
  else if String.eqb dir "down" && (idx <? Z.of_nat (List.length order) - 1)
  then
    let moved := at_index order idx in
    let other := at_index order (idx + 1) in
    Some (assign_index (assign_index order (idx + 1) moved) idx other)
  else None.

(** ** Sample data of the server *)

Definition visit_7 : Timeline.row :=
  {| Timeline.id := 7;
     Timeline.entry_type := Timeline.visit;
     Timeline.start_time := 100;
     Timeline.end_time := 160;
     Timeline.duration_seconds := 60;
     Timeline.location := Some (10 # 1, 20 # 1)%Q;
     Timeline.route := None;
     Timeline.place_id := Some "place-7";
     Timeline.place_name := Some "Home";
     Timeline.semantic_type := Some "HOME";
     Timeline.activity_type := None;
     Timeline.distance_meters := None;
     Timeline.edited := Some false |}.

Definition walk_8 : Timeline.row :=
  {| Timeline.id := 8;
     Timeline.entry_type := Timeline.activity;
     Timeline.start_time := 160;
     Timeline.end_time := 200;
     Timeline.duration_seconds := 40;
     Timeline.location := None;
     Timeline.route := Some [(10 # 1, 20 # 1); (11 # 1, 21 # 1)]%Q;
     Timeline.place_id := None;
     Timeline.place_name := None;
     Timeline.semantic_type := None;
     Timeline.activity_type := Some "WALKING";
     Timeline.distance_meters := Some (1500 # 1)%Q;
     Timeline.edited := Some false |}.

(** No trip yet, and a visit and an activity on the timeline. *)
Definition empty_server : Server :=
  {| trips_table := [];
     trips_id_seq := 1;
     timeline_table := [visit_7; walk_8];
     stops_table := [];
     segments_table := [];
     stops_id_seq := 1;
     segments_id_seq := 1 |}.

Definition named (n : string) : trip_body :=
  {| trip_name := Some n; trip_description := None; trip_color := None |}.

Definition on_entry (e : Z) : stop_body :=
  {| body_position := None;
     body_timeline_entry_id := Some e;
     body_lat := None;
     body_lng := None;
     body_name := None |}.

Definition position_only (pos : Z) : stop_body :=
  {| body_position := Some pos;
     body_timeline_entry_id := None;
     body_lat := None;
     body_lng := None;
     body_name := None |}.

(** Trip 1 made at instant 1000, with a stop on the visit and two waypoints
    (ids 1, 2, 3 at positions 0, 1, 2). *)
Definition planning : list server_request :=
  [PostTrip 1000 (named "Coast");
   Api (PostStop 1 (on_entry 7));
   Api (PostStop 1 (waypoint None 2));
   Api (PostStop 1 (waypoint None 3))].

Definition planned : Server := Eval vm_compute in serve_all planning empty_server.

(** The tables after the routes of trip 1 were generated. *)
Definition planned_routed : Db :=
  Eval vm_compute in fst (fst (post_routes service_up 1 false (tables planned))).

(** The server [planned] with both segments of trip 1 cached, and a second
    trip without stops. *)
Definition sample_server : Server :=
  Eval vm_compute in
    serve_all [Api (PostRoutes service_up 1 false); PostTrip 2000 (named "Inland")]
      planned.

Definition waypoint_stop (i pos x : Z) : trip_stop :=
  {| stop_id := i;
     stop_trip_id := 1;
     position := pos;
     timeline_entry_id := None;
     waypoint_location := Some (x # 1, x # 1)%Q;
     waypoint_name := None |}.

(** The dates of one day, read as the instants 0 and 1000. *)
Definition one_day : postgres_dates :=
  {| timestamptz := fun d => if String.eqb d "2024-05-01" then Some 0 else None;
     day_after := fun d => if String.eqb d "2024-05-01" then Some 1000 else None |}.

(** ** Lists, keys and ranges *)

Lemma mem_key_In (k : Z * Z) (l : list (Z * Z)) :
  mem_key k l = true <-> In k l.
Proof.
  induction l as [|k' l IH]; simpl.
  - split; [discriminate | tauto].
  - rewrite orb_true_iff, andb_true_iff, !Z.eqb_eq, IH.
    destruct k as [a b], k' as [a' b']; simpl.
    split; intros [H | H]; auto.
    + left. destruct H; congruence.
    + left. inversion H; auto.
Qed.

Lemma mem_key_false (k : Z * Z) (l : list (Z * Z)) :
  mem_key k l = false <-> ~ In k l.
Proof.
  rewrite <- mem_key_In. destruct (mem_key k l); split; congruence.
Qed.

Lemma distinct_keys_NoDup (l : list (Z * Z)) :
  distinct_keys l = true <-> NoDup l.
Proof.
  induction l as [|k l IH]; simpl.
  - split; [constructor | reflexivity].
  - rewrite andb_true_iff, negb_true_iff, mem_key_false, IH.
    split; [intros [H1 H2]; constructor; auto | inversion 1; auto].
Qed.

Lemma mem_id_In (x : Z) (l : list Z) : mem_id x l = true <-> In x l.
Proof.
  unfold mem_id. rewrite existsb_exists. split.
  - intros [y [Hy E]]. apply Z.eqb_eq in E. now subst.
  - intros H. exists x. split; [assumption | apply Z.eqb_refl].
Qed.

Lemma NoDup_map_In_eq {A B} (f : A -> B) (l : list A) (x y : A) :
  NoDup (map f l) -> In x l -> In y l -> f x = f y -> x = y.
Proof.
  induction l as [|a l IH]; simpl; [tauto|].
  intros Hnd Hx Hy E. inversion Hnd as [|? ? Hnotin Hnd']; subst.
  destruct Hx as [-> | Hx], Hy as [-> | Hy]; auto.
  - exfalso. apply Hnotin. rewrite E. now apply in_map.
  - exfalso. apply Hnotin. rewrite <- E. now apply in_map.
Qed.

Lemma zseq_length (n : nat) : forall a, List.length (zseq a n) = n.
Proof. induction n; simpl; intros; [reflexivity | now rewrite IHn]. Qed.

Lemma zseq_In (n : nat) : forall a x, In x (zseq a n) <-> a <= x < a + Z.of_nat n.
Proof.
  induction n as [|n IH]; intros a x.
  - simpl. lia.
  - cbn [zseq In]. rewrite IH. lia.
Qed.

Lemma zseq_snoc (n : nat) : forall a, zseq a (S n) = zseq a n ++ [a + Z.of_nat n].
Proof.
  induction n as [|n IH]; intros a.
  - simpl. now rewrite Z.add_0_r.
  - change (zseq a (S (S n))) with (a :: zseq (a + 1) (S n)).
    rewrite IH. cbn [zseq app]. do 3 f_equal. lia.
Qed.

Lemma zseq_app (n m : nat) : forall a,
  zseq a (n + m) = zseq a n ++ zseq (a + Z.of_nat n) m.
Proof.
  induction n as [|n IH]; intros a.
  - simpl. now rewrite Z.add_0_r.
  - cbn [Nat.add zseq app]. rewrite IH. do 3 f_equal. lia.
Qed.

Lemma zseq_pred (n : nat) : forall a, map (fun p => p - 1) (zseq (a + 1) n) = zseq a n.
Proof.
  induction n as [|n IH]; intros a; simpl; [reflexivity|].
  rewrite IH. f_equal. lia.
Qed.

Lemma filter_map_commute {A} (p : A -> bool) (g : A -> A) (l : list A) :
  (forall x, p (g x) = p x) -> filter p (map g l) = map g (filter p l).
Proof.
  intros H. induction l as [|a l IH]; simpl; [reflexivity|].
  rewrite H. destruct (p a); simpl; now rewrite IH.
Qed.

Lemma filter_all {A} (p : A -> bool) (l : list A) :
  (forall x, In x l -> p x = true) -> filter p l = l.
Proof.
  induction l as [|a l IH]; simpl; intros H; [reflexivity|].
  rewrite H by auto. f_equal. apply IH. auto.
Qed.

Lemma filter_none {A} (p : A -> bool) (l : list A) :
  (forall x, In x l -> p x = false) -> filter p l = [].
Proof.
  induction l as [|a l IH]; simpl; intros H; [reflexivity|].
  rewrite H by auto. apply IH. auto.
Qed.

(** ** The [UPDATE] of positions *)

Lemma update_position_ids cond f (l : list trip_stop) :
  map stop_id (update_position cond f l) = map stop_id l.
Proof.
  unfold update_position. rewrite map_map. apply map_ext.
  intros s. now destruct (cond s).
Qed.

Lemma update_position_untouched cond f (l : list trip_stop) :
  (forall s, In s l -> cond s = false) -> update_position cond f l = l.
Proof.
  intros H. unfold update_position. rewrite <- (map_id l) at 2.
  apply map_ext_in. intros s Hs. now rewrite H.
Qed.

(** A successful [UPDATE] is the plain rewriting of the rows. *)
Lemma update_rows_result cond f (todo : list trip_stop) : forall done rows,
  update_rows cond f done todo = Some rows ->
  rows = done ++ update_position cond f todo.
Proof.
  induction todo as [|s rest IH]; intros done rows; simpl.
  - intros [= <-]. now rewrite app_nil_r.
  - destruct (cond s).
    + destruct (mem_key _ _); [discriminate|].
      intros H. apply IH in H. now rewrite <- app_assoc in H.
    + intros H. apply IH in H. now rewrite <- app_assoc in H.
Qed.

(** The statement goes through when the new key of each row it changes is
    held neither by a row visited before it (as rewritten) nor by a row
    still to visit (as stored). *)
Lemma update_rows_accepts cond f (todo : list trip_stop) : forall done,
  (forall l1 s l2, todo = l1 ++ s :: l2 -> cond s = true ->
     ~ In (position_key (set_position (f (position s)) s))
          (map position_key (done ++ update_position cond f l1 ++ l2))) ->
  update_rows cond f done todo = Some (done ++ update_position cond f todo).
Proof.
  induction todo as [|s rest IH]; intros done H; simpl.
  - now rewrite app_nil_r.
  - assert (Hrest : forall s', (forall l1 r l2, rest = l1 ++ r :: l2 ->
               cond r = true ->
               In (position_key (set_position (f (position r)) r))
                  (map position_key ((done ++ [s']) ++ update_position cond f l1 ++ l2)) ->
               s' = (if cond s then set_position (f (position s)) s else s) ->
               False)).
    { intros s' l1 r l2 E Hc Hin ->.
      apply (H (s :: l1) r l2); [now rewrite E | assumption |].
      rewrite <- app_assoc in Hin. exact Hin. }
    destruct (cond s) eqn:Hs.
    + destruct (mem_key _ _) eqn:Hm.
      * exfalso. apply mem_key_In in Hm.
        apply (H [] s rest eq_refl Hs). exact Hm.
      * rewrite IH; [now rewrite <- app_assoc|].
        intros l1 r l2 E Hc Hin. eapply Hrest; eauto.
    + rewrite IH; [now rewrite <- app_assoc|].
      intros l1 r l2 E Hc Hin. eapply Hrest; eauto.
Qed.

Lemma update_rows_untouched cond f (rows : list trip_stop) :
  (forall s, In s rows -> cond s = false) ->
  update_rows cond f [] rows = Some rows.
Proof.
  intros H. rewrite update_rows_accepts.
  - simpl. now rewrite update_position_untouched.
  - intros l1 s l2 -> Hc. rewrite H in Hc; [discriminate|].
    apply in_or_app. right. now left.
Qed.

(** A successful [UPDATE] keeps [unique_position_per_trip]. *)
Lemma update_rows_unique cond f (todo : list trip_stop) : forall done rows,
  NoDup (map position_key (done ++ todo)) ->
  update_rows cond f done todo = Some rows ->
  NoDup (map position_key rows).
Proof.
  induction todo as [|s rest IH]; intros done rows Hnd; simpl.
  - intros [= <-]. now rewrite app_nil_r in Hnd.
  - destruct (cond s).
    + destruct (mem_key _ _) eqn:Hm; [discriminate|].
      apply mem_key_false in Hm. apply IH.
      rewrite <- app_assoc. cbn [app].
      rewrite map_app in Hnd, Hm |- *. cbn [map] in Hnd |- *.
      apply NoDup_remove_1 in Hnd.
      eapply Permutation_NoDup; [apply Permutation_middle|].
      constructor; assumption.
    + apply IH. now rewrite <- app_assoc.
Qed.

(** ** [POST .../stops], step by step *)

Lemma post_stop_steps (tripId : Z) (body : stop_body) (db : Db) :
  post_stop_handler tripId body db
  = (pos <- place tripId body ;;
     inserted <- insert_chosen tripId pos body ;;
     invalidate tripId pos inserted) db.
Proof.
  unfold post_stop_handler, place, insert_chosen, invalidate, chosen_source.
  destruct (truthy_id (body_timeline_entry_id body)), (body_lat body), (body_lng body);
    reflexivity.
Qed.

Lemma place_append (tripId : Z) (body : stop_body) (db : Db) :
  body_position body = None ->
  place tripId body db = (db, Returns (max_position tripId (trip_stops db) + 1)).
Proof. intros H. unfold place. now rewrite H. Qed.

Lemma insert_trip_stop_cases (tripId pos : Z) entry wl wn (db : Db) :
  (exists c, insert_trip_stop tripId pos entry wl wn db
             = (advance_stop_seq db, Throws (DbError c)))
  \/ insert_trip_stop tripId pos entry wl wn db
     = (with_trip_stops (trip_stops db ++ [new_stop db tripId pos entry wl wn])
          (advance_stop_seq db),
        Returns (new_stop db tripId pos entry wl wn)).
Proof.
  unfold insert_trip_stop.
  destruct (negb (stop_has_source _)); [left; eauto|].
  destruct (mem_key _ _); [left; eauto|].
  destruct (negb (mem_id _ _)); [left; eauto|].
  destruct entry as [e|]; [destruct (negb (mem_id e _)); [left; eauto|]|];
    right; reflexivity.
Qed.

Lemma insert_trip_stop_accepts (tripId pos : Z) entry wl wn (db : Db) :
  stop_has_source (new_stop db tripId pos entry wl wn) = true ->
  ~ In (tripId, pos) (map position_key (trip_stops db)) ->
  In tripId (trips db) ->
  match entry with
  | Some e => In e (map entry_id (timeline_entries db))
  | None => True
  end ->
  insert_trip_stop tripId pos entry wl wn db
  = (with_trip_stops (trip_stops db ++ [new_stop db tripId pos entry wl wn])
       (advance_stop_seq db),
     Returns (new_stop db tripId pos entry wl wn)).
Proof.
  intros Hsrc Hkey Htrip Hentry. unfold insert_trip_stop.
  rewrite Hsrc. cbn [negb].
  apply mem_key_false in Hkey. change (position_key (new_stop db tripId pos entry wl wn))
    with (tripId, pos). rewrite Hkey.
  apply mem_id_In in Htrip. rewrite Htrip. cbn [negb].
  destruct entry as [e|]; [|reflexivity].
  apply mem_id_In in Hentry. now rewrite Hentry.
Qed.

Lemma chosen_source_has_source (body : stop_body) entry wl wn (db : Db) tripId pos :
  chosen_source body = Some (entry, wl, wn) ->
  stop_has_source (new_stop db tripId pos entry wl wn) = true.
Proof.
  unfold chosen_source.
  destruct (truthy_id _), (body_lat body), (body_lng body);
    intros [= <- <- <-]; reflexivity.
Qed.

(** The invalidation always answers 201 with the stop, and touches the
    segments only. *)
Lemma invalidate_created (tripId pos : Z) (stop : trip_stop) (db : Db) :
  exists db',
    invalidate tripId pos (Some stop) db = (db', Returns (Created stop))
    /\ trip_stops db' = trip_stops db
    /\ trip_stops_id_seq db' = trip_stops_id_seq db
    /\ incl (trip_route_segments db') (trip_route_segments db).
Proof.
  unfold invalidate, bind, delete_segments, select_stops, ret.
  cbn [with_segments trip_stops].
  match goal with |- context [filter ?c (trip_stops db)] =>
    destruct (filter c (trip_stops db)) as [|n0 [|n1 [|n2 l]]] end;
    eexists; (split; [reflexivity|]); cbn; repeat split;
    repeat (intros g Hg; apply filter_In in Hg; destruct Hg as [Hg _]; revert g Hg);
    try (intros g Hg; exact Hg).
Qed.

Lemma post_stop_cases (tripId : Z) (body : stop_body) (db : Db) :
  match place tripId body db with
  | (db1, Throws e) => post_stop tripId body db = (db1, InternalServerError e)
  | (db1, Returns pos) =>
      match chosen_source body with
      | None =>
          post_stop tripId body db
          = (db1, BadRequest "Provide timeline_entry_id or lat/lng")
      | Some (entry, wl, wn) =>
          match insert_trip_stop tripId pos entry wl wn db1 with
          | (db2, Throws e) => post_stop tripId body db = (db2, InternalServerError e)
          | (db2, Returns stop) =>
              post_stop tripId body db = serve (invalidate tripId pos (Some stop)) db2
          end
      end
  end.
Proof.
  unfold post_stop, serve. rewrite post_stop_steps. unfold bind. cbv beta.
  destruct (place tripId body db) as [db1 [pos|e]]; [|reflexivity].
  unfold insert_chosen.
  destruct (chosen_source body) as [[[entry wl] wn]|]; [|reflexivity].
  unfold bind. cbv beta.
  destruct (insert_trip_stop tripId pos entry wl wn db1) as [db2 [stop|e]];
    reflexivity.
Qed.

(** [place] changes the stops only by an accepted shift. *)
Lemma place_cases (tripId : Z) (body : stop_body) (db : Db) :
  match body_position body with
  | None => place tripId body db
            = (db, Returns (max_position tripId (trip_stops db) + 1))
  | Some pos =>
      match update_rows (fun s => (stop_trip_id s =? tripId) && (pos <=? position s))
              (fun p => p + 1) [] (trip_stops db) with
      | Some rows => place tripId body db = (with_trip_stops rows db, Returns pos)
      | None => place tripId body db
                = (db, Throws (DbError "unique_position_per_trip"))
      end
  end.
Proof.
  unfold place. destruct (body_position body) as [pos|]; [|reflexivity].
  unfold bind, update_trip_stops.
  destruct (update_rows _ _ _ _); reflexivity.
Qed.

Lemma place_frame (tripId : Z) (body : stop_body) (db : Db) :
  map stop_id (trip_stops (fst (place tripId body db))) = map stop_id (trip_stops db)
  /\ trip_route_segments (fst (place tripId body db)) = trip_route_segments db
  /\ trip_stops_id_seq (fst (place tripId body db)) = trip_stops_id_seq db
  /\ trips (fst (place tripId body db)) = trips db
  /\ timeline_entries (fst (place tripId body db)) = timeline_entries db.
Proof.
  pose proof (place_cases tripId body db) as H.
  destruct (body_position body) as [pos|]; [|rewrite H; cbn; auto].
  destruct (update_rows _ _ _ _) as [rows|] eqn:E; rewrite H; cbn; auto.
  apply update_rows_result in E. cbn [app] in E. subst rows.
  rewrite update_position_ids. auto.
Qed.

Lemma chosen_source_none (body : stop_body) :
  chosen_source body = None <-> ~ has_entry body /\ ~ has_coordinate body.
Proof.
  unfold chosen_source, has_entry, has_coordinate.
  destruct (truthy_id _), (body_lat body), (body_lng body);
    intuition congruence.
Qed.

Lemma chosen_source_entry (body : stop_body) (e : Z) :
  truthy_id (body_timeline_entry_id body) = Some e ->
  chosen_source body = Some (Some e, None, None).
Proof. unfold chosen_source. now intros ->. Qed.

(** What [POST .../stops] answers, and what it leaves in the table, by the
    source of the body. *)
Lemma post_stop_created (tripId : Z) (body : stop_body) (db : Db) (stop : trip_stop) :
  snd (post_stop tripId body db) = Created stop ->
  exists pos db1,
    place tripId body db = (db1, Returns pos)
    /\ chosen_source body
       = Some (timeline_entry_id stop, waypoint_location stop, waypoint_name stop)
    /\ stop = new_stop db1 tripId pos (timeline_entry_id stop)
                (waypoint_location stop) (waypoint_name stop)
    /\ trip_stops (fst (post_stop tripId body db)) = trip_stops db1 ++ [stop].
Proof.
  pose proof (post_stop_cases tripId body db) as H.
  destruct (place tripId body db) as [db1 [pos|e]]; [|rewrite H; discriminate].
  destruct (chosen_source body) as [[[entry wl] wn]|] eqn:Hsrc; [|rewrite H; discriminate].
  destruct (insert_trip_stop_cases tripId pos entry wl wn db1) as [[c E] | E];
    rewrite E in H; [rewrite H; discriminate|].
  destruct (invalidate_created tripId pos (new_stop db1 tripId pos entry wl wn)
              (with_trip_stops (trip_stops db1 ++ [new_stop db1 tripId pos entry wl wn])
                 (advance_stop_seq db1))) as [db3 [E3 [Hrows _]]].
  rewrite H. unfold serve. rewrite E3. cbn [fst snd].
  intros [= <-]. exists pos, db1. repeat split; auto.
Qed.

(** ** Validation of the location source (C5) *)

(** C5 as stated does not hold: a body that carries both a timeline-entry
    reference and a waypoint coordinate is not rejected.  The handler takes
    the reference, drops the coordinate and answers 201. *)
Lemma both_sources_accepted :
  has_entry both_sources /\ has_coordinate both_sources
  /\ snd (post_stop 1 both_sources empty_db)
     = Created {| stop_id := 1; stop_trip_id := 1; position := 0;
                  timeline_entry_id := Some 7; waypoint_location := None;
                  waypoint_name := None |}.
Proof.
  repeat split; try discriminate.
Qed.

(** C5, amended.  With neither source in the body no stop is inserted, and
    the answer is a ValidationError whenever the shift for an explicit
    position, which runs before the check, was accepted.  A body with a
    timeline-entry reference is never rejected as invalid, also when it
    carries a coordinate as well: the stop takes the reference and no
    waypoint.  A stop is created only from a body with at least one source,
    and the created row has exactly one. *)
Theorem stop_source_validation (tripId : Z) (body : stop_body) (db : Db) :
  (~ has_entry body -> ~ has_coordinate body ->
     map stop_id (trip_stops (fst (post_stop tripId body db)))
     = map stop_id (trip_stops db)
     /\ (forall stop, snd (post_stop tripId body db) <> Created stop)
     /\ (shift_accepted tripId body db ->
         ValidationError (snd (post_stop tripId body db))))
  /\ (has_entry body ->
      ~ ValidationError (snd (post_stop tripId body db))
      /\ forall stop, snd (post_stop tripId body db) = Created stop ->
           timeline_entry_id stop = truthy_id (body_timeline_entry_id body)
           /\ waypoint_location stop = None)
  /\ (forall stop, snd (post_stop tripId body db) = Created stop ->
        (has_entry body \/ has_coordinate body)
        /\ stop_has_source stop = true
        /\ In stop (trip_stops (fst (post_stop tripId body db)))).
Proof.
  split; [|split].
  - intros Hne Hnc.
    assert (Hsrc : chosen_source body = None) by (apply chosen_source_none; auto).
    pose proof (post_stop_cases tripId body db) as H.
    pose proof (place_frame tripId body db) as [Hids _].
    pose proof (place_cases tripId body db) as Hp.
    unfold shift_accepted.
    destruct (place tripId body db) as [db1 [pos|e]]; rewrite ?Hsrc in H;
      rewrite H; cbn [fst snd] in *.
    + repeat split; auto; [discriminate | intros _; eexists; reflexivity].
    + repeat split; auto; [discriminate|].
      destruct (body_position body) as [pos|]; [|discriminate].
      destruct (update_rows _ _ _ _); [discriminate | congruence].
  - intros He. unfold has_entry in He.
    destruct (truthy_id (body_timeline_entry_id body)) as [e|] eqn:Ht; [|congruence].
    pose proof (chosen_source_entry body e Ht) as Hsrc. split.
    + pose proof (post_stop_cases tripId body db) as H.
      destruct (place tripId body db) as [db1 [pos|x]];
        [|rewrite H; intros [msg Hm]; discriminate].
      rewrite Hsrc in H.
      destruct (insert_trip_stop_cases tripId pos (Some e) None None db1) as [[c E] | E];
        rewrite E in H; rewrite H; [intros [msg Hm]; discriminate|].
      destruct (invalidate_created tripId pos (new_stop db1 tripId pos (Some e) None None)
                  (with_trip_stops
                     (trip_stops db1 ++ [new_stop db1 tripId pos (Some e) None None])
                     (advance_stop_seq db1))) as [db3 [E3 _]].
      unfold serve. rewrite E3. intros [msg Hm]; discriminate.
    + intros stop Hc. apply post_stop_created in Hc.
      destruct Hc as [pos [db1 [_ [Hs _]]]]. rewrite Hsrc in Hs.
      injection Hs as <- <- _. auto.
  - intros stop Hc. apply post_stop_created in Hc.
    destruct Hc as [pos [db1 [_ [Hs [Hnew Hrows]]]]]. repeat split.
    + unfold has_entry, has_coordinate. unfold chosen_source in Hs.
      destruct (truthy_id (body_timeline_entry_id body)); [left; discriminate|].
      destruct (body_lat body), (body_lng body); try discriminate.
      right; split; discriminate.
    + rewrite Hnew. eapply chosen_source_has_source; eauto.
    + rewrite Hrows. apply in_or_app. right. now left.
Qed.

Lemma stop_source_validation_witness :
  ValidationError
    (snd (post_stop 1 {| body_position := Some 3; body_timeline_entry_id := Some 0;
                         body_lat := Some (1 # 1)%Q; body_lng := None;
                         body_name := None |} three_stops))
  /\ ~ ValidationError (snd (post_stop 1 both_sources empty_db)).
Proof.
  split.
  - apply (proj1 (stop_source_validation 1
             {| body_position := Some 3; body_timeline_entry_id := Some 0;
                body_lat := Some (1 # 1)%Q; body_lng := None;
                body_name := None |} three_stops)).
    + unfold has_entry. cbn. congruence.
    + unfold has_coordinate. cbn. intros [_ H]. congruence.
    + unfold shift_accepted. vm_compute. discriminate.
  - apply (proj1 (proj2 (stop_source_validation 1 both_sources empty_db))).
    unfold has_entry. cbn. discriminate.
Defined.

(** ** Appending a stop (C10) *)

Lemma fold_max_ge (l : list Z) : forall p,
  p <= fold_left Z.max l p /\ Forall (fun x => x <= fold_left Z.max l p) l.
Proof.
  induction l as [|a l IH]; intros p; simpl.
  - split; [lia | constructor].
  - destruct (IH (Z.max p a)) as [H1 H2]. split; [lia|].
    constructor; [lia | assumption].
Qed.

Lemma fold_max_In (l : list Z) : forall p, In (fold_left Z.max l p) (p :: l).
Proof.
  induction l as [|a l IH]; intros p; simpl.
  - now left.
  - destruct (IH (Z.max p a)) as [H | H]; [|now right; right].
    rewrite <- H.
    destruct (Z.max_spec p a) as [[_ E] | [_ E]]; rewrite E; auto.
Qed.

Lemma max_position_ge (tripId : Z) (rows : list trip_stop) (s : trip_stop) :
  In s rows -> stop_trip_id s = tripId -> position s <= max_position tripId rows.
Proof.
  intros Hin Ht. unfold max_position.
  assert (Hp : In (position s)
                 (map position (filter (fun s => stop_trip_id s =? tripId) rows))).
  { apply in_map, filter_In. split; [assumption | now apply Z.eqb_eq]. }
  destruct (map position _) as [|p ps]; [contradiction|].
  destruct (fold_max_ge ps p) as [H1 H2].
  destruct Hp as [<- | Hp]; [assumption|].
  rewrite Forall_forall in H2. now apply H2.
Qed.

Lemma max_position_greatest (tripId : Z) (rows : list trip_stop) (m : Z) :
  In m (map position (filter (fun s => stop_trip_id s =? tripId) rows)) ->
  Forall (fun p => p <= m) (map position (filter (fun s => stop_trip_id s =? tripId) rows)) ->
  max_position tripId rows = m.
Proof.
  unfold max_position. intros Hin Hall.
  destruct (map position _) as [|p ps]; [contradiction|].
  pose proof (fold_max_In ps p) as Hmax.
  destruct (fold_max_ge ps p) as [H1 H2].
  rewrite Forall_forall in Hall, H2.
  apply Hall in Hmax.
  assert (m <= fold_left Z.max ps p).
  { destruct Hin as [<- | Hin]; [assumption | now apply H2]. }
  lia.
Qed.

Lemma filter_one_key {A} (key : A -> Z * Z) (c : A -> bool) (k : Z * Z) (l : list A) :
  NoDup (map key l) ->
  (forall x, In x l -> c x = true -> key x = k) ->
  Nat.le (List.length (filter c l)) 1.
Proof.
  induction l as [|a l IH]; simpl; intros Hnd Hk; [lia|].
  inversion Hnd as [|? ? Hnotin Hnd']; subst.
  destruct (c a) eqn:Ha; [|apply IH; auto].
  rewrite filter_none; [simpl; lia|].
  intros y Hy. destruct (c y) eqn:Hcy; [|reflexivity].
  exfalso. apply Hnotin. rewrite (Hk a), <- (Hk y); auto using in_map.
Qed.

(** With no segment on the new stop and at most one neighbour, the
    invalidation deletes nothing. *)
Lemma invalidate_keeps (tripId pos : Z) (stop : trip_stop) (db : Db) :
  (forall g, In g (trip_route_segments db) -> touches (stop_id stop) g = false) ->
  Nat.le
    (List.length
       (filter (fun s => (stop_trip_id s =? tripId)
                         && ((position s =? pos - 1) || (position s =? pos + 1)))
          (trip_stops db))) 1 ->
  exists db',
    invalidate tripId pos (Some stop) db = (db', Returns (Created stop))
    /\ trip_stops db' = trip_stops db
    /\ trip_route_segments db' = trip_route_segments db.
Proof.
  intros Hseg Hn.
  unfold invalidate, bind, delete_segments, select_stops, ret.
  cbn [with_segments trip_stops].
  assert (E : filter (fun g => negb ((segment_trip_id g =? tripId)
                                     && touches (stop_id stop) g))
                (trip_route_segments db) = trip_route_segments db).
  { apply filter_all. intros g Hg. rewrite (Hseg g Hg). now rewrite andb_false_r. }
  destruct (filter _ (trip_stops db)) as [|n0 [|n1 [|n2 l]]];
    cbn [List.length] in Hn; try lia;
    eexists; (split; [reflexivity|]); cbn; auto.
Qed.

Lemma fresh_stop_untouched (db : Db) (g : route_segment) :
  stops_integrity db -> segments_integrity db ->
  In g (trip_route_segments db) -> touches (trip_stops_id_seq db) g = false.
Proof.
  intros [_ Hseq _] Hfk Hg.
  unfold segments_integrity in Hfk. rewrite Forall_forall in Hfk, Hseq.
  destruct (Hfk g Hg) as [Hfrom Hto].
  apply Hseq in Hfrom. apply Hseq in Hto.
  unfold touches. apply orb_false_iff. split; apply Z.eqb_neq; lia.
Qed.

(** C10.  A stop inserted without a position goes to [max(position) + 1],
    or to [0] in a trip without stops, at the end of the table, and no
    cached segment of any trip is deleted or changed, whatever the answer.
    The insert is accepted when the trip and the source exist and the
    position [max(position) + 1] is an [INTEGER]. *)
Theorem append_keeps_segments (tripId : Z) (body : stop_body) (db : Db) :
  stops_integrity db -> segments_integrity db ->
  body_position body = None ->
  trip_route_segments (fst (post_stop tripId body db)) = trip_route_segments db
  /\ (references_hold tripId body db ->
      Forall (fun p => p < INTEGER_max) (map position (stops_of tripId db)) ->
      exists stop, snd (post_stop tripId body db) = Created stop)
  /\ forall stop, snd (post_stop tripId body db) = Created stop ->
       trip_stops (fst (post_stop tripId body db)) = trip_stops db ++ [stop]
       /\ (stops_of tripId db = [] -> position stop = 0)
       /\ (forall m, In m (map position (stops_of tripId db)) ->
             Forall (fun p => p <= m) (map position (stops_of tripId db)) ->
             position stop = m + 1).
Proof.
  intros Hint Hfk Hpos.
  pose proof (post_stop_cases tripId body db) as H.
  rewrite (place_append tripId body db Hpos) in H.
  set (pos := max_position tripId (trip_stops db) + 1) in *.
  assert (Hfresh : ~ In (tripId, pos) (map position_key (trip_stops db))).
  { intros Hin. apply in_map_iff in Hin. destruct Hin as [s [Ek Hs]].
    injection Ek as Et Ep.
    pose proof (max_position_ge tripId (trip_stops db) s Hs Et). lia. }
  destruct (chosen_source body) as [[[entry wl] wn]|] eqn:Hsrc.
  - set (s := new_stop db tripId pos entry wl wn).
    destruct (invalidate_keeps tripId pos s
                (with_trip_stops (trip_stops db ++ [s]) (advance_stop_seq db)))
      as [db' [Einv [Hrows Hsegs]]].
    { intros g Hg. now apply fresh_stop_untouched. }
    { cbn [with_trip_stops trip_stops]. rewrite filter_app, length_app.
      cbn [filter s new_stop stop_trip_id position].
      replace (pos =? pos - 1) with false by (symmetry; apply Z.eqb_neq; lia).
      replace (pos =? pos + 1) with false by (symmetry; apply Z.eqb_neq; lia).
      rewrite andb_false_r. cbn [List.length]. rewrite Nat.add_0_r.
      apply (filter_one_key position_key _ (tripId, pos - 1)).
      - apply (unique_positions db Hint).
      - intros x Hx Hc. apply andb_true_iff in Hc. destruct Hc as [Ht Hp].
        apply Z.eqb_eq in Ht. apply orb_true_iff in Hp.
        unfold position_key. destruct Hp as [Hp | Hp]; apply Z.eqb_eq in Hp.
        + now rewrite Ht, Hp.
        + pose proof (max_position_ge tripId (trip_stops db) x Hx Ht).
          unfold pos in Hp. lia. }
    cbn [with_trip_stops trip_stops trip_route_segments advance_stop_seq]
      in Hrows, Hsegs.
    destruct (insert_trip_stop_cases tripId pos entry wl wn db) as [[c E] | E];
      rewrite E in H; rewrite H.
    + cbn [fst snd]. split; [reflexivity|]. split; [|discriminate].
      intros [Htrip Href] _. rewrite Hsrc in Href. exfalso.
      rewrite insert_trip_stop_accepts in E; try assumption.
      * discriminate.
      * eapply chosen_source_has_source; eauto.
    + unfold serve. fold s. rewrite Einv. cbn [fst snd].
      split; [assumption|]. split; [intros _ _; now exists s|].
      intros stop [= <-]. split; [assumption|]. split.
      * intros Hempty. cbn. unfold pos, max_position.
        unfold stops_of in Hempty. now rewrite Hempty.
      * intros m Hm Hall. cbn. unfold pos.
        now rewrite (max_position_greatest tripId (trip_stops db) m Hm Hall).
  - rewrite H. cbn [fst snd]. split; [reflexivity|]. split; [|discriminate].
    intros [_ Href] _. rewrite Hsrc in Href. contradiction.
Qed.

Ltac distinct :=
  repeat (constructor; [cbn; intuition (try discriminate; try lia)|]); constructor.

Lemma three_stops_routed_integrity :
  stops_integrity three_stops_routed /\ segments_integrity three_stops_routed.
Proof.
  split; [constructor|].
  - vm_compute. distinct.
  - apply Forall_forall. intros i Hi. vm_compute in Hi.
    intuition (subst; reflexivity).
  - apply distinct_keys_NoDup. reflexivity.
  - apply Forall_forall. intros g Hg. vm_compute in Hg.
    intuition (subst; vm_compute; auto 6).
Qed.

Lemma append_keeps_segments_witness :
  trip_route_segments (fst (post_stop 1 (waypoint None 9) three_stops_routed))
  = trip_route_segments three_stops_routed
  /\ exists stop, snd (post_stop 1 (waypoint None 9) three_stops_routed) = Created stop.
Proof.
  destruct (append_keeps_segments 1 (waypoint None 9) three_stops_routed
              (proj1 three_stops_routed_integrity)
              (proj2 three_stops_routed_integrity) eq_refl)
    as [Hsegs [Hcreated _]].
  split; [exact Hsegs|]. apply Hcreated.
  - split; [now left | exact I].
  - apply Forall_forall. intros p Hp. vm_compute in Hp.
    unfold INTEGER_max. intuition (subst; lia).
Defined.

(** ** Stops stored in position order *)

Lemma zseq_sorted (n : nat) : forall a, StronglySorted Z.lt (zseq a n).
Proof.
  induction n as [|n IH]; intros a; simpl; constructor; [apply IH|].
  apply Forall_forall. intros x Hx. apply zseq_In in Hx. lia.
Qed.

Lemma sorted_app (l1 l2 : list Z) :
  StronglySorted Z.lt l1 -> StronglySorted Z.lt l2 ->
  (forall x y, In x l1 -> In y l2 -> x < y) ->
  StronglySorted Z.lt (l1 ++ l2).
Proof.
  induction l1 as [|a l1 IH]; simpl; intros H1 H2 H; [assumption|].
  inversion H1 as [|? ? Hs Hall]; subst. constructor.
  - apply IH; auto.
  - apply Forall_app. split; [assumption|].
    apply Forall_forall. intros y Hy. apply H; auto.
Qed.

Lemma sorted_split (l1 l2 : list Z) (q : Z) :
  StronglySorted Z.lt (l1 ++ q :: l2) ->
  Forall (fun x => x < q) l1 /\ Forall (Z.lt q) l2.
Proof.
  induction l1 as [|a l1 IH]; simpl; intros H; inversion H as [|? ? Hs Hall]; subst.
  - split; [constructor | assumption].
  - destruct (IH Hs) as [H1 H2]. split; [|assumption].
    constructor; [|assumption].
    rewrite Forall_forall in Hall. apply Hall. apply in_or_app. right. now left.
Qed.

Lemma app_eq_length {A} (l1 l2 l1' l2' : list A) :
  l1 ++ l2 = l1' ++ l2' -> List.length l1 = List.length l1' ->
  l1 = l1' /\ l2 = l2'.
Proof.
  revert l1'. induction l1 as [|a l1 IH]; intros [|a' l1']; simpl;
    try discriminate; intros E Hl; [auto|].
  injection E as <- E. injection Hl as Hl.
  destruct (IH l1' E Hl) as [-> ->]. auto.
Qed.

Lemma NoDup_map_filter {K R} (key : R -> K) (keep : R -> bool) (rows : list R) :
  NoDup (map key rows) -> NoDup (map key (filter keep rows)).
Proof.
  induction rows as [|r rows IH]; simpl; intros H; [constructor|].
  inversion H as [|? ? Hnotin Hnd]; subst.
  destruct (keep r); simpl; auto. constructor; auto.
  intros Hin. apply Hnotin. apply in_map_iff in Hin.
  destruct Hin as [x [E Hx]]. apply filter_In in Hx. rewrite <- E.
  apply in_map. tauto.
Qed.

Lemma filter_filter_commute {A} (p q : A -> bool) (l : list A) :
  filter p (filter q l) = filter q (filter p l).
Proof.
  induction l as [|a l IH]; simpl; [reflexivity|].
  destruct (p a) eqn:Hp, (q a) eqn:Hq; simpl; rewrite ?Hp, ?Hq, IH; reflexivity.
Qed.

(** A row is found once by its primary key. *)
Lemma split_at_id (l : list trip_stop) (s : trip_stop) :
  NoDup (map stop_id l) -> In s l ->
  exists l1 l2,
    l = l1 ++ s :: l2
    /\ filter (fun r => negb (stop_id r =? stop_id s)) l = l1 ++ l2.
Proof.
  intros Hnd Hin. destruct (in_split s l Hin) as [l1 [l2 ->]].
  exists l1, l2. split; [reflexivity|].
  rewrite map_app in Hnd. cbn [map] in Hnd.
  pose proof (NoDup_remove_2 _ _ _ Hnd) as Hnotin.
  rewrite filter_app. cbn [filter]. rewrite Z.eqb_refl. cbn [negb].
  rewrite !filter_all; [reflexivity| |];
    intros r Hr; apply negb_true_iff, Z.eqb_neq; intros E;
    apply Hnotin; rewrite <- E; apply in_or_app; [right | left]; now apply in_map.
Qed.

Lemma zseq_max (n : nat) :
  forall rows tripId,
    map position (filter (fun s => stop_trip_id s =? tripId) rows) = zseq 0 n ->
    max_position tripId rows + 1 = Z.of_nat n.
Proof.
  intros rows tripId H. destruct n as [|n].
  - unfold max_position. rewrite H. reflexivity.
  - rewrite (max_position_greatest tripId rows (Z.of_nat n)); [lia | |];
      rewrite H.
    + apply zseq_In. lia.
    + apply Forall_forall. intros p Hp. apply zseq_In in Hp. lia.
Qed.

(** The renumbering after a delete, on a trip whose stops are stored in
    position order: every row moves to a position that is free when the
    row is visited, and the positions are [0 .. N-2] again. *)
Lemma renumber_in_order (tripId : Z) (rows : list trip_stop) (stop : trip_stop) :
  NoDup (map stop_id rows) ->
  map position (filter (fun s => stop_trip_id s =? tripId) rows)
  = zseq 0 (List.length (filter (fun s => stop_trip_id s =? tripId) rows)) ->
  In stop rows -> stop_trip_id stop = tripId ->
  let rows1 := filter (fun s => negb (stop_id s =? stop_id stop)) rows in
  let cond := fun s => (stop_trip_id s =? tripId) && (position stop <? position s) in
  update_rows cond (fun p => p - 1) [] rows1
  = Some (update_position cond (fun p => p - 1) rows1)
  /\ map position (filter (fun s => stop_trip_id s =? tripId)
                     (update_position cond (fun p => p - 1) rows1))
     = zseq 0 (List.length (filter (fun s => stop_trip_id s =? tripId) rows1)).
Proof.
  intros Hnd Hord Hin Ht rows1 cond.
  set (trip := fun s => stop_trip_id s =? tripId) in *.
  assert (HinT : In stop (filter trip rows)).
  { apply filter_In. split; [assumption | now apply Z.eqb_eq]. }
  destruct (split_at_id (filter trip rows) stop (NoDup_map_filter _ _ _ Hnd) HinT)
    as [A [B [HT HAB]]].
  assert (HT1 : filter trip rows1 = A ++ B).
  { unfold rows1. now rewrite filter_filter_commute. }
  rewrite HT in Hord. rewrite map_app, length_app in Hord. cbn [map List.length] in Hord.
  rewrite zseq_app in Hord.
  apply app_eq_length in Hord; [|now rewrite length_map, zseq_length].
  destruct Hord as [HA HB]. cbn [zseq] in HB. injection HB as Hd HB.
  set (d := position stop) in *.
  assert (HP : map position (filter trip rows1)
               = zseq 0 (List.length A) ++ zseq (d + 1) (List.length B)).
  { rewrite HT1, map_app, HA, HB, Hd. reflexivity. }
  assert (Hsorted : StronglySorted Z.lt (map position (filter trip rows1))).
  { rewrite HP. apply sorted_app; try apply zseq_sorted.
    intros x y Hx Hy. apply zseq_In in Hx. apply zseq_In in Hy. lia. }
  assert (Hnot_d : forall r, In r rows1 -> trip r = true -> position r <> d).
  { intros r Hr Htr E.
    assert (Hp : In (position r) (map position (filter trip rows1))).
    { apply in_map, filter_In. auto. }
    rewrite HP in Hp. apply in_app_or in Hp.
    destruct Hp as [Hp | Hp]; apply zseq_In in Hp; lia. }
  split.
  - rewrite update_rows_accepts; [reflexivity|].
    intros l1 s l2 Hsplit Hc. cbn [app].
    apply andb_true_iff in Hc. destruct Hc as [Hts Hq]. apply Z.ltb_lt in Hq.
    assert (Hparts : Forall (fun x => x < position s) (map position (filter trip l1))
                     /\ Forall (Z.lt (position s)) (map position (filter trip l2))).
    { apply sorted_split. rewrite Hsplit in Hsorted.
      rewrite filter_app in Hsorted. cbn [filter] in Hsorted.
      unfold trip at 2 in Hsorted. rewrite Hts in Hsorted.
      now rewrite map_app in Hsorted. }
    destruct Hparts as [Hbefore Hafter]. rewrite Forall_forall in Hbefore, Hafter.
    rewrite map_app. intros Hk. apply in_app_or in Hk. destruct Hk as [Hk | Hk].
    + unfold update_position in Hk. rewrite map_map in Hk.
      apply in_map_iff in Hk. destruct Hk as [r [Ek Hr]].
      assert (Htr : trip r = true).
      { unfold trip. destruct (cond r); injection Ek as Et _;
          cbn in Et; rewrite Et; exact Hts. }
      assert (Hlt : position r < position s).
      { apply Hbefore. apply in_map, filter_In. auto. }
      assert (Hrd : position r <> d).
      { apply Hnot_d; [|assumption]. rewrite Hsplit. apply in_or_app. now left. }
      unfold cond in Ek. unfold trip in Htr. rewrite Htr in Ek. cbn [andb] in Ek.
      destruct (d <? position r) eqn:Hdr; injection Ek as _ Ep; cbn in Ep.
      * lia.
      * apply Z.ltb_ge in Hdr. lia.
    + apply in_map_iff in Hk. destruct Hk as [r [Ek Hr]].
      injection Ek as Et Ep. cbn in Et, Ep.
      assert (Hgt : position s < position r).
      { apply Hafter. apply in_map, filter_In. split; [assumption|].
        unfold trip. rewrite Et. exact Hts. }
      lia.
  - unfold update_position. rewrite filter_map_commute.
    2:{ intros x. unfold trip. now destruct (cond x). }
    rewrite map_map.
    rewrite (map_ext_in _ (fun r => (if d <? position r then position r - 1
                                     else position r))).
    2:{ intros r Hr. apply filter_In in Hr. destruct Hr as [_ Htr].
        unfold cond. unfold trip in Htr. rewrite Htr. cbn [andb].
        now destruct (d <? position r). }
    rewrite <- (map_map position (fun p => if d <? p then p - 1 else p)).
    rewrite HP, map_app, HT1, length_app, zseq_app, Z.add_0_l, <- Hd. f_equal.
    + rewrite <- (map_id (zseq 0 (List.length A))) at 2.
      apply map_ext_in. intros p Hp. apply zseq_In in Hp.
      destruct (d <? p) eqn:E; [apply Z.ltb_lt in E; lia | reflexivity].
    + etransitivity; [|apply zseq_pred].
      apply map_ext_in. intros p Hp. apply zseq_In in Hp.
      destruct (d <? p) eqn:E; [reflexivity | apply Z.ltb_ge in E; lia].
Qed.

Lemma delete_stop_cases (tripId stopId : Z) (db : Db) :
  match filter (fun s => (stop_id s =? stopId) && (stop_trip_id s =? tripId))
          (trip_stops db) with
  | [] => delete_stop tripId stopId db = (db, NotFound)
  | stop :: _ =>
      match update_rows
              (fun s => (stop_trip_id s =? tripId) && (position stop <? position s))
              (fun p => p - 1) []
              (filter (fun s => negb (stop_id s =? stopId)) (trip_stops db)) with
      | Some rows =>
          delete_stop tripId stopId db
          = (with_trip_stops rows (fst (delete_trip_stop stopId db)), OkTrue)
      | None =>
          delete_stop tripId stopId db
          = (fst (delete_trip_stop stopId db),
             InternalServerError (DbError "unique_position_per_trip"))
      end
  end.
Proof.
  unfold delete_stop, serve, delete_stop_handler, bind, select_stops.
  destruct (filter _ (trip_stops db)) as [|stop found]; [reflexivity|].
  unfold update_trip_stops, delete_trip_stop, ret. cbn [fst with_segments with_trip_stops trip_stops].
  destruct (update_rows _ _ _ _); reflexivity.
Qed.

Lemma delete_stop_in_order (tripId stopId : Z) (db : Db) :
  stored_in_order tripId db ->
  stored_in_order tripId (fst (delete_stop tripId stopId db)).
Proof.
  intros [Hnd [Hseq Hord]].
  pose proof (delete_stop_cases tripId stopId db) as H.
  destruct (filter _ (trip_stops db)) as [|stop found] eqn:Hfound.
  - rewrite H. repeat split; assumption.
  - assert (Hstop : In stop (filter (fun s => (stop_id s =? stopId)
                                               && (stop_trip_id s =? tripId))
                               (trip_stops db))) by (rewrite Hfound; now left).
    apply filter_In in Hstop. destruct Hstop as [Hin Hc].
    apply andb_true_iff in Hc. destruct Hc as [Hid Ht].
    apply Z.eqb_eq in Hid. apply Z.eqb_eq in Ht. subst stopId.
    destruct (renumber_in_order tripId (trip_stops db) stop Hnd Hord Hin Ht)
      as [Hacc Hpos].
    rewrite Hacc in H. rewrite H. cbn [fst].
    unfold stored_in_order, in_order, stops_of.
    cbn [with_trip_stops trip_stops trip_stops_id_seq delete_trip_stop fst
           with_segments].
    rewrite update_position_ids. repeat split.
    + now apply NoDup_map_filter.
    + rewrite Forall_forall in *. intros i Hi. apply Hseq.
      apply in_map_iff in Hi. destruct Hi as [s [E Hs]].
      apply filter_In in Hs. rewrite <- E. apply in_map. tauto.
    + rewrite Hpos. f_equal. unfold update_position.
      rewrite filter_map_commute, length_map; [reflexivity|].
      intros x. now destruct (_ && _).
Qed.

Lemma insert_at_end_in_order (tripId : Z) (body : stop_body) (db : Db) :
  place tripId body db
  = (db, Returns (Z.of_nat (List.length (stops_of tripId db)))) ->
  stored_in_order tripId db ->
  stored_in_order tripId (fst (post_stop tripId body db)).
Proof.
  intros Hplace [Hnd [Hseq Hord]].
  pose proof (post_stop_cases tripId body db) as H.
  rewrite Hplace in H.
  destruct (chosen_source body) as [[[entry wl] wn]|];
    [|rewrite H; repeat split; assumption].
  assert (Hbump : Forall (fun i => i < trip_stops_id_seq db + 1)
                    (map stop_id (trip_stops db))).
  { rewrite Forall_forall in *. intros i Hi. apply Hseq in Hi. lia. }
  destruct (insert_trip_stop_cases tripId
              (Z.of_nat (List.length (stops_of tripId db))) entry wl wn db)
    as [[c E] | E]; rewrite E in H; rewrite H.
  - repeat split; assumption.
  - match goal with |- context [serve (invalidate ?t ?p (Some ?s)) ?d] =>
      destruct (invalidate_created t p s d) as [db' [E' [Hrows [Hs _]]]]
    end.
    unfold serve. rewrite E'. cbn [fst].
    unfold stored_in_order, in_order. unfold stops_of at 1 2. rewrite Hrows, Hs.
    cbn [with_trip_stops trip_stops trip_stops_id_seq advance_stop_seq].
    rewrite map_app. cbn [map new_stop stop_id]. repeat split.
    + eapply Permutation_NoDup; [apply Permutation_cons_append|].
      constructor; [|assumption].
      intros Hin. rewrite Forall_forall in Hseq. apply Hseq in Hin. lia.
    + apply Forall_app. split; [assumption|]. constructor; [lia | constructor].
    + rewrite filter_app. cbn [filter new_stop stop_trip_id].
      rewrite Z.eqb_refl, map_app, length_app. cbn [map List.length position].
      rewrite Nat.add_1_r, zseq_snoc, Z.add_0_l.
      unfold in_order in Hord. fold (stops_of tripId db). rewrite Hord.
      reflexivity.
Qed.

Lemma place_at_end (tripId : Z) (body : stop_body) (db : Db) :
  in_order tripId db -> at_end tripId (Insert body) db ->
  place tripId body db
  = (db, Returns (Z.of_nat (List.length (stops_of tripId db)))).
Proof.
  intros Hord [Hpos | Hpos].
  - rewrite (place_append tripId body db Hpos). f_equal. f_equal.
    apply zseq_max. exact Hord.
  - pose proof (place_cases tripId body db) as H. rewrite Hpos in H.
    rewrite update_rows_untouched in H; [rewrite H; now destruct db|].
    intros s Hs. apply andb_false_iff.
    destruct (stop_trip_id s =? tripId) eqn:Ht; [right | now left].
    apply Z.leb_gt.
    assert (Hp : In (position s) (map position (stops_of tripId db))).
    { apply in_map, filter_In. auto. }
    unfold in_order in Hord. rewrite Hord in Hp. apply zseq_In in Hp. lia.
Qed.

(** ** Contiguous positions (C1) *)

(** C1 as stated does not hold: an explicit position is taken as it comes.
    Position 5 in a trip without stops leaves the one stop at position 5. *)
Lemma explicit_position_leaves_gap :
  stops_of 1 empty_db = []
  /\ ~ contiguous 1 (handle_all 1 [Insert (waypoint (Some 5) 1)] empty_db).
Proof.
  split; [reflexivity|]. unfold contiguous. cbn.
  intros H. apply Permutation_length_1 in H. discriminate.
Qed.

(** Explicit positions within the range are no safer.  The shift runs
    before the body is checked, so a request without a source leaves the
    gap it opened; and a stop inserted before the last one leaves the table
    in an order on which the renumbering of a later delete is rejected. *)
Example rejected_insert_leaves_gap :
  let no_source := {| body_position := Some 0; body_timeline_entry_id := None;
                      body_lat := None; body_lng := None; body_name := None |} in
  snd (post_stop 1 no_source
         (handle_all 1 [Insert (waypoint None 1)] empty_db))
  = BadRequest "Provide timeline_entry_id or lat/lng"
  /\ map position
       (stops_of 1 (handle_all 1 [Insert (waypoint None 1); Insert no_source] empty_db))
     = [1].
Proof. split; reflexivity. Qed.

Example delete_after_insert_leaves_gap :
  map position
    (stops_of 1
       (handle_all 1 [Insert (waypoint None 1); Insert (waypoint None 2);
                      Insert (waypoint (Some 1) 4); Delete 1] empty_db))
  = [2; 1].
Proof. reflexivity. Qed.

(** C1, amended.  Starting from a trip without stops, after any sequence of
    deletes and of inserts at the end of the trip (inserts that give no
    position, or give the number of stops the trip has), the positions of
    the stops of the trip are exactly [0 .. N-1]. *)
Theorem end_inserts_and_deletes_contiguous (tripId : Z) (rs : list request) (db : Db) :
  NoDup (map stop_id (trip_stops db)) ->
  Forall (fun i => i < trip_stops_id_seq db) (map stop_id (trip_stops db)) ->
  stops_of tripId db = [] ->
  at_end_all tripId rs db ->
  contiguous tripId (handle_all tripId rs db).
Proof.
  intros Hnd Hseq Hempty Hrs.
  assert (Hinv : stored_in_order tripId db).
  { repeat split; try assumption. unfold in_order. now rewrite Hempty. }
  clear Hnd Hseq Hempty.
  assert (Hend : stored_in_order tripId (handle_all tripId rs db)).
  { revert db Hinv Hrs. induction rs as [|r rs IH]; intros db Hinv Hrs; [assumption|].
    cbn [handle_all fold_left]. destruct Hrs as [Hr Hrs]. apply IH; [|exact Hrs].
    destruct r as [body | stopId]; cbn [handle].
    - apply insert_at_end_in_order; [|assumption].
      apply place_at_end; [apply Hinv | exact Hr].
    - now apply delete_stop_in_order. }
  destruct Hend as [_ [_ Hord]]. unfold contiguous. unfold in_order in Hord.
  rewrite Hord. apply Permutation_refl.
Qed.

Lemma end_inserts_and_deletes_contiguous_witness :
  contiguous 1
    (handle_all 1 [Insert (waypoint None 1); Insert (waypoint (Some 1) 2);
                   Delete 1; Insert both_sources] empty_db).
Proof.
  apply end_inserts_and_deletes_contiguous.
  - cbn. constructor.
  - cbn. constructor.
  - reflexivity.
  - cbn. auto 8.
Defined.

(** ** The loops of the reorder handler *)

Lemma index_of_none (x : Z) (order : list Z) : forall i,
  ~ In x order -> index_of x i order = None.
Proof.
  induction order as [|y rest IH]; intros i H; simpl; [reflexivity|].
  destruct (x =? y) eqn:E.
  - apply Z.eqb_eq in E. exfalso. apply H. now left.
  - apply IH. intros Hin. apply H. now right.
Qed.

Lemma index_of_some (x : Z) (order : list Z) : forall i,
  In x order -> exists j, index_of x i order = Some j.
Proof.
  induction order as [|y rest IH]; intros i H; simpl; [contradiction|].
  destruct (x =? y) eqn:E; [eauto|].
  apply IH. destruct H as [-> | H]; [|assumption].
  rewrite Z.eqb_refl in E. discriminate.
Qed.

Lemma index_of_nth (x : Z) (order : list Z) : forall i j,
  index_of x i order = Some j ->
  i <= j < i + Z.of_nat (List.length order)
  /\ nth (Z.to_nat (j - i)) order 0 = x.
Proof.
  induction order as [|y rest IH]; intros i j; simpl; [discriminate|].
  destruct (x =? y) eqn:E.
  - intros [= <-]. apply Z.eqb_eq in E. rewrite Z.sub_diag. split; [lia | now subst].
  - intros H. apply IH in H. destruct H as [Hb Hn]. split; [lia|].
    replace (Z.to_nat (j - i)) with (S (Z.to_nat (j - (i + 1)))) by lia.
    exact Hn.
Qed.

Lemma with_trip_stops_twice (r1 r2 : list trip_stop) (db : Db) :
  with_trip_stops r2 (with_trip_stops r1 db) = with_trip_stops r2 db.
Proof. reflexivity. Qed.

(** One statement of the loop is accepted when no stop of the trip sits at
    the position it writes. *)
Lemma assign_accepts (tripId : Z) (f : Z -> Z) (i x : Z) (db : Db) :
  NoDup (map stop_id (trip_stops db)) ->
  (forall s, In s (trip_stops db) -> stop_trip_id s = tripId -> position s <> f i) ->
  assign tripId f i x db
  = (with_trip_stops
       (update_position (fun s => (stop_id s =? x) && (stop_trip_id s =? tripId))
          (fun _ => f i) (trip_stops db)) db,
     Returns tt).
Proof.
  intros Hnd Hfree. unfold assign, update_trip_stops.
  rewrite update_rows_accepts; [reflexivity|].
  intros l1 s l2 Hsplit Hc. cbn [app].
  apply andb_true_iff in Hc. destruct Hc as [Hid Ht].
  apply Z.eqb_eq in Hid. apply Z.eqb_eq in Ht.
  assert (Hother : forall r, In r (l1 ++ l2) -> stop_id r <> x).
  { intros r Hr E. rewrite Hsplit, map_app in Hnd. cbn [map] in Hnd.
    apply NoDup_remove_2 in Hnd. apply Hnd. rewrite <- map_app, Hid, <- E.
    now apply in_map. }
  rewrite update_position_untouched.
  2:{ intros r Hr. apply andb_false_iff. left. apply Z.eqb_neq.
      apply Hother. apply in_or_app. now left. }
  intros Hk. apply in_map_iff in Hk.
  destruct Hk as [r [Ek Hr]]. injection Ek as Et Ep. cbn in Et, Ep.
  apply (Hfree r); [| congruence | assumption].
  rewrite Hsplit. apply in_app_or in Hr. apply in_or_app.
  destruct Hr; [left | right; right]; assumption.
Qed.

(** A loop of such statements goes through, and rewrites the table by
    [reassign], when the positions it writes are distinct from one another
    and from the positions the stops of the trip hold. *)
Lemma for_each_assign (tripId : Z) (f : Z -> Z) (order : list Z) : forall i db,
  (forall a b, f a = f b -> a = b) ->
  NoDup order ->
  NoDup (map stop_id (trip_stops db)) ->
  (forall s k, In s (trip_stops db) -> stop_trip_id s = tripId ->
     i <= k < i + Z.of_nat (List.length order) -> position s <> f k) ->
  for_each i order (assign tripId f) db
  = (with_trip_stops (map (reassign tripId f i order) (trip_stops db)) db,
     Returns tt).
Proof.
  induction order as [|x rest IH]; intros i db Hinj Hord Hnd Hfree.
  - cbn [for_each]. unfold ret. f_equal.
    rewrite (map_ext _ (fun s => s)), map_id; [now destruct db|].
    intros s. unfold reassign. cbn. now destruct (_ =? _).
  - cbn [for_each]. unfold bind.
    rewrite assign_accepts; [|assumption|].
    2:{ intros s Hs Ht. apply (Hfree s i Hs Ht). cbn [List.length]. lia. }
    inversion Hord as [|? ? Hx Hrest]; subst.
    rewrite IH; try assumption.
    + cbn [with_trip_stops trip_stops]. rewrite with_trip_stops_twice.
      f_equal. f_equal. unfold update_position. rewrite map_map.
      apply map_ext. intros s. unfold reassign. cbn [index_of].
      destruct (stop_id s =? x) eqn:Eid, (stop_trip_id s =? tripId) eqn:Et;
        cbn [andb set_position stop_trip_id stop_id]; rewrite ?Et; try reflexivity.
      * apply Z.eqb_eq in Eid. rewrite Eid, index_of_none by assumption.
        reflexivity.
    + cbn [with_trip_stops trip_stops]. now rewrite update_position_ids.
    + cbn [with_trip_stops trip_stops]. intros s' k Hs' Ht' Hk.
      unfold update_position in Hs'. apply in_map_iff in Hs'.
      destruct Hs' as [s [E Hs]].
      destruct (_ && _) in E; subst s'.
      * cbn. intros Ef. apply Hinj in Ef. lia.
      * apply (Hfree s k Hs Ht'). cbn [List.length]. lia.
Qed.

Lemma last_cons {A} (a d : A) (l : list A) : last (a :: l) d = last l a.
Proof.
  revert a d. induction l as [|b l IH]; intros a d; [reflexivity|].
  change (last (a :: b :: l) d) with (last (b :: l) d).
  now rewrite (IH b d), (IH b a).
Qed.

Lemma last_Forall {A} (P : A -> Prop) (l : list A) (d : A) :
  Forall P l -> P d -> P (last l d).
Proof.
  revert d. induction l as [|a l IH]; intros d Hl Hd; [assumption|].
  inversion Hl; subst. rewrite last_cons. auto.
Qed.

Lemma for_each_states_complete (body : Z -> Z -> io unit) (order : list Z) :
  forall i db db',
    for_each i order body db = (db', Returns tt) ->
    List.length (for_each_states i order body db) = List.length order
    /\ last (for_each_states i order body db) db = db'.
Proof.
  induction order as [|x rest IH]; intros i db db'; cbn [for_each for_each_states].
  - unfold ret. intros [= <-]. auto.
  - unfold bind. destruct (body i x db) as [db1 [u|e]]; [|discriminate].
    intros H. apply IH in H. destruct H as [Hl Hlast].
    cbn [List.length]. rewrite last_cons. auto.
Qed.

Lemma for_each_states_invariant (P : Db -> Prop) (body : Z -> Z -> io unit) :
  (forall i x db, P db -> P (fst (body i x db))) ->
  forall order i db, P db -> Forall P (for_each_states i order body db).
Proof.
  intros Hstep. induction order as [|x rest IH]; intros i db HP;
    cbn [for_each_states]; [constructor|].
  pose proof (Hstep i x db HP) as H1.
  destruct (body i x db) as [db1 [u|e]]; [|constructor].
  constructor; [exact H1 | apply IH; exact H1].
Qed.

Lemma assign_unique (tripId : Z) (f : Z -> Z) (i x : Z) (db : Db) :
  NoDup (map position_key (trip_stops db)) ->
  NoDup (map position_key (trip_stops (fst (assign tripId f i x db)))).
Proof.
  intros H. unfold assign, update_trip_stops.
  destruct (update_rows _ _ _ _) as [rows|] eqn:E; cbn; [|assumption].
  eapply update_rows_unique; [|exact E]. exact H.
Qed.

(** ** [ORDER BY position] *)

Lemma insert_by_position_perm (s : trip_stop) (l : list trip_stop) :
  Permutation (insert_by_position s l) (s :: l).
Proof.
  induction l as [|x l IH]; simpl; [apply Permutation_refl|].
  destruct (position s <=? position x); [apply Permutation_refl|].
  eapply perm_trans; [apply perm_skip, IH | apply perm_swap].
Qed.

Lemma order_by_position_perm (l : list trip_stop) :
  Permutation (order_by_position l) l.
Proof.
  induction l as [|s l IH]; simpl; [constructor|].
  eapply perm_trans; [apply insert_by_position_perm | now apply perm_skip].
Qed.

Lemma insert_by_position_sorted (s : trip_stop) (l : list trip_stop) :
  StronglySorted Z.le (map position l) ->
  StronglySorted Z.le (map position (insert_by_position s l)).
Proof.
  induction l as [|x l IH]; simpl; intros H.
  - repeat constructor.
  - inversion H as [|? ? Hs Hall]; subst.
    destruct (position s <=? position x) eqn:E; cbn [map].
    + apply Z.leb_le in E. constructor; [assumption|].
      constructor; [assumption|].
      eapply Forall_impl; [|exact Hall]. cbn. intros; lia.
    + apply Z.leb_gt in E. constructor; [now apply IH|].
      apply Forall_forall. intros p Hp.
      apply (Permutation_in _ (Permutation_map position (insert_by_position_perm s l)))
        in Hp.
      destruct Hp as [<- | Hp]; [lia|].
      rewrite Forall_forall in Hall. now apply Hall.
Qed.

Lemma order_by_position_sorted (l : list trip_stop) :
  StronglySorted Z.le (map position (order_by_position l)).
Proof.
  induction l as [|s l IH]; simpl; [constructor|].
  now apply insert_by_position_sorted.
Qed.

Lemma sorted_distinct (l : list Z) :
  StronglySorted Z.le l -> NoDup l -> StronglySorted Z.lt l.
Proof.
  induction l as [|a l IH]; intros Hs Hnd; [constructor|].
  inversion Hs as [|? ? Hs' Hall]; inversion Hnd as [|? ? Hnotin Hnd']; subst.
  constructor; [auto|].
  rewrite Forall_forall in *. intros x Hx.
  assert (a <> x) by (intros ->; contradiction).
  specialize (Hall x Hx). lia.
Qed.

Lemma sorted_reaches (l : list Z) : forall b,
  StronglySorted Z.lt l -> l <> [] -> (forall x, In x l -> b <= x) ->
  exists y, In y l /\ b + Z.of_nat (List.length l) - 1 <= y.
Proof.
  induction l as [|a l IH]; intros b Hs Hne Hb; [congruence|].
  inversion Hs as [|? ? Hs' Hall]; subst.
  destruct l as [|a' l'].
  - exists a. split; [now left|]. cbn [List.length]. specialize (Hb a (or_introl eq_refl)). lia.
  - destruct (IH (a + 1) Hs') as [y [Hy Hle]]; [discriminate| |].
    + rewrite Forall_forall in Hall. intros x Hx. specialize (Hall x Hx). lia.
    + exists y. split; [now right|].
      specialize (Hb a (or_introl eq_refl)).
      cbn [List.length] in *. lia.
Qed.

(** Increasing, and within [a .. a + length - 1]: the range itself. *)
Lemma sorted_bounded_zseq (l : list Z) : forall a,
  StronglySorted Z.lt l ->
  (forall x, In x l -> a <= x < a + Z.of_nat (List.length l)) ->
  l = zseq a (List.length l).
Proof.
  induction l as [|x l IH]; intros a Hs Hb; [reflexivity|].
  inversion Hs as [|? ? Hs' Hall]; subst.
  rewrite Forall_forall in Hall.
  assert (Hx : x = a).
  { pose proof (Hb x (or_introl eq_refl)) as Hxb.
    destruct l as [|y l']; [cbn [List.length] in Hxb; lia|].
    destruct (sorted_reaches (y :: l') (x + 1) Hs') as [z [Hz Hle]]; [discriminate| |].
    - intros w Hw. specialize (Hall w Hw). lia.
    - pose proof (Hb z (or_intror Hz)) as Hzb. cbn [List.length] in *. lia. }
  subst x. cbn [List.length zseq]. f_equal. apply IH; [assumption|].
  intros w Hw. specialize (Hall w Hw). pose proof (Hb w (or_intror Hw)) as Hwb.
  cbn [List.length] in Hwb. lia.
Qed.

Lemma nth_zseq (order : list Z) : forall a,
  map (fun p => nth (Z.to_nat (p - a)) order 0) (zseq a (List.length order)) = order.
Proof.
  induction order as [|x rest IH]; intros a; [reflexivity|].
  cbn [List.length zseq map]. rewrite Z.sub_diag. cbn [Z.to_nat nth]. f_equal.
  rewrite <- (IH (a + 1)) at 2. apply map_ext_in.
  intros p Hp. apply zseq_In in Hp.
  replace (Z.to_nat (p - a)) with (S (Z.to_nat (p - (a + 1)))) by lia.
  reflexivity.
Qed.

Lemma NoDup_map_through {A B C} (f : A -> B) (g : A -> C) (l : list A) :
  NoDup (map f l) ->
  (forall x y, In x l -> In y l -> g x = g y -> f x = f y) ->
  NoDup (map g l).
Proof.
  induction l as [|a l IH]; simpl; intros Hnd Hinj; [constructor|].
  inversion Hnd as [|? ? Hnotin Hnd']; subst. constructor; [|apply IH; auto].
  intros Hin. apply in_map_iff in Hin. destruct Hin as [y [E Hy]].
  apply Hnotin. rewrite <- (Hinj y a); auto using in_map.
Qed.

(** A list of stops whose positions are their indices in a list of their
    ids comes out of [ORDER BY position] in the order of that list. *)
Lemma order_by_position_ids (l : list trip_stop) (order : list Z) :
  NoDup (map stop_id l) ->
  Permutation order (map stop_id l) ->
  (forall s, In s l -> index_of (stop_id s) 0 order = Some (position s)) ->
  map position (order_by_position l) = zseq 0 (List.length l)
  /\ map stop_id (order_by_position l) = order.
Proof.
  intros Hnd Hperm Hidx.
  pose proof (order_by_position_perm l) as HS.
  set (S := order_by_position l) in *.
  assert (Hlen : List.length order = List.length l).
  { rewrite (Permutation_length Hperm). apply length_map. }
  assert (HidxS : forall s, In s S -> index_of (stop_id s) 0 order = Some (position s)).
  { intros s Hs. apply Hidx. eapply Permutation_in; eauto. }
  assert (Hpos : map position S = zseq 0 (List.length l)).
  { rewrite <- (Permutation_length HS), <- (length_map position).
    apply sorted_bounded_zseq.
    - apply sorted_distinct; [apply order_by_position_sorted|].
      apply (NoDup_map_through stop_id).
      + eapply Permutation_NoDup; [|exact Hnd].
        apply Permutation_map, Permutation_sym, HS.
      + intros x y Hx Hy E.
        destruct (index_of_nth _ _ _ _ (HidxS x Hx)) as [_ <-].
        destruct (index_of_nth _ _ _ _ (HidxS y Hy)) as [_ <-].
        now rewrite E.
    - intros p Hp. apply in_map_iff in Hp. destruct Hp as [s [<- Hs]].
      destruct (index_of_nth _ _ _ _ (HidxS s Hs)) as [Hb _].
      rewrite length_map, (Permutation_length HS), <- Hlen. lia. }
  split; [assumption|].
  etransitivity; [|apply (nth_zseq order 0)]. rewrite Hlen, <- Hpos, map_map.
  apply map_ext_in. intros s Hs.
  destruct (index_of_nth _ _ _ _ (HidxS s Hs)) as [_ Hn]. now rewrite Hn.
Qed.

(** ** Reorder with a permutation (C3) *)

Lemma reassign_id (tripId : Z) (f : Z -> Z) (i : Z) (order : list Z) (s : trip_stop) :
  stop_id (reassign tripId f i order s) = stop_id s.
Proof.
  unfold reassign. destruct (_ =? _); [|reflexivity].
  now destruct (index_of _ _ _).
Qed.

Lemma reassign_trip (tripId : Z) (f : Z -> Z) (i : Z) (order : list Z) (s : trip_stop) :
  stop_trip_id (reassign tripId f i order s) = stop_trip_id s.
Proof.
  unfold reassign. destruct (_ =? _); [|reflexivity].
  now destruct (index_of _ _ _).
Qed.

Lemma reassign_found (tripId : Z) (f : Z -> Z) (i j : Z) (order : list Z) (s : trip_stop) :
  stop_trip_id s = tripId -> index_of (stop_id s) i order = Some j ->
  position (reassign tripId f i order s) = f j.
Proof.
  intros Ht Hj. unfold reassign. rewrite Ht, Z.eqb_refl, Hj. reflexivity.
Qed.

(** C3 as stated does not hold of every trip the handlers can build.  An
    insert takes position -1 as it comes; on the trip with Y at position 1
    and X at position -1 the reorder to Y, X first stages Y at -1, which X
    holds: the update is rejected, the request ends with status 500 and the
    stops stay where they were. *)
Lemma reorder_rejected_below_zero :
  map (fun s => (stop_id s, position s)) (stops_of 1 below_zero) = [(1, 1); (2, -1)]
  /\ Permutation [1; 2] (map stop_id (stops_of 1 below_zero))
  /\ snd (put_reorder 1 (OrderArray [1; 2]) below_zero)
     = InternalServerError (DbError "unique_position_per_trip")
  /\ map (fun s => (stop_id s, position s))
       (stops_of 1 (fst (put_reorder 1 (OrderArray [1; 2]) below_zero)))
     = [(1, 1); (2, -1)].
Proof. repeat split. apply Permutation_refl. Qed.

(** C3, amended.  On a trip whose stops hold no negative position, as when
    the positions are [0 .. N-1], and for a list that is a permutation of
    the ids of its stops, the reorder is accepted; afterwards the ids of
    the stops read in position order are the list and the positions are
    [0 .. N-1].  Each of the 2N updates goes through, every state in
    between has one stop per position, and after the first loop every stop
    of the trip sits at a negative position. *)
Theorem reorder_permutation (tripId : Z) (order : list Z) (db : Db) :
  NoDup (map stop_id (trip_stops db)) ->
  unique_position_per_trip (trip_stops db) = true ->
  (forall s, In s (stops_of tripId db) -> 0 <= position s) ->
  Permutation order (map stop_id (stops_of tripId db)) ->
  snd (put_reorder tripId (OrderArray order) db) = OkTrue
  /\ map stop_id
       (order_by_position
          (stops_of tripId (fst (put_reorder tripId (OrderArray order) db))))
     = order
  /\ contiguous tripId (fst (put_reorder tripId (OrderArray order) db))
  /\ List.length (reorder_states tripId order db)
     = (List.length order + List.length order)%nat
  /\ last (for_each_states 0 order (finalize tripId) (staged tripId order db))
          (staged tripId order db)
     = fst (put_reorder tripId (OrderArray order) db)
  /\ Forall (fun st => unique_position_per_trip (trip_stops st) = true)
       (reorder_states tripId order db)
  /\ Forall (fun s => position s < 0) (stops_of tripId (staged tripId order db)).
Proof.
  intros Hnd Huniq Hnonneg Hperm.
  set (db0 := without_segments tripId db).
  set (neg := fun i : Z => - (i + 1)).
  set (rows1 := map (reassign tripId neg 0 order) (trip_stops db)).
  set (rows2 := map (reassign tripId (fun i => i) 0 order) rows1).
  assert (Horder : NoDup order).
  { eapply Permutation_NoDup; [apply Permutation_sym, Hperm|].
    apply NoDup_map_filter, Hnd. }
  assert (Hin_order : forall s, In s (trip_stops db) -> stop_trip_id s = tripId ->
                                exists j, index_of (stop_id s) 0 order = Some j).
  { intros s Hs Ht. apply index_of_some.
    eapply Permutation_in; [apply Permutation_sym, Hperm|].
    apply in_map, filter_In. split; [assumption | now apply Z.eqb_eq]. }
  assert (Hstage : for_each 0 order (stage tripId) db0
                   = (with_trip_stops rows1 db0, Returns tt)).
  { change (stage tripId) with (assign tripId neg).
    apply for_each_assign; try assumption.
    - unfold neg. intros a b. lia.
    - intros s k Hs Ht Hk.
      assert (0 <= position s).
      { apply Hnonneg. apply filter_In. split; [exact Hs | now apply Z.eqb_eq]. }
      unfold neg. lia. }
  assert (Hneg : forall s', In s' rows1 -> stop_trip_id s' = tripId -> position s' < 0).
  { intros s' Hs' Ht'. apply in_map_iff in Hs'. destruct Hs' as [s [<- Hs]].
    rewrite reassign_trip in Ht'.
    destruct (Hin_order s Hs Ht') as [j Hj].
    rewrite (reassign_found tripId neg 0 j order s Ht' Hj).
    apply index_of_nth in Hj. unfold neg. lia. }
  assert (Hfinal : for_each 0 order (finalize tripId) (with_trip_stops rows1 db0)
                   = (with_trip_stops rows2 db0, Returns tt)).
  { change (finalize tripId) with (assign tripId (fun i => i)).
    rewrite for_each_assign; try assumption.
    - reflexivity.
    - auto.
    - cbn [with_trip_stops trip_stops]. unfold rows1. rewrite map_map.
      rewrite (map_ext _ stop_id); [assumption|].
      intros s. apply reassign_id.
    - cbn [with_trip_stops trip_stops]. intros s k Hs Ht Hk.
      specialize (Hneg s Hs Ht). lia. }
  assert (Hput : put_reorder tripId (OrderArray order) db
                 = (with_trip_stops rows2 db0, OkTrue)).
  { unfold put_reorder, serve, put_reorder_handler, bind.
    change (delete_segments (fun g => segment_trip_id g =? tripId) db)
      with (db0, @Returns unit tt).
    cbv beta iota. rewrite Hstage. cbv beta iota. rewrite Hfinal. reflexivity. }
  destruct (for_each_states_complete _ _ _ _ _ Hstage) as [Hlen1 Hlast1].
  assert (Hstaged : staged tripId order db = with_trip_stops rows1 db0).
  { exact Hlast1. }
  destruct (for_each_states_complete _ _ _ _ _ Hfinal) as [Hlen2 Hlast2].
  set (G := fun s => reassign tripId (fun i => i) 0 order (reassign tripId neg 0 order s)).
  assert (HL : stops_of tripId (with_trip_stops rows2 db0)
               = map G (stops_of tripId db)).
  { unfold stops_of, rows2, rows1. cbn [with_trip_stops trip_stops].
    rewrite map_map. apply filter_map_commute.
    intros s. unfold G. now rewrite !reassign_trip. }
  assert (Hids : map stop_id (map G (stops_of tripId db))
                 = map stop_id (stops_of tripId db)).
  { rewrite map_map. apply map_ext. intros s. unfold G. now rewrite !reassign_id. }
  destruct (order_by_position_ids (map G (stops_of tripId db)) order)
    as [Hpos Hsorted].
  { rewrite Hids. apply NoDup_map_filter, Hnd. }
  { now rewrite Hids. }
  { intros s' Hs'. apply in_map_iff in Hs'. destruct Hs' as [s [<- Hs]].
    apply filter_In in Hs. destruct Hs as [Hs Ht]. apply Z.eqb_eq in Ht.
    destruct (Hin_order s Hs Ht) as [j Hj].
    unfold G. rewrite reassign_id.
    rewrite (reassign_found tripId (fun i => i) 0 j order);
      [now rewrite reassign_id | now rewrite reassign_trip | now rewrite reassign_id]. }
  rewrite Hput. cbn [fst snd]. rewrite HL.
  split; [reflexivity|]. split; [assumption|]. split; [|split; [|split; [|split]]].
  - unfold contiguous. rewrite HL, <- Hpos.
    apply Permutation_map, Permutation_sym, order_by_position_perm.
  - unfold reorder_states. rewrite length_app. fold db0.
    rewrite Hstaged, Hlen1, Hlen2. reflexivity.
  - rewrite Hstaged. exact Hlast2.
  - assert (Hstep : forall f i x st,
               unique_position_per_trip (trip_stops st) = true ->
               unique_position_per_trip
                 (trip_stops (fst (assign tripId f i x st))) = true).
    { intros f i x st H. apply distinct_keys_NoDup, assign_unique.
      now apply distinct_keys_NoDup. }
    unfold reorder_states. apply Forall_app. split.
    + apply for_each_states_invariant; [apply (Hstep neg) | exact Huniq].
    + apply for_each_states_invariant; [apply (Hstep (fun i => i))|].
      unfold staged. fold db0. apply last_Forall; [|exact Huniq].
      apply for_each_states_invariant; [apply (Hstep neg) | exact Huniq].
  - rewrite Hstaged. apply Forall_forall. intros s Hs.
    apply filter_In in Hs. destruct Hs as [Hs Ht]. apply Z.eqb_eq in Ht.
    now apply Hneg.
Qed.

Lemma reorder_permutation_witness :
  map stop_id
    (order_by_position
       (stops_of 1 (fst (put_reorder 1 (OrderArray [3; 1; 2]) three_stops_routed))))
  = [3; 1; 2].
Proof.
  apply (reorder_permutation 1 [3; 1; 2] three_stops_routed).
  - vm_compute. distinct.
  - reflexivity.
  - intros s Hs. vm_compute in Hs. intuition (subst; cbn; lia).
  - exact (Permutation_cons_append [1; 2] 3).
Defined.

(** ** Reorder with any other list (C2) *)

Lemma for_each_preserves {X} (proj : Db -> X) (body : Z -> Z -> io unit) :
  (forall i x db, proj (fst (body i x db)) = proj db) ->
  forall order i db, proj (fst (for_each i order body db)) = proj db.
Proof.
  intros Hstep. induction order as [|x rest IH]; intros i db; [reflexivity|].
  cbn [for_each]. unfold bind. specialize (Hstep i x db).
  destruct (body i x db) as [db1 [u|e]]; cbn [fst] in *.
  - now rewrite IH.
  - assumption.
Qed.

Lemma assign_segments (tripId : Z) (f : Z -> Z) (i x : Z) (db : Db) :
  trip_route_segments (fst (assign tripId f i x db)) = trip_route_segments db.
Proof.
  unfold assign, update_trip_stops. now destruct (update_rows _ _ _ _).
Qed.




(** ** Inserting between two stops (C4) *)

(** C4 fails on the scenario of the claim.  Stops A, B, C (ids 1, 2, 3) sit
    at positions 0, 1, 2, stored in that order, with the segments A to B
    and B to C cached.  The insert at position 1 first shifts B to
    position 2, which C still holds: the statement is rejected by
    [unique_position_per_trip], the request ends with status 500, no stop
    is inserted and the segment A to B stays. *)
Theorem insert_between_rejected :
  map (fun s => (stop_id s, position s)) (trip_stops three_stops_routed)
  = [(1, 0); (2, 1); (3, 2)]
  /\ map (fun g => (from_stop_id g, to_stop_id g))
       (trip_route_segments three_stops_routed)
     = [(1, 2); (2, 3)]
  /\ post_stop 1 (waypoint (Some 1) 4) three_stops_routed
     = (three_stops_routed, InternalServerError (DbError "unique_position_per_trip")).
Proof. repeat split. Qed.

(** The scenario is no exception.  An [UPDATE] is rejected when the first
    row it changes moves to a key held by a row it has not visited yet, so
    on a trip stored in position order every insert at a position with two
    or more stops at or after it is rejected, and changes nothing. *)
Lemma update_rows_rejects cond f (l1 l2 : list trip_stop) (s : trip_stop) :
  forall done,
    (forall r, In r l1 -> cond r = false) -> cond s = true ->
    In (position_key (set_position (f (position s)) s))
       (map position_key (done ++ l1 ++ l2)) ->
    update_rows cond f done (l1 ++ s :: l2) = None.
Proof.
  induction l1 as [|r l1 IH]; intros done Hl1 Hs Hin; cbn [app update_rows].
  - rewrite Hs. apply mem_key_In in Hin. cbn [app] in Hin. now rewrite Hin.
  - rewrite (Hl1 r) by now left. apply IH; auto.
    + intros r' Hr'. apply Hl1. now right.
    + now rewrite <- app_assoc.
Qed.

(** X24.  On a trip stored in position order at the positions [0 .. N-1],
    an insert at an explicit position with two or more stops at or after it
    is refused by [unique_position_per_trip], which the shift violates at
    the first row it moves: the request ends with status 500 and the
    database is as it was. *)
Lemma shift_rejected_in_order (tripId pos : Z) (body : stop_body) (db : Db) :
  in_order tripId db ->
  body_position body = Some pos ->
  0 <= pos -> pos + 2 <= Z.of_nat (List.length (stops_of tripId db)) ->
  post_stop tripId body db
  = (db, InternalServerError (DbError "unique_position_per_trip")).
Proof.
  intros Hord Hbody Hlo Hhi. unfold in_order in Hord.
  assert (Hp : In pos (map position (stops_of tripId db))).
  { rewrite Hord. apply zseq_In. lia. }
  apply in_map_iff in Hp. destruct Hp as [s [Hs Hin]].
  apply filter_In in Hin. destruct Hin as [Hin Ht].
  destruct (in_split s (trip_stops db) Hin) as [l1 [l2 Hsplit]].
  assert (Hsorted : StronglySorted Z.lt
                      (map position (filter (fun r => stop_trip_id r =? tripId) l1)
                       ++ pos :: map position
                                   (filter (fun r => stop_trip_id r =? tripId) l2))).
  { pose proof (zseq_sorted (List.length (stops_of tripId db)) 0) as H.
    rewrite <- Hord in H. unfold stops_of in H. rewrite Hsplit, filter_app in H.
    cbn [filter] in H. rewrite Ht, map_app in H. cbn [map] in H.
    now rewrite Hs in H. }
  destruct (sorted_split _ _ _ Hsorted) as [Hbefore Hafter].
  rewrite Forall_forall in Hbefore, Hafter.
  assert (Hnext : In (pos + 1)
                    (map position (filter (fun r => stop_trip_id r =? tripId) l2))).
  { assert (H : In (pos + 1) (map position (stops_of tripId db))).
    { rewrite Hord. apply zseq_In. lia. }
    unfold stops_of in H. rewrite Hsplit, filter_app in H. cbn [filter] in H.
    rewrite Ht, map_app in H. cbn [map] in H. rewrite Hs in H.
    apply in_app_or in H. destruct H as [H | [H | H]]; [|lia | exact H].
    apply Hbefore in H. lia. }
  apply in_map_iff in Hnext. destruct Hnext as [n [Hn Hnin]].
  apply filter_In in Hnin. destruct Hnin as [Hnin Hnt]. apply Z.eqb_eq in Hnt.
  pose proof (post_stop_cases tripId body db) as H.
  pose proof (place_cases tripId body db) as Hplace. rewrite Hbody in Hplace.
  rewrite Hsplit in Hplace. rewrite update_rows_rejects in Hplace.
  - cbv beta iota in Hplace. rewrite Hplace in H. exact H.
  - intros r Hr. apply andb_false_iff.
    destruct (stop_trip_id r =? tripId) eqn:Hrt; [right | now left].
    apply Z.leb_gt. apply Hbefore. apply in_map, filter_In. auto.
  - rewrite Ht, Hs. cbn [andb]. apply Z.leb_le. lia.
  - cbn [app]. apply in_map_iff. exists n. split.
    + unfold position_key. cbn. apply Z.eqb_eq in Ht. now rewrite Hnt, Hn, Ht, Hs.
    + apply in_or_app. now right.
Qed.

(** With a single stop to shift the insert goes through, and the segment
    between the two neighbours is the one deleted: A, B with A to B cached,
    D inserted at position 1. *)
Example insert_before_last_stop :
  let db := fst (fst (post_routes service_up 1 false
                        (handle_all 1 [Insert (waypoint None 1);
                                       Insert (waypoint None 2)] empty_db))) in
  let db' := fst (post_stop 1 (waypoint (Some 1) 4) db) in
  map (fun g => (from_stop_id g, to_stop_id g)) (trip_route_segments db) = [(1, 2)]
  /\ map id (loadStopsWithCoords 1 db') = [1; 3; 2]
  /\ map position (order_by_position (stops_of 1 db')) = [0; 1; 2]
  /\ trip_route_segments db' = [].
Proof. repeat split. Qed.

(** ** Deleting a stop (C6) *)

(** C6 fails on a trip whose stops are not stored in position order.  After
    A and B are appended and D is inserted at position 1, the table holds
    A, B, D at positions 0, 2, 1.  The delete of A removes the row and then
    renumbers: B, visited first, moves to position 1, which D still holds.
    The statement is rejected, the request ends with status 500, and the
    remaining stops keep positions 2 and 1. *)
Theorem delete_renumber_rejected :
  map (fun s => (stop_id s, position s)) (trip_stops inserted_before_last)
  = [(1, 0); (2, 2); (3, 1)]
  /\ snd (delete_stop 1 1 inserted_before_last)
     = InternalServerError (DbError "unique_position_per_trip")
  /\ map (fun s => (stop_id s, position s))
       (trip_stops (fst (delete_stop 1 1 inserted_before_last)))
     = [(2, 2); (3, 1)].
Proof. repeat split. Qed.

(** What holds of the delete on every database. *)

(** X21.  A delete that names no stop of the trip, an unknown id or the id
    of a stop of another trip, is answered 404 and changes nothing. *)
Lemma delete_stop_not_found (tripId stopId : Z) (db : Db) :
  (forall s, In s (trip_stops db) -> stop_id s = stopId -> stop_trip_id s <> tripId) ->
  delete_stop tripId stopId db = (db, NotFound).
Proof.
  intros H. pose proof (delete_stop_cases tripId stopId db) as Hc.
  rewrite filter_none in Hc; [assumption|].
  intros s Hs. apply andb_false_iff.
  destruct (stop_id s =? stopId) eqn:E; [right | now left].
  apply Z.eqb_eq in E. apply Z.eqb_neq. now apply H.
Qed.

(** X22.  A delete that names a stop of the trip removes the stop and,
    with it, the cached segments that start or end at it, and no other
    segment, whether or not the renumbering that follows is accepted. *)
Lemma delete_stop_cascade (tripId stopId : Z) (db : Db) (s : trip_stop) :
  In s (trip_stops db) -> stop_id s = stopId -> stop_trip_id s = tripId ->
  trip_route_segments (fst (delete_stop tripId stopId db))
  = filter (fun g => negb (touches stopId g)) (trip_route_segments db)
  /\ ~ In stopId (map stop_id (trip_stops (fst (delete_stop tripId stopId db)))).
Proof.
  intros Hs Hid Ht. pose proof (delete_stop_cases tripId stopId db) as Hc.
  destruct (filter _ (trip_stops db)) as [|stop found] eqn:Hf.
  - exfalso. assert (Hin : In s []); [|contradiction].
    rewrite <- Hf. apply filter_In. split; [assumption|].
    apply andb_true_iff. split; now apply Z.eqb_eq.
  - assert (Hgone : ~ In stopId
                      (map stop_id (filter (fun r => negb (stop_id r =? stopId))
                                      (trip_stops db)))).
    { intros Hin. apply in_map_iff in Hin. destruct Hin as [r [E Hr]].
      apply filter_In in Hr. destruct Hr as [_ Hr].
      apply negb_true_iff, Z.eqb_neq in Hr. contradiction. }
    destruct (update_rows _ _ _ _) as [rows|] eqn:E; rewrite Hc; cbn; split; auto.
    apply update_rows_result in E. cbn [app] in E. subst rows.
    now rewrite update_position_ids.
Qed.

(** ** The segment cache under [upsert] *)

Lemma cached_existsb (tripId : Z) (a b : stop_with_coords) (db : Db) :
  cached tripId a b db
  = existsb (segment_key tripId (id a) (id b)) (trip_route_segments db).
Proof.
  unfold cached.
  induction (trip_route_segments db) as [|g l IH]; [reflexivity|].
  cbn [filter existsb]. destruct (segment_key _ _ _ g); [reflexivity | exact IH].
Qed.

(** The rows of another key are not touched. *)
Lemma upsert_other_key (tripId fromId toId t f o : Z) geometry distance duration
  (db : Db) :
  (tripId =? t) && (fromId =? f) && (toId =? o) = false ->
  filter (segment_key t f o)
    (trip_route_segments
       (fst (upsert_segment tripId fromId toId geometry distance duration db)))
  = filter (segment_key t f o) (trip_route_segments db).
Proof.
  intros Hk. unfold upsert_segment. cbn [fst trip_route_segments].
  destruct (existsb _ _).
  - induction (trip_route_segments db) as [|g l IH]; [reflexivity|].
    cbn [map filter].
    destruct (segment_key tripId fromId toId g) eqn:Eg.
    + unfold segment_key in Eg |- *. cbn [segment_trip_id from_stop_id to_stop_id].
      apply andb_true_iff in Eg. destruct Eg as [Eg E3].
      apply andb_true_iff in Eg. destruct Eg as [E1 E2].
      apply Z.eqb_eq in E1, E2, E3. rewrite E1, E2, E3, Hk. exact IH.
    + rewrite IH. reflexivity.
  - rewrite filter_app. cbn [filter]. unfold segment_key at 2.
    cbn [segment_trip_id from_stop_id to_stop_id]. rewrite Hk. apply app_nil_r.
Qed.

(** The key written is in the cache afterwards, and no key leaves it. *)
Lemma upsert_cached (tripId fromId toId t f o : Z) geometry distance duration
  (db : Db) :
  existsb (segment_key t f o)
    (trip_route_segments
       (fst (upsert_segment tripId fromId toId geometry distance duration db)))
  = existsb (segment_key t f o) (trip_route_segments db)
    || ((tripId =? t) && (fromId =? f) && (toId =? o)).
Proof.
  unfold upsert_segment. cbn [fst trip_route_segments].
  destruct (existsb (segment_key tripId fromId toId) _) eqn:Ex.
  - assert (Hsame : forall l,
               existsb (segment_key t f o)
                 (map (fun g =>
                         if segment_key tripId fromId toId g
                         then {| segment_id := segment_id g;
                                 segment_trip_id := segment_trip_id g;
                                 from_stop_id := from_stop_id g;
                                 to_stop_id := to_stop_id g;
                                 route_geometry := geometry;
                                 distance_meters := distance;
                                 duration_seconds := duration;
                                 profile := profile g |}
                         else g) l)
               = existsb (segment_key t f o) l).
    { induction l as [|g l IH]; [reflexivity|]. cbn [map existsb]. rewrite IH.
      f_equal. now destruct (segment_key tripId fromId toId g). }
    rewrite Hsame.
    destruct ((tripId =? t) && (fromId =? f) && (toId =? o)) eqn:Hk;
      [|now rewrite orb_false_r].
    rewrite orb_true_r.
    apply andb_true_iff in Hk. destruct Hk as [Hk E3].
    apply andb_true_iff in Hk. destruct Hk as [E1 E2].
    apply Z.eqb_eq in E1, E2, E3. subst. exact Ex.
  - rewrite existsb_app. cbn [existsb]. unfold segment_key at 2.
    cbn [segment_trip_id from_stop_id to_stop_id]. now rewrite orb_false_r.
Qed.

(** ** The loop of [POST .../routes] *)

Lemma routes_loop_step (svc : directions) (tripId : Z) (force : bool)
  (from to : stop_with_coords) (rest : list stop_with_coords) (db : Db) :
  routes_loop svc tripId force (from :: to :: rest) db
  = if negb force && cached tripId from to db
    then routes_loop svc tripId force (to :: rest) db
    else
      match fetchRouteSegment svc (query_of from to) with
      | Throws e => (db, Throws e, [query_of from to])
      | Returns r =>
          let '(db2, res, calls) :=
            routes_loop svc tripId force (to :: rest)
              (fst (upsert_segment tripId (id from) (id to)
                      (geometry r) (distance r) (duration r) db)) in
          (db2, res, query_of from to :: calls)
      end.
Proof. reflexivity. Qed.

Lemma consecutive_step (from to : stop_with_coords) (rest : list stop_with_coords) :
  consecutive (from :: to :: rest) = (from, to) :: consecutive (to :: rest).
Proof. reflexivity. Qed.

Lemma routes_loop_frame (svc : directions) (tripId : Z) (force : bool)
  (stops : list stop_with_coords) : forall db,
  trip_stops (fst (fst (routes_loop svc tripId force stops db))) = trip_stops db
  /\ trips (fst (fst (routes_loop svc tripId force stops db))) = trips db
  /\ timeline_entries (fst (fst (routes_loop svc tripId force stops db)))
     = timeline_entries db.
Proof.
  induction stops as [|from rest IH]; intros db; [cbn; auto|].
  destruct rest as [|to rest']; [cbn; auto|].
  rewrite routes_loop_step.
  destruct (negb force && cached tripId from to db); [apply IH|].
  destruct (fetchRouteSegment svc (query_of from to)) as [r|e]; [|cbn; auto].
  specialize (IH (fst (upsert_segment tripId (id from) (id to)
                         (geometry r) (distance r) (duration r) db))).
  destruct (routes_loop svc tripId force (to :: rest') _) as [[db2 res] calls].
  cbv beta iota zeta. cbn [fst] in *. exact IH.
Qed.

Lemma routes_loop_keeps_cached (svc : directions) (tripId : Z) (force : bool)
  (stops : list stop_with_coords) (a b : stop_with_coords) : forall db,
  cached tripId a b db = true ->
  cached tripId a b (fst (fst (routes_loop svc tripId force stops db))) = true.
Proof.
  induction stops as [|from rest IH]; intros db H; [exact H|].
  destruct rest as [|to rest']; [exact H|].
  rewrite routes_loop_step.
  destruct (negb force && cached tripId from to db); [now apply IH|].
  destruct (fetchRouteSegment svc (query_of from to)) as [r|e]; [|exact H].
  specialize (IH (fst (upsert_segment tripId (id from) (id to)
                         (geometry r) (distance r) (duration r) db))).
  destruct (routes_loop svc tripId force (to :: rest') _) as [[db2 res] calls].
  cbv beta iota zeta. cbn [fst] in *. apply IH.
  rewrite cached_existsb, upsert_cached, <- cached_existsb, H. reflexivity.
Qed.

(** A loop that completes leaves every consecutive pair cached. *)
Lemma routes_loop_caches (svc : directions) (tripId : Z) (force : bool)
  (stops : list stop_with_coords) : forall db db1 calls,
  routes_loop svc tripId force stops db = (db1, Returns tt, calls) ->
  Forall (fun p => cached tripId (fst p) (snd p) db1 = true) (consecutive stops).
Proof.
  induction stops as [|from rest IH]; intros db db1 calls H; [constructor|].
  destruct rest as [|to rest']; [constructor|].
  rewrite routes_loop_step in *. rewrite consecutive_step in *.
  destruct (negb force && cached tripId from to db) eqn:Hskip.
  - constructor; [|eapply IH; eassumption].
    apply andb_true_iff in Hskip. destruct Hskip as [_ Hc]. cbn [fst snd].
    pose proof (routes_loop_keeps_cached svc tripId force (to :: rest') from to db Hc)
      as Hk.
    rewrite H in Hk. exact Hk.
  - destruct (fetchRouteSegment svc (query_of from to)) as [r|e]; [|discriminate].
    set (db' := fst (upsert_segment tripId (id from) (id to)
                       (geometry r) (distance r) (duration r) db)) in *.
    destruct (routes_loop svc tripId force (to :: rest') db') as [[db2 res] calls2] eqn:E.
    injection H as -> -> _.
    constructor; [|eapply IH; eassumption]. cbn [fst snd].
    assert (Hc : cached tripId from to db' = true).
    { unfold db'. rewrite cached_existsb, upsert_cached, !Z.eqb_refl.
      apply orb_true_r. }
    pose proof (routes_loop_keeps_cached svc tripId force (to :: rest') from to db' Hc)
      as Hk.
    rewrite E in Hk. exact Hk.
Qed.

(** With every pair cached and [force] unset the loop calls nothing and
    writes nothing. *)
Lemma routes_loop_all_cached (svc : directions) (tripId : Z)
  (stops : list stop_with_coords) (db : Db) :
  Forall (fun p => cached tripId (fst p) (snd p) db = true) (consecutive stops) ->
  routes_loop svc tripId false stops db = (db, Returns tt, []).
Proof.
  induction stops as [|from rest IH]; intros H; [reflexivity|].
  destruct rest as [|to rest']; [reflexivity|].
  rewrite routes_loop_step in *. rewrite consecutive_step in *. inversion H as [|? ? Hc Hrest]; subst.
  cbn [fst snd] in Hc. rewrite Hc. cbn [negb andb]. now apply IH.
Qed.

Lemma routes_loop_other_keys (svc : directions) (tripId : Z) (force : bool)
  (stops : list stop_with_coords) (t f o : Z) : forall db,
  Forall (fun p => (tripId =? t) && (id (fst p) =? f) && (id (snd p) =? o) = false)
    (consecutive stops) ->
  filter (segment_key t f o)
    (trip_route_segments (fst (fst (routes_loop svc tripId force stops db))))
  = filter (segment_key t f o) (trip_route_segments db).
Proof.
  induction stops as [|from rest IH]; intros db H; [reflexivity|].
  destruct rest as [|to rest']; [reflexivity|].
  rewrite routes_loop_step. rewrite consecutive_step in H.
  inversion H as [|? ? Hk Hrest]; subst. cbn [fst snd] in Hk.
  destruct (negb force && cached tripId from to db); [now apply IH|].
  destruct (fetchRouteSegment svc (query_of from to)) as [r|e]; [|reflexivity].
  specialize (IH (fst (upsert_segment tripId (id from) (id to)
                         (geometry r) (distance r) (duration r) db)) Hrest).
  destruct (routes_loop svc tripId force (to :: rest') _) as [[db2 res] calls].
  cbn [fst] in *. rewrite IH. now apply upsert_other_key.
Qed.

Lemma second_of_prefix {A} (x a b : A) (rest pre post : list A) :
  x :: rest = pre ++ a :: b :: post -> exists tl, pre ++ [a] = x :: tl.
Proof.
  destruct pre as [|y pre]; cbn; intros [= -> _]; eauto.
Qed.

(** A loop that ends with an exception stopped at the pair it could not
    fetch: it completed on the pairs before it, and made that call last. *)
Lemma routes_loop_fails (svc : directions) (tripId : Z) (force : bool)
  (stops : list stop_with_coords) : forall db db1 e calls,
  routes_loop svc tripId force stops db = (db1, Throws e, calls) ->
  exists pre a b post earlier,
    stops = pre ++ a :: b :: post
    /\ fetchRouteSegment svc (query_of a b) = Throws e
    /\ routes_loop svc tripId force (pre ++ [a]) db = (db1, Returns tt, earlier)
    /\ calls = earlier ++ [query_of a b]
    /\ negb force && cached tripId a b db1 = false.
Proof.
  induction stops as [|from rest IH]; intros db db1 e calls H; [discriminate|].
  destruct rest as [|to rest']; [discriminate|].
  rewrite routes_loop_step in H.
  destruct (negb force && cached tripId from to db) eqn:Hskip.
  - destruct (IH _ _ _ _ H) as [pre [a [b [post [earlier [Hs [Hf [Hl [Hc Hn]]]]]]]]].
    destruct (second_of_prefix _ _ _ _ _ _ Hs) as [tl Htl].
    exists (from :: pre), a, b, post, earlier. repeat split; auto.
    + cbn [app]. now rewrite Hs.
    + cbn [app]. rewrite Htl in Hl |- *. rewrite routes_loop_step, Hskip. exact Hl.
  - destruct (fetchRouteSegment svc (query_of from to)) as [r|e0] eqn:Hfetch.
    + destruct (routes_loop svc tripId force (to :: rest') _)
        as [[db2 res] calls2] eqn:E.
      injection H as -> -> <-.
      destruct (IH _ _ _ _ E) as [pre [a [b [post [earlier [Hs [Hf [Hl [Hc Hn]]]]]]]]].
      destruct (second_of_prefix _ _ _ _ _ _ Hs) as [tl Htl].
      exists (from :: pre), a, b, post, (query_of from to :: earlier).
      repeat split; auto.
      * cbn [app]. now rewrite Hs.
      * cbn [app]. rewrite Htl in Hl |- *.
        rewrite routes_loop_step, Hskip, Hfetch, Hl. reflexivity.
      * cbn [app]. now rewrite Hc.
    + injection H as <- <- <-.
      exists [], from, to, rest', []. repeat split; auto.
Qed.

Lemma routes_loop_skip_prefix (svc : directions) (tripId : Z)
  (pre : list stop_with_coords) (a : stop_with_coords)
  (rest : list stop_with_coords) (db : Db) :
  Forall (fun p => cached tripId (fst p) (snd p) db = true) (consecutive (pre ++ [a])) ->
  routes_loop svc tripId false (pre ++ a :: rest) db
  = routes_loop svc tripId false (a :: rest) db.
Proof.
  induction pre as [|p pre IH]; intros H; [reflexivity|].
  destruct pre as [|x pre'].
  - cbn [app] in *. rewrite consecutive_step in H. inversion H as [|? ? Hc _]; subst.
    rewrite routes_loop_step. cbn [fst snd] in Hc. now rewrite Hc.
  - cbn [app] in *. rewrite consecutive_step in H. inversion H as [|? ? Hc Hrest]; subst.
    rewrite routes_loop_step. cbn [fst snd] in Hc. rewrite Hc. cbn [negb andb].
    now apply IH.
Qed.

Lemma consecutive_first_prefix (l : list stop_with_coords) (x : stop_with_coords)
  (p : stop_with_coords * stop_with_coords) :
  In p (consecutive (l ++ [x])) -> In (fst p) l.
Proof.
  induction l as [|a l IH]; [contradiction|].
  destruct l as [|b l'].
  - cbn. intros [<- | []]. now left.
  - cbn [app] in *. rewrite consecutive_step. intros [<- | H]; [now left|].
    right. now apply IH.
Qed.

Lemma consecutive_first (l : list stop_with_coords)
  (p : stop_with_coords * stop_with_coords) :
  In p (consecutive l) -> In (fst p) l.
Proof.
  induction l as [|a l IH]; [contradiction|].
  destruct l as [|b l']; [contradiction|].
  rewrite consecutive_step. intros [<- | H]; [now left|].
  right. now apply IH.
Qed.

Lemma NoDup_app_disjoint {A} (l1 l2 : list A) (x : A) :
  NoDup (l1 ++ l2) -> In x l1 -> In x l2 -> False.
Proof.
  induction l1 as [|a l1 IH]; cbn; intros Hnd H1 H2; [contradiction|].
  inversion Hnd as [|? ? Hnotin Hnd']; subst.
  destruct H1 as [-> | H1]; [|eauto].
  apply Hnotin. apply in_or_app. now right.
Qed.

Lemma loadStopsWithCoords_ids (tripId : Z) (db : Db) :
  NoDup (map stop_id (trip_stops db)) ->
  NoDup (map id (loadStopsWithCoords tripId db)).
Proof.
  intros H. unfold loadStopsWithCoords. rewrite map_map.
  change (fun s => id (with_coords (timeline_entries db) s)) with stop_id.
  eapply Permutation_NoDup.
  - apply Permutation_map, Permutation_sym, order_by_position_perm.
  - apply NoDup_map_filter, H.
Qed.

Lemma loadStopsWithCoords_frame (tripId : Z) (db db' : Db) :
  trip_stops db' = trip_stops db -> timeline_entries db' = timeline_entries db ->
  loadStopsWithCoords tripId db' = loadStopsWithCoords tripId db.
Proof.
  intros H1 H2. unfold loadStopsWithCoords, stops_of. now rewrite H1, H2.
Qed.

Lemma post_routes_cases (svc : directions) (tripId : Z) (force : bool) (db : Db) :
  if Z.of_nat (List.length (loadStopsWithCoords tripId db)) <? 2
  then post_routes svc tripId force db
       = (db, BadRequest "Need at least 2 stops to generate routes", [])
  else
    match routes_loop svc tripId force (loadStopsWithCoords tripId db)
            (routes_start tripId force db) with
    | (db1, Returns _, calls) =>
        post_routes svc tripId force db
        = (db1, OkTrip (buildTripResponse tripId db1), calls)
    | (db1, Throws e, calls) =>
        post_routes svc tripId force db = (db1, InternalServerError e, calls)
    end.
Proof.
  unfold post_routes, routes_start.
  destruct (_ <? 2); [reflexivity|].
  destruct (routes_loop _ _ _ _ _) as [[db1 [u|e]] calls]; reflexivity.
Qed.

Lemma routes_start_frame (tripId : Z) (force : bool) (db : Db) :
  trip_stops (routes_start tripId force db) = trip_stops db
  /\ timeline_entries (routes_start tripId force db) = timeline_entries db.
Proof. unfold routes_start. destruct force; cbn; auto. Qed.

Lemma forced_start_empty (tripId : Z) (db : Db) (f o : Z) :
  filter (segment_key tripId f o) (trip_route_segments (routes_start tripId true db))
  = [].
Proof.
  unfold routes_start. cbn [delete_segments fst with_segments trip_route_segments].
  apply filter_none. intros g Hg. apply filter_In in Hg. destruct Hg as [_ Hg].
  apply negb_true_iff in Hg. unfold segment_key. now rewrite Hg.
Qed.

(** ** Route generation that fails (C7) *)

(** C7 as stated does not hold: the error that reaches the caller does not
    say which pair failed.  On the trip A, B, C the answer is the same when
    the service has no route from A and when it has none from B, while the
    last call made differs. *)
Lemma route_error_does_not_name_pair :
  let A_to_B := {| fromLng := 1; fromLat := 1; toLng := 2 # 1; toLat := 2 # 1 |}%Q in
  let B_to_C := {| fromLng := 2 # 1; fromLat := 2 # 1; toLng := 3 # 1; toLat := 3 # 1 |}%Q in
  post_routes (service_down_from 1) 1 false three_stops
  = (three_stops,
     InternalServerError (JsError "Mapbox Directions failed: NoRoute"),
     [A_to_B])
  /\ snd (fst (post_routes (service_down_from 2) 1 false three_stops))
     = InternalServerError (JsError "Mapbox Directions failed: NoRoute")
  /\ snd (post_routes (service_down_from 2) 1 false three_stops) = [A_to_B; B_to_C].
Proof. repeat split. Qed.

(** C7, amended.  A run that ends with the error of the service stopped at
    the first pair the service failed on, and the error is the one the
    service call raised (it carries the status code of the service, not the
    pair).  The database is the one the loop had built on the pairs before:
    all of them are cached, the call of the failing pair is the last call
    made, and the rows of the failing pair and of the later pairs are as
    they were when the loop started.  The failing pair is not cached, so a
    later run with [force] unset skips the earlier pairs and makes its
    first call for the failing pair. *)
Theorem routes_fail_fast (svc : directions) (tripId : Z) (force : bool)
  (db db1 : Db) (e : exn) (calls : list query) :
  NoDup (map stop_id (trip_stops db)) ->
  post_routes svc tripId force db = (db1, InternalServerError e, calls) ->
  exists pre a b post earlier,
    loadStopsWithCoords tripId db = pre ++ a :: b :: post
    /\ fetchRouteSegment svc (query_of a b) = Throws e
    /\ calls = earlier ++ [query_of a b]
    /\ routes_loop svc tripId force (pre ++ [a]) (routes_start tripId force db)
       = (db1, Returns tt, earlier)
    /\ Forall (fun p => cached tripId (fst p) (snd p) db1 = true)
         (consecutive (pre ++ [a]))
    /\ Forall (fun p => segments_of tripId p db1
                        = segments_of tripId p (routes_start tripId force db))
         (consecutive (a :: b :: post))
    /\ cached tripId a b db1 = false
    /\ forall svc', exists rest,
         snd (post_routes svc' tripId false db1) = query_of a b :: rest.
Proof.
  intros Hnd H.
  pose proof (post_routes_cases svc tripId force db) as Hc.
  destruct (_ <? 2) eqn:Hlen; [rewrite Hc in H; discriminate|].
  destruct (routes_loop _ _ _ _ _) as [[db1' [u|e']] calls'] eqn:Hloop;
    rewrite Hc in H; [discriminate|].
  injection H as -> -> ->.
  destruct (routes_loop_fails _ _ _ _ _ _ _ _ Hloop)
    as [pre [a [b [post [earlier [Hs [Hf [Hl [Hcalls Hn]]]]]]]]].
  pose proof (loadStopsWithCoords_ids tripId db Hnd) as Hids.
  rewrite Hs, map_app in Hids.
  assert (Hlater : Forall (fun p => segments_of tripId p db1
                                    = segments_of tripId p (routes_start tripId force db))
                     (consecutive (a :: b :: post))).
  { apply Forall_forall. intros p Hp. unfold segments_of.
    pose proof (routes_loop_other_keys svc tripId force (pre ++ [a])
                  tripId (id (fst p)) (id (snd p)) (routes_start tripId force db))
      as Hk.
    rewrite Hl in Hk. cbn [fst] in Hk. apply Hk.
    apply Forall_forall. intros p' Hp'.
    apply andb_false_iff. left. apply andb_false_iff. right. apply Z.eqb_neq.
    intros E. apply consecutive_first_prefix in Hp'. apply consecutive_first in Hp.
    apply (NoDup_app_disjoint _ _ (id (fst p')) Hids); [now apply in_map|].
    rewrite E. now apply in_map. }
  assert (Hab : cached tripId a b db1 = false).
  { destruct force; [|exact Hn].
    rewrite consecutive_step in Hlater. inversion Hlater as [|? ? Hp _]; subst.
    unfold segments_of in Hp. cbn [fst snd] in Hp.
    unfold cached. rewrite Hp, forced_start_empty. reflexivity. }
  exists pre, a, b, post, earlier. repeat split; try assumption.
  - eapply routes_loop_caches; eassumption.
  - intros svc'.
    pose proof (post_routes_cases svc' tripId false db1) as Hc'.
    pose proof (routes_loop_frame svc tripId force (pre ++ [a])
                  (routes_start tripId force db)) as [Hrows [_ Hentries]].
    rewrite Hl in Hrows, Hentries. cbn [fst] in Hrows, Hentries.
    destruct (routes_start_frame tripId force db) as [Hr0 He0].
    rewrite Hr0 in Hrows. rewrite He0 in Hentries.
    rewrite (loadStopsWithCoords_frame tripId db db1 Hrows Hentries) in Hc'.
    rewrite Hlen in Hc'. unfold routes_start in Hc'. rewrite Hs in Hc'.
    rewrite routes_loop_skip_prefix in Hc'
      by (eapply routes_loop_caches; eassumption).
    rewrite routes_loop_step, Hab in Hc'. cbn [negb andb] in Hc'.
    destruct (fetchRouteSegment svc' (query_of a b)) as [r|e2].
    + destruct (routes_loop svc' tripId false (b :: post) _)
        as [[db2 [u|e2]] calls2]; cbv beta iota zeta in Hc'; rewrite Hc';
        cbn [snd]; eauto.
    + rewrite Hc'. cbn [snd]. eauto.
Qed.

Lemma routes_fail_fast_witness :
  exists a b,
    cached 1 a b (fst (fst (post_routes (service_down_from 2) 1 false three_stops)))
    = false
    /\ forall svc', exists rest,
         snd (post_routes svc' 1 false
                (fst (fst (post_routes (service_down_from 2) 1 false three_stops))))
         = query_of a b :: rest.
Proof.
  destruct (routes_fail_fast (service_down_from 2) 1 false three_stops
              (fst (fst (post_routes (service_down_from 2) 1 false three_stops)))
              (JsError "Mapbox Directions failed: NoRoute")
              (snd (post_routes (service_down_from 2) 1 false three_stops)))
    as [pre [a [b [post [earlier [_ [_ [_ [_ [_ [_ [Hab Hretry]]]]]]]]]]]].
  - vm_compute. distinct.
  - reflexivity.
  - exists a, b. split; assumption.
Defined.

(** ** Route generation from the cache (C8) *)

(** C8.  After a run that completed, a run with [force] unset on the
    database it left calls the service for no pair and changes nothing,
    whatever the service would answer. *)
Theorem routes_second_run_cached (svc svc' : directions) (tripId : Z) (force : bool)
  (db db1 : Db) (body : option trip_response) (calls : list query) :
  post_routes svc tripId force db = (db1, OkTrip body, calls) ->
  post_routes svc' tripId false db1 = (db1, OkTrip body, []).
Proof.
  intros H.
  pose proof (post_routes_cases svc tripId force db) as Hc.
  destruct (_ <? 2) eqn:Hlen; [rewrite Hc in H; discriminate|].
  destruct (routes_loop _ _ _ _ _) as [[db1' [u|e']] calls'] eqn:Hloop;
    rewrite Hc in H; [|discriminate].
  injection H as -> <- ->. destruct u.
  pose proof (post_routes_cases svc' tripId false db1) as Hc'.
  pose proof (routes_loop_frame svc tripId force (loadStopsWithCoords tripId db)
                (routes_start tripId force db)) as [Hrows [_ Hentries]].
  rewrite Hloop in Hrows, Hentries. cbn [fst] in Hrows, Hentries.
  destruct (routes_start_frame tripId force db) as [Hr0 He0].
  rewrite Hr0 in Hrows. rewrite He0 in Hentries.
  rewrite (loadStopsWithCoords_frame tripId db db1 Hrows Hentries) in Hc'.
  rewrite Hlen in Hc'. unfold routes_start in Hc'.
  rewrite routes_loop_all_cached in Hc'
    by (eapply routes_loop_caches; eassumption).
  exact Hc'.
Qed.

Lemma routes_second_run_cached_witness :
  snd (post_routes (service_down_from 1) 1 false three_stops_routed) = [].
Proof.
  rewrite (routes_second_run_cached service_up (service_down_from 1) 1 false
             three_stops three_stops_routed
             (buildTripResponse 1 three_stops_routed)
             (snd (post_routes service_up 1 false three_stops)));
    reflexivity.
Defined.

(** ** Forced route generation (C9) *)






(** A call that fails ends a forced run as it ends any run (C7).  On the
    trip A, B, C with a service that has no route from A, the forced run
    makes the call for A to B and none for B to C. *)
Lemma forced_run_stops_at_failure :
  List.length (loadStopsWithCoords 1 three_stops_routed) = 3%nat
  /\ snd (post_routes (service_down_from 1) 1 true three_stops_routed)
     = [{| fromLng := 1; fromLat := 1; toLng := 2 # 1; toLat := 2 # 1 |}%Q].
Proof. split; reflexivity. Qed.



(** X23.  On a trip stored in position order the delete of one of its
    stops is answered 200: the stop is removed, the later positions move
    down by one, the positions are contiguous again, and the segments on the
    stop, and no others, are deleted. *)
Lemma delete_stop_stored_in_order (tripId stopId : Z) (db : Db) (s : trip_stop) :
  stored_in_order tripId db ->
  In s (trip_stops db) -> stop_id s = stopId -> stop_trip_id s = tripId ->
  snd (delete_stop tripId stopId db) = OkTrue
  /\ trip_stops (fst (delete_stop tripId stopId db))
     = update_position
         (fun r => (stop_trip_id r =? tripId) && (position s <? position r))
         (fun p => p - 1)
         (filter (fun r => negb (stop_id r =? stopId)) (trip_stops db))
  /\ trip_route_segments (fst (delete_stop tripId stopId db))
     = filter (fun g => negb (touches stopId g)) (trip_route_segments db)
  /\ contiguous tripId (fst (delete_stop tripId stopId db)).
Proof.
  intros Hinv Hs Hid Ht.
  pose proof (delete_stop_in_order tripId stopId db Hinv) as [_ [_ Hord]].
  destruct Hinv as [Hnd [Hseq Hord0]].
  pose proof (delete_stop_cases tripId stopId db) as H.
  destruct (filter _ (trip_stops db)) as [|stop found] eqn:Hfound.
  - exfalso. assert (Hin : In s []); [|contradiction].
    rewrite <- Hfound. apply filter_In. split; [assumption|].
    apply andb_true_iff. split; now apply Z.eqb_eq.
  - assert (Hstop : stop = s).
    { assert (Hin : In stop (stop :: found)) by now left.
      rewrite <- Hfound in Hin. apply filter_In in Hin. destruct Hin as [Hin Hc].
      apply andb_true_iff in Hc. destruct Hc as [Hc _]. apply Z.eqb_eq in Hc.
      apply (NoDup_map_In_eq stop_id (trip_stops db)); congruence. }
    subst stop stopId.
    destruct (renumber_in_order tripId (trip_stops db) s Hnd Hord0 Hs Ht) as [Hacc _].
    rewrite Hacc in H. rewrite H in Hord |- *. cbn [fst snd].
    repeat split. unfold contiguous. unfold in_order in Hord. cbn [fst] in Hord.
    rewrite Hord. apply Permutation_refl.
Qed.

(** ** Integrity of the tables along a session *)

Lemma segments_integrity_mono (db db' : Db) :
  segments_integrity db ->
  incl (trip_route_segments db') (trip_route_segments db) ->
  incl (map stop_id (trip_stops db)) (map stop_id (trip_stops db')) ->
  segments_integrity db'.
Proof.
  unfold segments_integrity. rewrite !Forall_forall.
  intros H Hsegs Hids g Hg. destruct (H g (Hsegs g Hg)). split; apply Hids; assumption.
Qed.

Lemma place_integrity (tripId : Z) (body : stop_body) (db : Db) :
  stops_integrity db -> stops_integrity (fst (place tripId body db)).
Proof.
  intros [Hpk Hseq Huniq].
  pose proof (place_cases tripId body db) as H.
  destruct (body_position body) as [pos|]; [|rewrite H; now constructor].
  destruct (update_rows _ _ _ _) as [rows|] eqn:E; rewrite H; [|now constructor].
  pose proof (update_rows_unique _ _ (trip_stops db) [] rows Huniq E) as Hrows.
  apply update_rows_result in E. cbn [app] in E. subst rows.
  constructor; cbn [fst with_trip_stops trip_stops trip_stops_id_seq];
    rewrite ?update_position_ids; assumption.
Qed.

Lemma insert_trip_stop_integrity (tripId pos : Z) entry wl wn (db : Db) :
  stops_integrity db ->
  stops_integrity (fst (insert_trip_stop tripId pos entry wl wn db))
  /\ incl (map stop_id (trip_stops db))
       (map stop_id (trip_stops (fst (insert_trip_stop tripId pos entry wl wn db))))
  /\ trip_route_segments (fst (insert_trip_stop tripId pos entry wl wn db))
     = trip_route_segments db.
Proof.
  intros [Hpk Hseq Huniq].
  assert (Hbump : Forall (fun i => i < trip_stops_id_seq db + 1)
                    (map stop_id (trip_stops db))).
  { rewrite Forall_forall in *. intros i Hi. apply Hseq in Hi. lia. }
  assert (Hfail : stops_integrity (advance_stop_seq db)) by now constructor.
  unfold insert_trip_stop.
  destruct (negb (stop_has_source _)); [cbn [fst]; auto using incl_refl|].
  destruct (mem_key _ _) eqn:Hkey; [cbn [fst]; auto using incl_refl|].
  apply mem_key_false in Hkey.
  assert (Hok : stops_integrity
                  (with_trip_stops
                     (trip_stops db ++ [new_stop db tripId pos entry wl wn])
                     (advance_stop_seq db))).
  { constructor; cbn [with_trip_stops trip_stops trip_stops_id_seq advance_stop_seq];
      rewrite map_app; cbn [map new_stop stop_id].
    - eapply Permutation_NoDup; [apply Permutation_cons_append|].
      constructor; [|assumption].
      intros Hin. rewrite Forall_forall in Hseq. apply Hseq in Hin. lia.
    - apply Forall_app. split; [assumption|]. constructor; [lia | constructor].
    - eapply Permutation_NoDup; [apply Permutation_cons_append|].
      constructor; assumption. }
  destruct (negb (mem_id _ _)); [cbn [fst]; auto using incl_refl|].
  destruct entry as [e|];
    [destruct (negb (mem_id e _)); [cbn [fst]; auto using incl_refl|]|];
    cbn [fst]; (split; [exact Hok|]);
    (split; [|reflexivity]);
    cbn [with_trip_stops trip_stops]; rewrite map_app; apply incl_appl, incl_refl.
Qed.

Lemma post_stop_integrity (tripId : Z) (body : stop_body) (db : Db) :
  integrity db -> integrity (fst (post_stop tripId body db)).
Proof.
  intros [Hstops Hsegs].
  pose proof (post_stop_cases tripId body db) as H.
  pose proof (place_integrity tripId body db Hstops) as Hplace.
  pose proof (place_frame tripId body db) as [Hids [Hsame _]].
  destruct (place tripId body db) as [db1 [pos|e]]; cbn [fst] in *.
  2:{ rewrite H. split; [assumption|].
      apply (segments_integrity_mono db); [assumption | |]; cbn [fst].
      - rewrite Hsame. apply incl_refl.
      - rewrite Hids. apply incl_refl. }
  assert (Hsegs1 : segments_integrity db1).
  { apply (segments_integrity_mono db); [assumption | |].
    - rewrite Hsame. apply incl_refl.
    - rewrite Hids. apply incl_refl. }
  destruct (chosen_source body) as [[[entry wl] wn]|]; [|rewrite H; now split].
  destruct (insert_trip_stop_integrity tripId pos entry wl wn db1 Hplace)
    as [Hins [Hincl Hsegs2]].
  assert (Hsegs3 : segments_integrity (fst (insert_trip_stop tripId pos entry wl wn db1))).
  { apply (segments_integrity_mono db1); [assumption | | assumption].
    rewrite Hsegs2. apply incl_refl. }
  destruct (insert_trip_stop tripId pos entry wl wn db1) as [db2 [stop|e]];
    cbn [fst] in *; rewrite H; [|now split].
  destruct (invalidate_created tripId pos stop db2) as [db3 [E [Hrows [Hs Hsub]]]].
  unfold serve. rewrite E. cbn [fst]. split.
  - destruct Hins as [Hpk Hseq Huniq]. constructor; rewrite Hrows, ?Hs; assumption.
  - apply (segments_integrity_mono db2); [assumption | assumption |].
    rewrite Hrows. apply incl_refl.
Qed.

Lemma delete_stop_integrity (tripId stopId : Z) (db : Db) :
  integrity db -> integrity (fst (delete_stop tripId stopId db)).
Proof.
  intros [[Hpk Hseq Huniq] Hsegs].
  pose proof (delete_stop_cases tripId stopId db) as H.
  destruct (filter _ (trip_stops db)) as [|stop found]; [rewrite H; now repeat split|].
  set (rows1 := filter (fun s => negb (stop_id s =? stopId)) (trip_stops db)) in *.
  assert (Hpk1 : NoDup (map stop_id rows1)) by now apply NoDup_map_filter.
  assert (Huniq1 : NoDup (map position_key rows1)) by now apply NoDup_map_filter.
  assert (Hseq1 : Forall (fun i => i < trip_stops_id_seq db) (map stop_id rows1)).
  { rewrite Forall_forall in *. intros i Hi. apply Hseq.
    apply in_map_iff in Hi. destruct Hi as [s [E Hs]].
    apply filter_In in Hs. rewrite <- E. apply in_map. tauto. }
  assert (Hsegs1 : Forall (fun g => In (from_stop_id g) (map stop_id rows1)
                                    /\ In (to_stop_id g) (map stop_id rows1))
                     (filter (fun g => negb (touches stopId g))
                        (trip_route_segments db))).
  { unfold segments_integrity in Hsegs. rewrite Forall_forall in *.
    intros g Hg. apply filter_In in Hg. destruct Hg as [Hg Hn].
    apply negb_true_iff, orb_false_iff in Hn. destruct Hn as [Hf Ht].
    apply Z.eqb_neq in Hf. apply Z.eqb_neq in Ht.
    destruct (Hsegs g Hg) as [H1 H2].
    assert (Hkeep : forall i, i <> stopId -> In i (map stop_id (trip_stops db)) ->
                              In i (map stop_id rows1)).
    { intros i Hi Hin. apply in_map_iff in Hin. destruct Hin as [s [E Hs]].
      apply in_map_iff. exists s. split; [assumption|].
      apply filter_In. split; [assumption|].
      apply negb_true_iff, Z.eqb_neq. congruence. }
    split; apply Hkeep; assumption. }
  destruct (update_rows _ _ _ _) as [rows|] eqn:E; rewrite H; cbn [fst].
  - pose proof (update_rows_unique _ _ rows1 [] rows Huniq1 E) as Hrows.
    apply update_rows_result in E. cbn [app] in E. subst rows.
    split; [constructor|]; unfold segments_integrity;
      cbn [with_trip_stops trip_stops trip_stops_id_seq trip_route_segments
             delete_trip_stop fst with_segments];
      rewrite ?update_position_ids; assumption.
  - split; [constructor|]; unfold segments_integrity;
      cbn [with_trip_stops trip_stops trip_stops_id_seq trip_route_segments
             delete_trip_stop fst with_segments];
      assumption.
Qed.

Lemma for_each_invariant (P : Db -> Prop) (body : Z -> Z -> io unit) :
  (forall i x db, P db -> P (fst (body i x db))) ->
  forall order i db, P db -> P (fst (for_each i order body db)).
Proof.
  intros Hstep. induction order as [|x rest IH]; intros i db HP; [exact HP|].
  cbn [for_each]. unfold bind. specialize (Hstep i x db HP).
  destruct (body i x db) as [db1 [u|e]]; cbn [fst] in *; auto.
Qed.

Lemma assign_integrity (tripId : Z) (f : Z -> Z) (i x : Z) (db : Db) :
  integrity db -> integrity (fst (assign tripId f i x db)).
Proof.
  intros [[Hpk Hseq Huniq] Hsegs].
  pose proof (assign_unique tripId f i x db Huniq) as Hu.
  unfold assign, update_trip_stops in *.
  destruct (update_rows _ _ _ _) as [rows|] eqn:E; cbn [fst] in *;
    [|now repeat split].
  apply update_rows_result in E. cbn [app] in E. subst rows.
  split; [constructor|]; unfold segments_integrity;
    cbn [with_trip_stops trip_stops trip_stops_id_seq trip_route_segments] in *;
    rewrite ?update_position_ids; assumption.
Qed.

Lemma put_reorder_integrity (tripId : Z) (body : order_field) (db : Db) :
  integrity db -> integrity (fst (put_reorder tripId body db)).
Proof.
  intros Hint. destruct body as [|order]; [exact Hint|].
  assert (H0 : integrity (without_segments tripId db)).
  { destruct Hint as [[Hpk Hseq Huniq] Hsegs]. split; [now constructor|].
    apply (segments_integrity_mono db); [assumption | | apply incl_refl].
    intros g Hg. cbn in Hg. apply filter_In in Hg. tauto. }
  unfold put_reorder, serve, put_reorder_handler, bind.
  change (delete_segments (fun g => segment_trip_id g =? tripId) db)
    with (without_segments tripId db, @Returns unit tt).
  cbv beta iota.
  pose proof (for_each_invariant integrity (stage tripId)
                (assign_integrity tripId (fun i => - (i + 1))) order 0 _ H0) as H1.
  destruct (for_each 0 order (stage tripId) (without_segments tripId db))
    as [db1 [u|e]]; cbn [fst] in *; [|assumption].
  pose proof (for_each_invariant integrity (finalize tripId)
                (assign_integrity tripId (fun i => i)) order 0 _ H1) as H2.
  destruct (for_each 0 order (finalize tripId) db1) as [db2 [u'|e]];
    cbn [fst] in *; assumption.
Qed.

Lemma upsert_integrity (tripId fromId toId : Z) geometry distance duration (db : Db) :
  In fromId (map stop_id (trip_stops db)) ->
  In toId (map stop_id (trip_stops db)) ->
  integrity db ->
  integrity (fst (upsert_segment tripId fromId toId geometry distance duration db)).
Proof.
  intros Hfrom Hto [[Hpk Hseq Huniq] Hsegs]. split; [now constructor|].
  unfold segments_integrity in *. unfold upsert_segment.
  cbn [fst trip_route_segments trip_stops].
  destruct (existsb _ _).
  - rewrite Forall_forall in *. intros g Hg. apply in_map_iff in Hg.
    destruct Hg as [g0 [E Hg0]]. specialize (Hsegs g0 Hg0).
    destruct (segment_key tripId fromId toId g0); subst g; exact Hsegs.
  - apply Forall_app. split; [assumption|]. repeat constructor; assumption.
Qed.

Lemma routes_loop_integrity (svc : directions) (tripId : Z) (force : bool)
  (stops : list stop_with_coords) : forall db,
  (forall s, In s stops -> In (id s) (map stop_id (trip_stops db))) ->
  integrity db ->
  integrity (fst (fst (routes_loop svc tripId force stops db))).
Proof.
  induction stops as [|from rest IH]; intros db Hin Hint; [exact Hint|].
  destruct rest as [|to rest']; [exact Hint|].
  rewrite routes_loop_step.
  assert (Hrest : forall s, In s (to :: rest') -> In (id s) (map stop_id (trip_stops db)))
    by (intros s Hs; apply Hin; now right).
  destruct (negb force && cached tripId from to db); [now apply IH|].
  destruct (fetchRouteSegment svc (query_of from to)) as [r|e]; [|exact Hint].
  specialize (IH (fst (upsert_segment tripId (id from) (id to)
                         (geometry r) (distance r) (duration r) db)) Hrest).
  destruct (routes_loop svc tripId force (to :: rest') _) as [[db2 res] calls].
  cbn [fst] in *. apply IH. apply upsert_integrity; [| |assumption]; apply Hin.
  - now left.
  - right. now left.
Qed.

Lemma post_routes_integrity (svc : directions) (tripId : Z) (force : bool) (db : Db) :
  integrity db -> integrity (fst (fst (post_routes svc tripId force db))).
Proof.
  intros Hint. pose proof (post_routes_cases svc tripId force db) as Hc.
  destruct (_ <? 2); [now rewrite Hc|].
  assert (H0 : integrity (routes_start tripId force db)).
  { unfold routes_start. destruct force; [|exact Hint].
    destruct Hint as [[Hpk Hseq Huniq] Hsegs]. split; [now constructor|].
    apply (segments_integrity_mono db); [assumption | | apply incl_refl].
    intros g Hg. cbn in Hg. apply filter_In in Hg. tauto. }
  pose proof (routes_loop_integrity svc tripId force (loadStopsWithCoords tripId db)
                (routes_start tripId force db)) as Hl.
  destruct (routes_loop _ _ _ _ _) as [[db1 [u|e]] calls];
    rewrite Hc; cbn [fst] in *; apply Hl; try assumption;
    intros s Hs; destruct (routes_start_frame tripId force db) as [-> _];
    unfold loadStopsWithCoords in Hs; apply in_map_iff in Hs;
    destruct Hs as [r [<- Hr]];
    apply (Permutation_in _ (order_by_position_perm _)) in Hr;
    apply filter_In in Hr; apply (in_map stop_id _ r); tauto.
Qed.

(** Every state a session of requests reaches from a state with sound
    tables has sound tables: the primary key, the sequence,
    [unique_position_per_trip] and the foreign keys of the segments. *)
Theorem session_integrity (rs : list api_request) (db : Db) :
  integrity db -> integrity (session rs db).
Proof.
  revert db. induction rs as [|r rs IH]; intros db H; [exact H|].
  cbn [session fold_left]. apply IH.
  destruct r as [t body | t stopId | t body | svc t force]; cbn [answer].
  - now apply post_stop_integrity.
  - now apply delete_stop_integrity.
  - now apply put_reorder_integrity.
  - now apply post_routes_integrity.
Qed.

Lemma empty_tables_integrity (db : Db) :
  trip_stops db = [] -> trip_route_segments db = [] -> integrity db.
Proof.
  intros Hs Hg. split; [constructor|]; unfold segments_integrity;
    rewrite ?Hs, ?Hg; constructor.
Qed.

(** * More of the handlers of the stops and the routes *)

(** ** [loadStopsWithCoords] *)

Lemma sorted_le_lt (l : list Z) :
  NoDup l -> StronglySorted Z.le l -> StronglySorted Z.lt l.
Proof.
  induction l as [|a l IH]; intros Hnd Hs; [constructor|].
  inversion Hnd as [|? ? Hnotin Hnd']; subst.
  inversion Hs as [|? ? Hs' Hall]; subst.
  constructor; [auto|].
  rewrite Forall_forall in *. intros x Hx.
  specialize (Hall x Hx).
  assert (x <> a) by (intros ->; contradiction). lia.
Qed.

Lemma NoDup_position_of_key (tripId : Z) (rows : list trip_stop) :
  NoDup (map position_key rows) ->
  NoDup (map position (filter (fun s => stop_trip_id s =? tripId) rows)).
Proof.
  induction rows as [|s rows IH]; cbn [map filter]; intros Hnd; [constructor|].
  inversion Hnd as [|? ? Hnotin Hnd']; subst.
  destruct (stop_trip_id s =? tripId) eqn:Ht; [|auto].
  cbn [map]. constructor; [|auto].
  intros Hin. apply Hnotin. apply in_map_iff in Hin.
  destruct Hin as [r [Hp Hr]]. apply filter_In in Hr. destruct Hr as [Hr Hrt].
  apply Z.eqb_eq in Ht, Hrt. apply in_map_iff. exists r. split; [|assumption].
  unfold position_key. congruence.
Qed.

(** X1.  The rows [loadStopsWithCoords] returns for a trip are the stops
    of the trip, each once, in ascending order of position, strictly so
    when no two stops of a trip share a position
    ([unique_position_per_trip]).  A waypoint is listed with its own
    coordinate and its name, ["Waypoint"] when it has none.  A stop on a
    timeline entry is listed with the location of the entry and with the
    place name of the entry, else the waypoint name of the stop, else
    ["Waypoint"]; it has no coordinate when the entry is missing. *)
Theorem stops_listed_by_position (tripId : Z) (db : Db) :
  Permutation (map id (loadStopsWithCoords tripId db))
              (map stop_id (stops_of tripId db))
  /\ StronglySorted Z.le (map sc_position (loadStopsWithCoords tripId db))
  /\ (NoDup (map position_key (trip_stops db)) ->
      StronglySorted Z.lt (map sc_position (loadStopsWithCoords tripId db)))
  /\ forall r, In r (loadStopsWithCoords tripId db) ->
       exists s, In s (trip_stops db) /\ stop_trip_id s = tripId
         /\ id r = stop_id s /\ sc_position r = position s
         /\ sc_timeline_entry_id r = timeline_entry_id s
         /\ match timeline_entry_id s with
            | None =>
                type r = "waypoint"
                /\ lng r = option_map fst (waypoint_location s)
                /\ lat r = option_map snd (waypoint_location s)
                /\ name r = match waypoint_name s with
                            | Some n => n
                            | None => "Waypoint"
                            end
            | Some e =>
                type r = "timeline_entry"
                /\ match find (fun te => entry_id te =? e) (timeline_entries db) with
                   | Some te =>
                       lng r = option_map fst (location te)
                       /\ lat r = option_map snd (location te)
                       /\ name r = match place_name te, waypoint_name s with
                                   | Some n, _ => n
                                   | None, Some n => n
                                   | None, None => "Waypoint"
                                   end
                   | None => lng r = None /\ lat r = None
                   end
            end.
Proof.
  assert (Hperm : Permutation (order_by_position (stops_of tripId db))
                              (stops_of tripId db))
    by apply order_by_position_perm.
  assert (Hsorted : StronglySorted Z.le
                      (map sc_position (loadStopsWithCoords tripId db))).
  { unfold loadStopsWithCoords. rewrite map_map.
    change (fun s => sc_position (with_coords (timeline_entries db) s)) with position.
    apply order_by_position_sorted. }
  split; [|split; [exact Hsorted | split]].
  - unfold loadStopsWithCoords. rewrite map_map.
    change (fun s => id (with_coords (timeline_entries db) s)) with stop_id.
    now apply Permutation_map.
  - intros Hnd. apply sorted_le_lt; [|exact Hsorted].
    unfold loadStopsWithCoords. rewrite map_map.
    change (fun s => sc_position (with_coords (timeline_entries db) s)) with position.
    eapply Permutation_NoDup.
    + apply Permutation_map, Permutation_sym, Hperm.
    + now apply NoDup_position_of_key.
  - intros r Hr. unfold loadStopsWithCoords in Hr. apply in_map_iff in Hr.
    destruct Hr as [s [<- Hs]]. apply (Permutation_in _ Hperm) in Hs.
    apply filter_In in Hs. destruct Hs as [Hs Ht]. apply Z.eqb_eq in Ht.
    exists s. repeat (split; [solve [auto] |]).
    unfold with_coords, joined_entry. cbn [type lng lat name].
    destruct (timeline_entry_id s) as [e|].
    + split; [reflexivity|].
      destruct (find _ _) as [te|]; [|auto].
      unfold coalesce.
      destruct (place_name te), (waypoint_name s); repeat split.
    + unfold coalesce. destruct (waypoint_name s); repeat split.
Qed.

(** ** What [POST .../routes] leaves alone *)

Lemma upsert_other_trips (tripId fromId toId : Z) geometry distance duration (db : Db) :
  other_segments tripId
    (fst (upsert_segment tripId fromId toId geometry distance duration db))
  = other_segments tripId db
  /\ trip_stops_id_seq
       (fst (upsert_segment tripId fromId toId geometry distance duration db))
     = trip_stops_id_seq db.
Proof.
  split; [|reflexivity].
  unfold other_segments, upsert_segment. cbn [fst trip_route_segments].
  destruct (existsb _ _).
  - match goal with |- context [map ?u _] => set (upd := u) end.
    assert (Hupd : forall g, segment_trip_id (upd g) = segment_trip_id g
                             /\ ((segment_trip_id g =? tripId) = false -> upd g = g)).
    { intros g. unfold upd, segment_key.
      destruct (segment_trip_id g =? tripId); cbn [andb]; [|auto].
      destruct (_ && _); cbn [segment_trip_id]; split; auto; discriminate. }
    induction (trip_route_segments db) as [|g l IH]; [reflexivity|].
    cbn [map filter]. destruct (Hupd g) as [H1 H2]. rewrite H1.
    destruct (segment_trip_id g =? tripId); cbn [negb]; [exact IH|].
    rewrite H2 by reflexivity. now rewrite IH.
  - rewrite filter_app. cbn [filter segment_trip_id].
    rewrite Z.eqb_refl. cbn [negb]. apply app_nil_r.
Qed.

Lemma routes_loop_other_trips (svc : directions) (tripId : Z) (force : bool)
  (stops : list stop_with_coords) : forall db,
  other_segments tripId (fst (fst (routes_loop svc tripId force stops db)))
  = other_segments tripId db
  /\ trip_stops_id_seq (fst (fst (routes_loop svc tripId force stops db)))
     = trip_stops_id_seq db.
Proof.
  induction stops as [|from rest IH]; intros db; [cbn; auto|].
  destruct rest as [|to rest']; [cbn; auto|].
  rewrite routes_loop_step.
  destruct (negb force && cached tripId from to db); [apply IH|].
  destruct (fetchRouteSegment svc (query_of from to)) as [r|e]; [|cbn; auto].
  specialize (IH (fst (upsert_segment tripId (id from) (id to)
                         (geometry r) (distance r) (duration r) db))).
  destruct (routes_loop svc tripId force (to :: rest') _) as [[db2 res] calls].
  cbv beta iota zeta. cbn [fst] in *.
  destruct (upsert_other_trips tripId (id from) (id to)
              (geometry r) (distance r) (duration r) db) as [H1 H2].
  destruct IH as [IH1 IH2]. split; congruence.
Qed.

Lemma post_routes_sequence (svc : directions) (tripId : Z) (force : bool) (db : Db) :
  trip_stops_id_seq (fst (fst (post_routes svc tripId force db)))
  = trip_stops_id_seq db.
Proof.
  pose proof (post_routes_cases svc tripId force db) as Hc.
  destruct (_ <? 2); [now rewrite Hc|].
  pose proof (routes_loop_other_trips svc tripId force (loadStopsWithCoords tripId db)
                (routes_start tripId force db)) as [_ H].
  assert (H0 : trip_stops_id_seq (routes_start tripId force db) = trip_stops_id_seq db)
    by (unfold routes_start; now destruct force).
  destruct (routes_loop _ _ _ _ _) as [[db1 [u|e]] calls]; rewrite Hc;
    cbn [fst] in *; congruence.
Qed.

(** X2.  Whatever its answer, [POST .../routes] leaves the stops, the
    trips, the timeline entries, the sequence of the stop ids and the
    cached segments of every other trip as they were. *)
Theorem routes_touch_own_segments_only (svc : directions) (tripId : Z)
  (force : bool) (db : Db) :
  trip_stops (fst (fst (post_routes svc tripId force db))) = trip_stops db
  /\ trips (fst (fst (post_routes svc tripId force db))) = trips db
  /\ timeline_entries (fst (fst (post_routes svc tripId force db)))
     = timeline_entries db
  /\ trip_stops_id_seq (fst (fst (post_routes svc tripId force db)))
     = trip_stops_id_seq db
  /\ other_segments tripId (fst (fst (post_routes svc tripId force db)))
     = other_segments tripId db.
Proof.
  pose proof (post_routes_cases svc tripId force db) as Hc.
  destruct (_ <? 2); [rewrite Hc; cbn; auto 6|].
  pose proof (routes_loop_frame svc tripId force (loadStopsWithCoords tripId db)
                (routes_start tripId force db)) as [H1 [H2 H3]].
  pose proof (routes_loop_other_trips svc tripId force (loadStopsWithCoords tripId db)
                (routes_start tripId force db)) as [H4 H5].
  assert (H0 : trip_stops (routes_start tripId force db) = trip_stops db
               /\ trips (routes_start tripId force db) = trips db
               /\ timeline_entries (routes_start tripId force db) = timeline_entries db
               /\ trip_stops_id_seq (routes_start tripId force db) = trip_stops_id_seq db
               /\ other_segments tripId (routes_start tripId force db)
                  = other_segments tripId db).
  { unfold routes_start, other_segments. destruct force; cbn; auto 6.
    repeat split. induction (trip_route_segments db) as [|g l IH]; [reflexivity|].
    cbn [filter]. destruct (segment_trip_id g =? tripId) eqn:Ht; cbn [negb filter].
    - exact IH.
    - rewrite Ht. cbn [negb]. now rewrite IH. }
  destruct H0 as [E1 [E2 [E3 [E4 E5]]]].
  destruct (routes_loop _ _ _ _ _) as [[db1 [u|e]] calls]; rewrite Hc;
    cbn [fst] in *; repeat split; congruence.
Qed.

(** ** What a run of [POST .../routes] that answers 200 leaves *)

Lemma cached_segment (tripId : Z) (a b : stop_with_coords) (db : Db) :
  cached tripId a b db = true ->
  exists g, In g (trip_segments tripId db)
            /\ from_stop_id g = id a /\ to_stop_id g = id b.
Proof.
  rewrite cached_existsb. intros H. apply existsb_exists in H.
  destruct H as [g [Hg Hk]]. unfold segment_key in Hk.
  apply andb_true_iff in Hk. destruct Hk as [Hk Hto].
  apply andb_true_iff in Hk. destruct Hk as [Ht Hfrom].
  exists g. repeat split.
  - apply filter_In. auto.
  - now apply Z.eqb_eq.
  - now apply Z.eqb_eq.
Qed.

(** X3.  On a database whose stops reference trips that exist, a route
    generation answered with status 200 carries the trip, never [null]: the
    stops as they were read at the start, two or more, and under [route] the
    cached segments of the trip as the run left them, with one among them
    for every pair of consecutive stops. *)
Theorem routes_answer_carries_trip (svc : directions) (tripId : Z) (force : bool)
  (db db1 : Db) (body : option trip_response) (calls : list query) :
  stops_reference_trips db ->
  post_routes svc tripId force db = (db1, OkTrip body, calls) ->
  body = Some {| trip := tripId;
                 stops := loadStopsWithCoords tripId db;
                 route := trip_segments tripId db1 |}
  /\ 2 <= Z.of_nat (List.length (loadStopsWithCoords tripId db))
  /\ Forall (fun p => exists g, In g (trip_segments tripId db1)
                                /\ from_stop_id g = id (fst p)
                                /\ to_stop_id g = id (snd p))
       (consecutive (loadStopsWithCoords tripId db)).
Proof.
  intros Hfk H.
  pose proof (post_routes_cases svc tripId force db) as Hc.
  destruct (_ <? 2) eqn:Hlen; [rewrite Hc in H; discriminate|].
  apply Z.ltb_ge in Hlen.
  destruct (routes_loop _ _ _ _ _) as [[db1' [u|e']] calls'] eqn:Hloop;
    rewrite Hc in H; [|discriminate].
  injection H as -> <- ->. destruct u.
  pose proof (routes_loop_frame svc tripId force (loadStopsWithCoords tripId db)
                (routes_start tripId force db)) as [Hrows [Htrips Hentries]].
  rewrite Hloop in Hrows, Htrips, Hentries. cbn [fst] in Hrows, Htrips, Hentries.
  destruct (routes_start_frame tripId force db) as [Hr0 He0].
  rewrite Hr0 in Hrows. rewrite He0 in Hentries.
  assert (Ht0 : trips (routes_start tripId force db) = trips db)
    by (unfold routes_start; now destruct force).
  rewrite Ht0 in Htrips.
  split; [|split; [exact Hlen|]].
  - unfold buildTripResponse.
    rewrite (loadStopsWithCoords_frame tripId db db1 Hrows Hentries), Htrips.
    assert (Hin : In tripId (trips db)).
    { destruct (loadStopsWithCoords tripId db) as [|r l] eqn:E;
        [cbn in Hlen; lia|].
      assert (Hr : In r (loadStopsWithCoords tripId db)) by (rewrite E; now left).
      unfold loadStopsWithCoords in Hr. apply in_map_iff in Hr.
      destruct Hr as [s [_ Hs]].
      apply (Permutation_in _ (order_by_position_perm _)) in Hs.
      apply filter_In in Hs. destruct Hs as [Hs Ht]. apply Z.eqb_eq in Ht.
      unfold stops_reference_trips in Hfk. rewrite Forall_forall in Hfk.
      rewrite <- Ht. now apply Hfk. }
    apply mem_id_In in Hin. now rewrite Hin.
  - pose proof (routes_loop_caches svc tripId force _ _ _ _ Hloop) as Hcached.
    rewrite Forall_forall in *. intros p Hp.
    apply cached_segment. now apply Hcached.
Qed.

Lemma consecutive_In (l : list stop_with_coords)
  (p : stop_with_coords * stop_with_coords) :
  In p (consecutive l) -> In (fst p) l /\ In (snd p) l.
Proof.
  induction l as [|a l IHl]; [contradiction|].
  destruct l as [|b l']; [contradiction|].
  rewrite consecutive_step. intros [<- | Hp].
  - cbn. auto.
  - destruct (IHl Hp). split; now right.
Qed.

Lemma forced_loop_appends (svc : directions) (tripId : Z)
  (stops : list stop_with_coords) : forall db db1 calls,
  NoDup (map id stops) ->
  (forall p, In p (consecutive stops) ->
     existsb (segment_key tripId (id (fst p)) (id (snd p)))
       (trip_route_segments db) = false) ->
  routes_loop svc tripId true stops db = (db1, Returns tt, calls) ->
  exists new,
    trip_route_segments db1 = trip_route_segments db ++ new
    /\ Forall (fun g => segment_trip_id g = tripId) new
    /\ Forall2 (fun g p => from_stop_id g = id (fst p)
                           /\ to_stop_id g = id (snd p)
                           /\ profile g = "driving"
                           /\ exists r, fetchRouteSegment svc (query_of (fst p) (snd p))
                                        = Returns r)
         new (consecutive stops).
Proof.
  induction stops as [|from rest IH]; intros db db1 calls Hnd Hfree H.
  - injection H as <- _. exists []. rewrite app_nil_r. repeat constructor.
  - destruct rest as [|to rest'].
    + injection H as <- _. exists []. rewrite app_nil_r. repeat constructor.
    + rewrite routes_loop_step in H. rewrite consecutive_step in *.
      cbn [negb andb] in H.
      destruct (fetchRouteSegment svc (query_of from to)) as [r|e] eqn:Hf;
        [|discriminate].
      set (db' := fst (upsert_segment tripId (id from) (id to)
                         (geometry r) (distance r) (duration r) db)) in *.
      destruct (routes_loop svc tripId true (to :: rest') db')
        as [[db2 res] calls2] eqn:E.
      injection H as -> -> _.
      inversion Hnd as [|? ? Hnotin Hnd']; subst.
      assert (Hsegs : exists g0,
                 trip_route_segments db' = trip_route_segments db ++ [g0]
                 /\ segment_trip_id g0 = tripId /\ from_stop_id g0 = id from
                 /\ to_stop_id g0 = id to /\ profile g0 = "driving").
      { unfold db', upsert_segment. cbn [fst trip_route_segments].
        pose proof (Hfree (from, to) (or_introl eq_refl)) as H0.
        cbn [fst snd] in H0. rewrite H0.
        eexists. split; [reflexivity|]. cbn. repeat split. }
      destruct Hsegs as [g0 [Hdb' [Hg0t [Hg0f [Hg0o Hg0p]]]]].
      destruct (IH db' db1 calls2 Hnd') as [new [Hnew [Htrip Hall]]].
      * intros p Hp. rewrite Hdb', existsb_app.
        rewrite (Hfree p) by now right. cbn [existsb orb].
        rewrite orb_false_r. unfold segment_key. rewrite Hg0f.
        replace (id from =? id (fst p)) with false;
          [now rewrite andb_false_r|].
        symmetry. apply Z.eqb_neq. intros Heq. apply Hnotin. rewrite Heq.
        change (In (id (fst p)) (map id (to :: rest'))).
        apply in_map. now apply (consecutive_In (to :: rest')).
      * exact E.
      * exists (g0 :: new). rewrite Hnew, Hdb', <- app_assoc. split; [reflexivity|].
        split; constructor; auto.
        cbn [fst snd]. repeat split; try assumption. now exists r.
Qed.

Lemma forced_start_none (tripId : Z) (db : Db) (f o : Z) :
  existsb (segment_key tripId f o)
    (trip_route_segments (routes_start tripId true db)) = false.
Proof.
  destruct (existsb _ _) eqn:E; [|reflexivity].
  apply existsb_exists in E. destruct E as [g [Hg Hk]].
  assert (Hin : In g (filter (segment_key tripId f o)
                        (trip_route_segments (routes_start tripId true db))))
    by (apply filter_In; auto).
  rewrite forced_start_empty in Hin. contradiction.
Qed.

(** X4.  With the ids of the stops a key, after a forced generation that
    completed the cached segments of the trip are one per pair of
    consecutive stops and no other, in the order of the stops, each with the
    profile ["driving"], and every pair is one the service answered for. *)
Theorem forced_routes_cache_consecutive_pairs (svc : directions) (tripId : Z)
  (db db1 : Db) (body : option trip_response) (calls : list query) :
  NoDup (map stop_id (trip_stops db)) ->
  post_routes svc tripId true db = (db1, OkTrip body, calls) ->
  Forall2 (fun g p => from_stop_id g = id (fst p)
                      /\ to_stop_id g = id (snd p)
                      /\ profile g = "driving"
                      /\ exists r, fetchRouteSegment svc (query_of (fst p) (snd p))
                                   = Returns r)
    (trip_segments tripId db1) (consecutive (loadStopsWithCoords tripId db)).
Proof.
  intros Hnd H.
  pose proof (post_routes_cases svc tripId true db) as Hc.
  destruct (_ <? 2) eqn:Hlen; [rewrite Hc in H; discriminate|].
  destruct (routes_loop _ _ _ _ _) as [[db1' [u|e']] calls'] eqn:Hloop;
    rewrite Hc in H; [|discriminate].
  injection H as -> _ _. destruct u.
  destruct (forced_loop_appends svc tripId _ _ _ _
              (loadStopsWithCoords_ids tripId db Hnd)
              (fun p _ => forced_start_none tripId db _ _) Hloop)
    as [new [Hnew [Htrip Hall]]].
  unfold trip_segments. rewrite Hnew, filter_app.
  replace (filter _ (trip_route_segments (routes_start tripId true db)))
    with (@nil route_segment).
  - cbn [app]. rewrite filter_all; [exact Hall|].
    rewrite Forall_forall in Htrip. intros g Hg. apply Z.eqb_eq. now apply Htrip.
  - symmetry. unfold routes_start.
    cbn [delete_segments fst with_segments trip_route_segments].
    apply filter_none. intros g Hg. apply filter_In in Hg.
    destruct Hg as [_ Hg]. now apply negb_true_iff in Hg.
Qed.

(** ** [POST .../stops]: what a refused request leaves *)

Lemma insert_trip_stop_returns (tripId pos : Z) entry wl wn (db db2 : Db)
  (stop : trip_stop) :
  insert_trip_stop tripId pos entry wl wn db = (db2, Returns stop) ->
  In tripId (trips db)
  /\ match entry with
     | Some e => In e (map entry_id (timeline_entries db))
     | None => True
     end.
Proof.
  unfold insert_trip_stop.
  destruct (negb (stop_has_source _)); [discriminate|].
  destruct (mem_key _ _); [discriminate|].
  destruct (mem_id tripId (trips db)) eqn:Ht; cbn [negb]; [|discriminate].
  apply mem_id_In in Ht.
  destruct entry as [e|]; [|auto].
  destruct (mem_id e _) eqn:He; cbn [negb]; [|discriminate].
  apply mem_id_In in He. auto.
Qed.

(** X5.  An insert whose body names a source, for a trip or a timeline
    entry that does not exist, is refused by the database and answered with
    status 500: no stop is added or removed and no segment is deleted.  When
    it is the trip that does not exist, and the stops stored reference trips
    that exist, nothing changes but the sequence of the stop ids, which
    moves on, and the error is that of the foreign key into [trips]. *)
Theorem insert_needs_references (tripId : Z) (body : stop_body) (db : Db) :
  chosen_source body <> None ->
  ~ references_hold tripId body db ->
  (exists c, snd (post_stop tripId body db) = InternalServerError (DbError c))
  /\ map stop_id (trip_stops (fst (post_stop tripId body db)))
     = map stop_id (trip_stops db)
  /\ trip_route_segments (fst (post_stop tripId body db)) = trip_route_segments db
  /\ (stops_reference_trips db -> ~ In tripId (trips db) ->
      post_stop tripId body db
      = (advance_stop_seq db,
         InternalServerError (DbError "trip_stops_trip_id_fkey"))).
Proof.
  intros Hsrc Href.
  pose proof (post_stop_cases tripId body db) as H.
  pose proof (place_frame tripId body db) as [Hids [Hsegs [Hseq [Htrips Hentries]]]].
  pose proof (place_cases tripId body db) as Hp.
  destruct (chosen_source body) as [[[entry wl] wn]|] eqn:Hc; [|congruence].
  assert (Hrej : forall d, trips d = trips db ->
                   timeline_entries d = timeline_entries db ->
                   forall pos, exists c,
                     insert_trip_stop tripId pos entry wl wn d
                     = (advance_stop_seq d, Throws (DbError c))).
  { intros d Ht He pos.
    destruct (insert_trip_stop_cases tripId pos entry wl wn d) as [[c E] | E];
      [eauto|].
    exfalso. apply Href. apply insert_trip_stop_returns in E.
    rewrite Ht, He in E. unfold references_hold. rewrite Hc.
    destruct E as [E1 E2]. split; [assumption|]. now destruct entry. }
  split; [|split; [|split]].
  - destruct (place tripId body db) as [db1 [pos|e]] eqn:Hplace; cbn [fst] in *.
    + destruct (Hrej db1 Htrips Hentries pos) as [c E]. rewrite E in H.
      rewrite H. eexists; reflexivity.
    + rewrite H. cbn [snd].
      destruct (body_position body) as [p|]; [|discriminate].
      destruct (update_rows _ _ _ _); [discriminate|].
      injection Hp as _ ->. eexists; reflexivity.
  - destruct (place tripId body db) as [db1 [pos|e]] eqn:Hplace; cbn [fst] in *.
    + destruct (Hrej db1 Htrips Hentries pos) as [c E]. rewrite E in H.
      rewrite H. exact Hids.
    + rewrite H. exact Hids.
  - destruct (place tripId body db) as [db1 [pos|e]] eqn:Hplace; cbn [fst] in *.
    + destruct (Hrej db1 Htrips Hentries pos) as [c E]. rewrite E in H.
      rewrite H. exact Hsegs.
    + rewrite H. exact Hsegs.
  - intros Hfk Hno.
    assert (Hplace : exists pos, place tripId body db = (db, Returns pos)).
    { destruct (body_position body) as [p|]; [|eauto].
      rewrite update_rows_untouched in Hp; [destruct db; eauto|].
      intros s Hs. unfold stops_reference_trips in Hfk.
      rewrite Forall_forall in Hfk. specialize (Hfk s Hs).
      apply andb_false_iff. left. apply Z.eqb_neq. congruence. }
    destruct Hplace as [pos Hplace]. rewrite Hplace in H.
    unfold insert_trip_stop in H.
    assert (Hsource : stop_has_source (new_stop db tripId pos entry wl wn) = true)
      by (eapply chosen_source_has_source; eauto).
    rewrite Hsource in H. cbn [negb] in H.
    replace (mem_key _ _) with false in H.
    + replace (mem_id tripId (trips db)) with false in H; [exact H|].
      symmetry. destruct (mem_id tripId (trips db)) eqn:E; [|reflexivity].
      apply mem_id_In in E. contradiction.
    + symmetry. apply mem_key_false. intros Hin. apply in_map_iff in Hin.
      destruct Hin as [s [Hk Hs]]. injection Hk as Ht _.
      unfold stops_reference_trips in Hfk. rewrite Forall_forall in Hfk.
      specialize (Hfk s Hs). cbn in Ht. congruence.
Qed.

(** X6.  A body with an explicit position and no location source, whose
    shift [unique_position_per_trip] accepts, is answered 400 after the
    shift was made, and the shift stays: the stops of the trip at or after
    the position have moved up by one, so the position is vacant, and the
    position after it is taken if the position was. *)
Theorem refused_body_keeps_shift (tripId pos : Z) (body : stop_body) (db : Db) :
  ~ has_entry body -> ~ has_coordinate body ->
  body_position body = Some pos ->
  shift_accepted tripId body db ->
  post_stop tripId body db
  = (with_trip_stops
       (update_position
          (fun s => (stop_trip_id s =? tripId) && (pos <=? position s))
          (fun p => p + 1) (trip_stops db)) db,
     BadRequest "Provide timeline_entry_id or lat/lng")
  /\ ~ In pos (map position (stops_of tripId (fst (post_stop tripId body db))))
  /\ (In pos (map position (stops_of tripId db)) ->
      In (pos + 1) (map position (stops_of tripId (fst (post_stop tripId body db))))).
Proof.
  intros Hne Hnc Hpos Hshift.
  assert (Hsrc : chosen_source body = None) by (apply chosen_source_none; auto).
  pose proof (post_stop_cases tripId body db) as H.
  pose proof (place_cases tripId body db) as Hp.
  unfold shift_accepted in Hshift. rewrite Hpos in Hp, Hshift.
  destruct (update_rows _ _ _ _) as [rows|] eqn:E; [|congruence].
  apply update_rows_result in E. cbn [app] in E. subst rows.
  rewrite Hp, Hsrc in H. rewrite H. cbn [fst].
  split; [reflexivity|]. unfold stops_of. cbn [with_trip_stops trip_stops].
  split.
  - intros Hin. apply in_map_iff in Hin. destruct Hin as [s' [Hp' Hs']].
    apply filter_In in Hs'. destruct Hs' as [Hs' Ht'].
    unfold update_position in Hs'. apply in_map_iff in Hs'.
    destruct Hs' as [s [Es Hs]].
    destruct (stop_trip_id s =? tripId) eqn:Ht; cbn [andb] in Es.
    + destruct (pos <=? position s) eqn:Hle; subst s'; cbn in Hp'.
      * apply Z.leb_le in Hle. lia.
      * apply Z.leb_gt in Hle. lia.
    + subst s'. congruence.
  - intros Hin. apply in_map_iff in Hin. destruct Hin as [s [Hp' Hs]].
    apply filter_In in Hs. destruct Hs as [Hs Ht].
    apply in_map_iff. exists (set_position (pos + 1) s). split; [reflexivity|].
    apply filter_In. split; [|exact Ht].
    unfold update_position. apply in_map_iff. exists s. split; [|assumption].
    rewrite Ht, Hp', Z.leb_refl. reflexivity.
Qed.

(** ** What a reorder leaves alone *)

(** Everything of a database but the positions of the stops of a trip and
    the cached segments. *)
Lemma update_position_columns cond f (rows : list trip_stop) :
  map (set_position 0) (update_position cond f rows) = map (set_position 0) rows.
Proof.
  unfold update_position. rewrite map_map. apply map_ext.
  intros s. now destruct (cond s).
Qed.

Lemma update_position_others (tripId : Z) cond f (rows : list trip_stop) :
  (forall s, cond s = true -> stop_trip_id s = tripId) ->
  filter (fun s => negb (stop_trip_id s =? tripId)) (update_position cond f rows)
  = filter (fun s => negb (stop_trip_id s =? tripId)) rows.
Proof.
  intros Hc. induction rows as [|s rows IH]; [reflexivity|].
  cbn [update_position map filter]. fold (update_position cond f rows).
  destruct (cond s) eqn:E.
  - cbn [set_position stop_trip_id]. rewrite (Hc s E), Z.eqb_refl. exact IH.
  - destruct (negb _); now rewrite IH.
Qed.

Lemma assign_frame (tripId : Z) (f : Z -> Z) (i x : Z) (db : Db) :
  (map (set_position 0) (trip_stops (fst (assign tripId f i x db))),
   filter (fun s => negb (stop_trip_id s =? tripId))
     (trip_stops (fst (assign tripId f i x db))),
   trips (fst (assign tripId f i x db)),
   timeline_entries (fst (assign tripId f i x db)),
   trip_stops_id_seq (fst (assign tripId f i x db)),
   trip_route_segments_id_seq (fst (assign tripId f i x db)))
  = (map (set_position 0) (trip_stops db),
     filter (fun s => negb (stop_trip_id s =? tripId)) (trip_stops db),
     trips db, timeline_entries db, trip_stops_id_seq db,
     trip_route_segments_id_seq db).
Proof.
  unfold assign, update_trip_stops.
  destruct (update_rows _ _ _ _) as [rows|] eqn:E; [|reflexivity].
  apply update_rows_result in E. cbn [app] in E. subst rows.
  cbn [fst with_trip_stops trip_stops trips timeline_entries trip_stops_id_seq
         trip_route_segments_id_seq].
  rewrite update_position_columns, update_position_others; [reflexivity|].
  intros s Hs. apply andb_true_iff in Hs. destruct Hs as [_ Hs].
  now apply Z.eqb_eq.
Qed.

(** X7.  Whatever the body and the answer, the reorder writes no
    column of a stop but [position], and leaves the stops of the other
    trips, the trips, the timeline entries and both sequences as they
    were. *)
Theorem reorder_rewrites_positions_only (tripId : Z) (body : order_field) (db : Db) :
  map (set_position 0) (trip_stops (fst (put_reorder tripId body db)))
  = map (set_position 0) (trip_stops db)
  /\ filter (fun s => negb (stop_trip_id s =? tripId))
       (trip_stops (fst (put_reorder tripId body db)))
     = filter (fun s => negb (stop_trip_id s =? tripId)) (trip_stops db)
  /\ trips (fst (put_reorder tripId body db)) = trips db
  /\ timeline_entries (fst (put_reorder tripId body db)) = timeline_entries db
  /\ trip_stops_id_seq (fst (put_reorder tripId body db)) = trip_stops_id_seq db
  /\ trip_route_segments_id_seq (fst (put_reorder tripId body db))
     = trip_route_segments_id_seq db.
Proof.
  destruct body as [|order]; [cbn; auto 7|].
  set (proj := fun d : Db =>
         (map (set_position 0) (trip_stops d),
          filter (fun s => negb (stop_trip_id s =? tripId)) (trip_stops d),
          trips d, timeline_entries d, trip_stops_id_seq d,
          trip_route_segments_id_seq d)).
  assert (H : proj (fst (put_reorder tripId (OrderArray order) db)) = proj db).
  { unfold put_reorder, serve, put_reorder_handler, bind.
    change (delete_segments (fun g => segment_trip_id g =? tripId) db)
      with (without_segments tripId db, @Returns unit tt).
    cbv beta iota.
    pose proof (for_each_preserves proj (stage tripId)
                  (assign_frame tripId (fun i => - (i + 1))) order 0
                  (without_segments tripId db)) as H1.
    destruct (for_each 0 order (stage tripId) (without_segments tripId db))
      as [db1 [u|e]]; cbn [fst] in H1.
    - pose proof (for_each_preserves proj (finalize tripId)
                    (assign_frame tripId (fun i => i)) order 0 db1) as H2.
      destruct (for_each 0 order (finalize tripId) db1) as [db2 [u'|e]];
        cbn [fst snd ret] in *; rewrite H2, H1; reflexivity.
    - cbn [fst]. rewrite H1. reflexivity. }
  unfold proj in H. injection H as H1 H2 H3 H4 H5 H6. auto 7.
Qed.

Lemma put_reorder_sequence (tripId : Z) (body : order_field) (db : Db) :
  trip_stops_id_seq (fst (put_reorder tripId body db)) = trip_stops_id_seq db.
Proof.
  destruct body as [|order]; [reflexivity|].
  assert (Hstep : forall f i x d,
            trip_stops_id_seq (fst (assign tripId f i x d)) = trip_stops_id_seq d).
  { intros f i x d. pose proof (assign_frame tripId f i x d) as H.
    now injection H as _ _ _ _ H _. }
  unfold put_reorder, serve, put_reorder_handler, bind.
  change (delete_segments (fun g => segment_trip_id g =? tripId) db)
    with (without_segments tripId db, @Returns unit tt).
  cbv beta iota.
  pose proof (for_each_preserves trip_stops_id_seq (stage tripId)
                (Hstep (fun i => - (i + 1))) order 0
                (without_segments tripId db)) as H1.
  destruct (for_each 0 order (stage tripId) (without_segments tripId db))
    as [db1 [u|e]]; cbn [fst] in H1.
  - pose proof (for_each_preserves trip_stops_id_seq (finalize tripId)
                  (Hstep (fun i => i)) order 0 db1) as H2.
    destruct (for_each 0 order (finalize tripId) db1) as [db2 [u'|e]];
      cbn [fst snd ret] in *; rewrite H2, H1; reflexivity.
  - cbn [fst]. rewrite H1. reflexivity.
Qed.

(** ** Ids of stops along a session *)

Lemma post_stop_sequence (tripId : Z) (body : stop_body) (db : Db) :
  trip_stops_id_seq db <= trip_stops_id_seq (fst (post_stop tripId body db)).
Proof.
  pose proof (post_stop_cases tripId body db) as H.
  pose proof (place_frame tripId body db) as [_ [_ [Hseq _]]].
  destruct (place tripId body db) as [db1 [pos|e]]; cbn [fst] in Hseq;
    [|rewrite H; cbn [fst]; lia].
  destruct (chosen_source body) as [[[entry wl] wn]|];
    [|rewrite H; cbn [fst]; lia].
  destruct (insert_trip_stop_cases tripId pos entry wl wn db1) as [[c E] | E];
    rewrite E in H; rewrite H; [cbn; lia|].
  match goal with |- context [serve (invalidate ?t ?p (Some ?s)) ?d] =>
    destruct (invalidate_created t p s d) as [db' [E' [_ [Hs _]]]]
  end.
  unfold serve. rewrite E'. cbn [fst]. rewrite Hs. cbn. lia.
Qed.

Lemma delete_stop_sequence (tripId stopId : Z) (db : Db) :
  trip_stops_id_seq (fst (delete_stop tripId stopId db)) = trip_stops_id_seq db.
Proof.
  pose proof (delete_stop_cases tripId stopId db) as H.
  destruct (filter _ (trip_stops db)) as [|stop found]; [now rewrite H|].
  destruct (update_rows _ _ _ _); rewrite H; reflexivity.
Qed.

Lemma session_sequence (rs : list api_request) : forall db,
  trip_stops_id_seq db <= trip_stops_id_seq (session rs db).
Proof.
  induction rs as [|r rs IH]; intros db; [cbn; lia|].
  cbn [session fold_left]. etransitivity; [|apply IH].
  destruct r as [t body | t stopId | t body | svc t force]; cbn [answer].
  - apply post_stop_sequence.
  - rewrite delete_stop_sequence. lia.
  - rewrite put_reorder_sequence. lia.
  - rewrite post_routes_sequence. lia.
Qed.

(** X8.  The id of a created stop is new: along a session on a database
    with sound keys no stop held it at any earlier point, the stops deleted
    since included. *)
Theorem stop_ids_never_reused (rs1 rs2 : list api_request) (tripId : Z)
  (body : stop_body) (db : Db) (stop : trip_stop) :
  integrity db ->
  snd (post_stop tripId body (session (rs1 ++ rs2) db)) = Created stop ->
  ~ In (stop_id stop) (map stop_id (trip_stops (session rs1 db)))
  /\ ~ In (stop_id stop) (map stop_id (trip_stops (session (rs1 ++ rs2) db))).
Proof.
  intros Hint Hc.
  assert (Hid : stop_id stop = trip_stops_id_seq (session (rs1 ++ rs2) db)).
  { apply post_stop_created in Hc. destruct Hc as [pos [db1 [Hplace [_ [Hnew _]]]]].
    pose proof (place_frame tripId body (session (rs1 ++ rs2) db)) as [_ [_ [Hseq _]]].
    rewrite Hplace in Hseq. cbn [fst] in Hseq. rewrite Hnew. cbn. exact Hseq. }
  assert (Hbelow : forall rs, Forall (fun i => i < trip_stops_id_seq (session rs db))
                                (map stop_id (trip_stops (session rs db)))).
  { intros rs. apply below_sequence. apply (session_integrity rs db Hint). }
  assert (Hmono : trip_stops_id_seq (session rs1 db)
                  <= trip_stops_id_seq (session (rs1 ++ rs2) db)).
  { unfold session. rewrite fold_left_app. apply session_sequence. }
  split; intros Hin.
  - pose proof (Hbelow rs1) as H. rewrite Forall_forall in H. apply H in Hin. lia.
  - pose proof (Hbelow (rs1 ++ rs2)) as H. rewrite Forall_forall in H.
    apply H in Hin. lia.
Qed.

(** ** Inserting before the last stop *)

Lemma update_position_stops_of (tripId : Z) cond f (db : Db) :
  filter (fun s => stop_trip_id s =? tripId) (update_position cond f (trip_stops db))
  = update_position cond f (stops_of tripId db).
Proof.
  unfold update_position, stops_of. apply filter_map_commute.
  intros s. now destruct (cond s).
Qed.

Lemma zseq_snoc2 (n : nat) (pre : list Z) (a b : Z) :
  pre ++ [a; b] = zseq 0 n ->
  pre = zseq 0 (List.length pre)
  /\ a = Z.of_nat (List.length pre) /\ b = Z.of_nat (List.length pre) + 1
  /\ n = S (S (List.length pre)).
Proof.
  intros H.
  assert (Hn : n = S (S (List.length pre))).
  { apply (f_equal (@List.length Z)) in H.
    rewrite length_app, zseq_length in H. cbn in H. lia. }
  subst n. rewrite zseq_snoc, zseq_snoc in H. rewrite <- app_assoc in H.
  cbn [app] in H. apply app_eq_length in H; [|now rewrite zseq_length].
  destruct H as [H1 H2]. injection H2 as -> ->.
  repeat split; [assumption | lia ].
Qed.

Lemma index_of_skip (x : Z) (l1 l2 : list Z) : forall i,
  ~ In x l1 ->
  index_of x i (l1 ++ l2) = index_of x (i + Z.of_nat (List.length l1)) l2.
Proof.
  induction l1 as [|y l1 IH]; intros i H; cbn [app index_of List.length].
  - now rewrite Z.add_0_r.
  - replace (x =? y) with false.
    + rewrite IH by (intros Hin; apply H; now right). f_equal. lia.
    + symmetry. apply Z.eqb_neq. intros ->. apply H. now left.
Qed.

Lemma index_of_stored (pre : list trip_stop) (tl : list Z) : forall i s,
  NoDup (map stop_id pre) ->
  map position pre = zseq i (List.length pre) ->
  In s pre ->
  index_of (stop_id s) i (map stop_id pre ++ tl) = Some (position s).
Proof.
  induction pre as [|r pre IH]; intros i s Hnd Hpos Hs; [contradiction|].
  cbn [map List.length zseq app index_of] in *.
  injection Hpos as Hr Hpos. inversion Hnd as [|? ? Hnotin Hnd']; subst.
  destruct Hs as [-> | Hs].
  - now rewrite Z.eqb_refl.
  - replace (stop_id s =? stop_id r) with false; [now apply IH|].
    symmetry. apply Z.eqb_neq. intros E. apply Hnotin. rewrite <- E.
    now apply in_map.
Qed.

(** X9.  On a trip stored in position order, with cached segments that
    join stops that exist, an insert of a source that exists at the position
    of the last stop, with a stop before it, is accepted: the last stop
    moves up by one, the new stop is listed between the two, the positions
    stay contiguous, and the cached segments deleted are those from the stop
    before to the last stop, and no other. *)
Theorem insert_before_last_stop_shifts_it (tripId : Z) (body : stop_body) (db : Db)
  (pre : list trip_stop) (pred lst : trip_stop) :
  stored_in_order tripId db -> segments_integrity db ->
  stops_of tripId db = pre ++ [pred; lst] ->
  body_position body = Some (position lst) ->
  references_hold tripId body db ->
  exists stop,
    snd (post_stop tripId body db) = Created stop
    /\ stop_id stop = trip_stops_id_seq db
    /\ position stop = position lst
    /\ stops_of tripId (fst (post_stop tripId body db))
       = pre ++ [pred; set_position (position lst + 1) lst; stop]
    /\ map id (loadStopsWithCoords tripId (fst (post_stop tripId body db)))
       = map stop_id pre ++ [stop_id pred; stop_id stop; stop_id lst]
    /\ contiguous tripId (fst (post_stop tripId body db))
    /\ trip_route_segments (fst (post_stop tripId body db))
       = filter (fun g => negb (segment_key tripId (stop_id pred) (stop_id lst) g))
           (trip_route_segments db).
Proof.
  intros [Hnd [Hseq Hord]] Hfk Hstops Hpos [Htrip Href].
  unfold in_order in Hord. rewrite Hstops in Hord.
  rewrite map_app in Hord. cbn [map] in Hord.
  rewrite length_app in Hord. cbn [List.length] in Hord.
  apply zseq_snoc2 in Hord. rewrite length_map in Hord.
  destruct Hord as [Hpre [Hppred [Hplst _]]].
  set (n := Z.of_nat (List.length pre)) in *.
  set (cond := fun s => (stop_trip_id s =? tripId) && (position lst <=? position s)).
  assert (Hin : forall s, In s (stops_of tripId db) <->
                          In s (trip_stops db) /\ stop_trip_id s = tripId).
  { intros s. unfold stops_of. rewrite filter_In, Z.eqb_eq. tauto. }
  assert (Hprepos : forall s, In s pre -> 0 <= position s < n).
  { intros s Hs. assert (H : In (position s) (map position pre)) by now apply in_map.
    rewrite Hpre in H. apply zseq_In in H. lia. }
  assert (Hlst : In lst (trip_stops db) /\ stop_trip_id lst = tripId).
  { apply Hin. rewrite Hstops. apply in_or_app. right. right. now left. }
  assert (Hpredin : In pred (trip_stops db) /\ stop_trip_id pred = tripId).
  { apply Hin. rewrite Hstops. apply in_or_app. right. now left. }
  assert (Hbound : forall s, In s (trip_stops db) -> stop_trip_id s = tripId ->
                     position s <= position lst
                     /\ (position s = position lst -> s = lst)).
  { intros s Hs Ht. assert (H : In s (stops_of tripId db)) by (apply Hin; auto).
    rewrite Hstops in H. apply in_app_or in H.
    destruct H as [H | [<- | [<- | []]]].
    - apply Hprepos in H. split; [lia | intros; lia].
    - split; [lia | intros; lia].
    - split; [lia | auto]. }
  assert (Hcond : forall s, In s (trip_stops db) -> cond s = true -> s = lst).
  { intros s Hs Hc. unfold cond in Hc. apply andb_true_iff in Hc.
    destruct Hc as [Ht Hle]. apply Z.eqb_eq in Ht. apply Z.leb_le in Hle.
    destruct (Hbound s Hs Ht) as [H1 H2]. apply H2. lia. }
  assert (Hcondlst : cond lst = true).
  { unfold cond. destruct Hlst as [_ ->]. rewrite Z.eqb_refl, Z.leb_refl. reflexivity. }
  (* the shift *)
  pose proof (place_cases tripId body db) as Hplace. rewrite Hpos in Hplace.
  fold cond in Hplace.
  rewrite update_rows_accepts in Hplace.
  2:{ intros l1 s l2 Hsplit Hc. cbn [app].
      assert (Hs : s = lst).
      { apply Hcond; [|assumption]. rewrite Hsplit. apply in_or_app. right. now left. }
      subst s. intros Hk. apply in_map_iff in Hk. destruct Hk as [r [Ek Hr]].
      injection Ek as Et Ep. cbn in Et, Ep.
      assert (Hr0 : exists r0, In r0 (l1 ++ l2) /\ stop_trip_id r0 = tripId
                               /\ (position r = position r0 \/ r0 = lst)).
      { apply in_app_or in Hr. destruct Hr as [Hr | Hr].
        - unfold update_position in Hr. apply in_map_iff in Hr.
          destruct Hr as [r0 [E Hr0]]. exists r0. split; [apply in_or_app; now left|].
          destruct (cond r0) eqn:Hc0.
          + split; [subst r; cbn in Et; destruct Hlst; congruence|]. right.
            apply Hcond; [|assumption]. rewrite Hsplit. apply in_or_app. now left.
          + subst r0. split; [destruct Hlst; congruence | now left].
        - exists r. split; [apply in_or_app; now right|].
          split; [destruct Hlst; congruence | now left]. }
      destruct Hr0 as [r0 [Hr0 [Ht0 Hp0]]].
      assert (Hr0in : In r0 (trip_stops db)).
      { rewrite Hsplit. apply in_app_or in Hr0. apply in_or_app.
        destruct Hr0; [left | right; right]; assumption. }
      destruct Hp0 as [Hp0 | ->].
      - destruct (Hbound r0 Hr0in Ht0). lia.
      - rewrite Hsplit, map_app in Hnd. cbn [map] in Hnd.
        apply NoDup_remove_2 in Hnd. apply Hnd. rewrite <- map_app.
        now apply in_map. }
  cbn [app] in Hplace.
  set (rows1 := update_position cond (fun p => p + 1) (trip_stops db)) in *.
  (* the insert *)
  pose proof (post_stop_cases tripId body db) as H. rewrite Hplace in H.
  destruct (chosen_source body) as [[[entry wl] wn]|] eqn:Hsrc; [|contradiction].
  set (db1 := with_trip_stops rows1 db) in *.
  set (stop := new_stop db1 tripId (position lst) entry wl wn) in *.
  assert (Hrows1 : filter (fun s => stop_trip_id s =? tripId) rows1
                   = pre ++ [pred; set_position (position lst + 1) lst]).
  { unfold rows1. rewrite update_position_stops_of, Hstops.
    unfold update_position. rewrite map_app. cbn [map]. rewrite Hcondlst.
    replace (cond pred) with false.
    - f_equal. rewrite <- (map_id pre) at 2. apply map_ext_in. intros s Hs.
      replace (cond s) with false; [reflexivity|].
      symmetry. unfold cond. apply andb_false_iff. right. apply Z.leb_gt.
      apply Hprepos in Hs. lia.
    - symmetry. unfold cond. apply andb_false_iff. right. apply Z.leb_gt. lia. }
  assert (Hfree : ~ In (tripId, position lst) (map position_key rows1)).
  { intros Hk. apply in_map_iff in Hk. destruct Hk as [r [Ek Hr]].
    injection Ek as Et Ep.
    assert (Hr' : In r (filter (fun s => stop_trip_id s =? tripId) rows1))
      by (apply filter_In; split; [assumption | now apply Z.eqb_eq]).
    rewrite Hrows1 in Hr'. apply in_app_or in Hr'.
    destruct Hr' as [Hr' | [<- | [<- | []]]].
    - apply Hprepos in Hr'. lia.
    - lia.
    - cbn in Ep. lia. }
  rewrite insert_trip_stop_accepts in H; try assumption.
  2:{ eapply chosen_source_has_source; eauto. }
  fold stop in H.
  (* the invalidation *)
  set (db2 := with_trip_stops (trip_stops db1 ++ [stop]) (advance_stop_seq db1)) in *.
  assert (Hinv : invalidate tripId (position lst) (Some stop) db2
                 = (with_segments
                      (filter (fun g => negb (segment_key tripId (stop_id pred)
                                                (stop_id lst) g))
                         (trip_route_segments db)) db2,
                    Returns (Created stop))).
  { unfold invalidate, bind, delete_segments, select_stops, ret.
    cbn [with_segments trip_stops].
    assert (E : filter (fun g => negb ((segment_trip_id g =? tripId)
                                       && touches (stop_id stop) g))
                  (trip_route_segments db2) = trip_route_segments db).
    { cbn [db2 db1 with_trip_stops advance_stop_seq trip_route_segments].
      apply filter_all. intros g Hg.
      unfold segments_integrity in Hfk. rewrite Forall_forall in Hfk, Hseq.
      destruct (Hfk g Hg) as [Hfrom Hto].
      apply Hseq in Hfrom. apply Hseq in Hto.
      replace (touches (stop_id stop) g) with false; [now rewrite andb_false_r|].
      symmetry. unfold touches. cbn [stop new_stop stop_id db1 with_trip_stops
                                       trip_stops_id_seq].
      apply orb_false_iff. split; apply Z.eqb_neq; lia. }
    rewrite E.
    assert (En : filter (fun s => (stop_trip_id s =? tripId)
                                  && ((position s =? position lst - 1)
                                      || (position s =? position lst + 1)))
                   (trip_stops db2)
                 = [pred; set_position (position lst + 1) lst]).
    { cbn [db2 db1 with_trip_stops trip_stops].
      rewrite filter_app. cbn [filter stop new_stop stop_trip_id position].
      replace (position lst =? position lst - 1) with false
        by (symmetry; apply Z.eqb_neq; lia).
      replace (position lst =? position lst + 1) with false
        by (symmetry; apply Z.eqb_neq; lia).
      rewrite andb_false_r, app_nil_r.
      transitivity (filter (fun s => (position s =? position lst - 1)
                                     || (position s =? position lst + 1))
                      (filter (fun s => stop_trip_id s =? tripId) rows1)).
      { clear. induction rows1 as [|s l IH]; [reflexivity|].
        cbn [filter]. destruct (stop_trip_id s =? tripId); cbn [andb filter];
          [destruct (_ || _)|]; now rewrite IH. }
      rewrite Hrows1, filter_app. rewrite filter_none.
      - cbn [app filter set_position position].
        replace (position pred =? position lst - 1) with true
          by (symmetry; apply Z.eqb_eq; lia).
        rewrite Z.eqb_refl, orb_true_r. reflexivity.
      - intros s Hs. apply Hprepos in Hs. apply orb_false_iff.
        split; apply Z.eqb_neq; lia. }
    rewrite En. reflexivity. }
  rewrite H. unfold serve. rewrite Hinv. cbn [fst snd].
  exists stop. split; [reflexivity|]. split; [reflexivity|]. split; [reflexivity|].
  assert (Hafter : stops_of tripId (with_segments
                      (filter (fun g => negb (segment_key tripId (stop_id pred)
                                                (stop_id lst) g))
                         (trip_route_segments db)) db2)
                   = pre ++ [pred; set_position (position lst + 1) lst; stop]).
  { unfold stops_of. cbn [with_segments db2 db1 with_trip_stops trip_stops].
    rewrite filter_app, Hrows1. cbn [filter stop new_stop stop_trip_id].
    rewrite Z.eqb_refl, <- app_assoc. reflexivity. }
  assert (Hids : NoDup (map stop_id (pre ++ [pred; lst]))).
  { rewrite <- Hstops. unfold stops_of. now apply NoDup_map_filter. }
  assert (Hfresh : ~ In (stop_id stop) (map stop_id (pre ++ [pred; lst]))).
  { intros Hi. rewrite <- Hstops in Hi. apply in_map_iff in Hi.
    destruct Hi as [r [Er Hr]]. apply Hin in Hr. destruct Hr as [Hr _].
    rewrite Forall_forall in Hseq. apply (in_map stop_id) in Hr.
    apply Hseq in Hr. rewrite Er in Hr. cbn in Hr. lia. }
  assert (Hsorted :
            map position (order_by_position
                            (pre ++ [pred; set_position (position lst + 1) lst; stop]))
            = zseq 0 (List.length
                        (pre ++ [pred; set_position (position lst + 1) lst; stop]))
            /\ map stop_id (order_by_position
                              (pre ++ [pred; set_position (position lst + 1) lst; stop]))
               = map stop_id pre ++ [stop_id pred; stop_id stop; stop_id lst]).
  { rewrite map_app in Hids, Hfresh. cbn [map] in Hids, Hfresh.
    assert (Hpre_nd : NoDup (map stop_id pre))
      by (apply NoDup_app_remove_r in Hids; exact Hids).
    assert (Hnotpre : forall x, In x [stop_id pred; stop_id stop; stop_id lst] ->
                        ~ In x (map stop_id pre)).
    { intros x [<- | [<- | [<- | []]]] Hx.
      - apply NoDup_remove_2 in Hids. apply Hids. apply in_or_app. now left.
      - apply Hfresh. apply in_or_app. now left.
      - apply (NoDup_remove_2 (map stop_id pre ++ [stop_id pred]) [] (stop_id lst)).
        + rewrite <- app_assoc. exact Hids.
        + rewrite app_nil_r. apply in_or_app. now left. }
    assert (Hpl : stop_id pred <> stop_id lst).
    { intros E. apply NoDup_remove_2 in Hids. apply Hids.
      apply in_or_app. right. left. now symmetry. }
    assert (Hsl : stop_id stop <> stop_id lst).
    { intros E. apply Hfresh. apply in_or_app. right. right. left. now symmetry. }
    assert (Hsp : stop_id stop <> stop_id pred).
    { intros E. apply Hfresh. apply in_or_app. right. left. now symmetry. }
    apply order_by_position_ids.
    - rewrite map_app. cbn [map set_position stop_id].
      change [stop_id pred; stop_id lst; stop_id stop]
        with ([stop_id pred; stop_id lst] ++ [stop_id stop]).
      rewrite app_assoc.
      eapply Permutation_NoDup; [apply Permutation_cons_append|].
      constructor; [exact Hfresh | exact Hids].
    - rewrite map_app. cbn [map set_position stop_id].
      apply Permutation_app_head. apply perm_skip. apply perm_swap.
    - intros s Hs. apply in_app_or in Hs. destruct Hs as [Hs | Hs].
      + apply index_of_stored; [assumption | | assumption]. exact Hpre.
      + rewrite index_of_skip.
        2:{ apply Hnotpre. destruct Hs as [<- | [<- | [<- | []]]]; cbn; auto. }
        rewrite length_map. cbn [Z.add]. fold n. cbn [index_of].
        destruct Hs as [<- | [<- | [<- | []]]]; cbn [set_position stop_id position].
        * rewrite Z.eqb_refl. f_equal. lia.
        * apply Z.eqb_neq in Hpl. rewrite Z.eqb_sym in Hpl.
          pose proof Hsl as Hsl'. apply Z.eqb_neq in Hsl'. rewrite Z.eqb_sym in Hsl'.
          rewrite Hpl, Hsl', Z.eqb_refl. f_equal. lia.
        * apply Z.eqb_neq in Hsp. rewrite Hsp, Z.eqb_refl. f_equal.
          cbn [stop new_stop position]. lia. }
  split; [exact Hafter|]. split; [|split; [|reflexivity]].
  - unfold loadStopsWithCoords. rewrite map_map.
    match goal with |- map ?f _ = _ => change f with stop_id end.
    rewrite Hafter. apply Hsorted.
  - unfold contiguous. rewrite Hafter.
    destruct Hsorted as [Hs _]. rewrite <- Hs.
    apply Permutation_map, Permutation_sym, order_by_position_perm.
Qed.

(** ** The checks and keys of the tables along the requests on stops *)

Lemma stop_sound_position (db : Db) (p : Z) (st : trip_stop) :
  stop_sound db (set_position p st) <-> stop_sound db st.
Proof. reflexivity. Qed.

Lemma stop_sound_frame (db db' : Db) (st : trip_stop) :
  trips db' = trips db -> timeline_entries db' = timeline_entries db ->
  stop_sound db st -> stop_sound db' st.
Proof. unfold stop_sound. now intros -> ->. Qed.

Lemma same_columns_sound (db : Db) (rows rows' : list trip_stop) :
  map (set_position 0) rows' = map (set_position 0) rows ->
  Forall (stop_sound db) rows -> Forall (stop_sound db) rows'.
Proof.
  intros E H.
  assert (H0 : Forall (stop_sound db) (map (set_position 0) rows')).
  { rewrite E. rewrite Forall_forall in *. intros x Hx. apply in_map_iff in Hx.
    destruct Hx as [st [<- Hst]]. apply (proj2 (stop_sound_position db 0 st)). auto. }
  rewrite Forall_forall in *. intros st Hst.
  apply (proj1 (stop_sound_position db 0 st)). apply H0. now apply in_map.
Qed.

Lemma same_columns_owner (rows rows' : list trip_stop) :
  map (set_position 0) rows' = map (set_position 0) rows ->
  map owner rows' = map owner rows.
Proof.
  intros E.
  assert (H : forall l, map owner l = map owner (map (set_position 0) l))
    by (intros l; rewrite map_map; reflexivity).
  rewrite (H rows'), (H rows). now rewrite E.
Qed.

Lemma same_columns_filter (keep : trip_stop -> bool) (rows rows' : list trip_stop) :
  (forall p st, keep (set_position p st) = keep st) ->
  map (set_position 0) rows' = map (set_position 0) rows ->
  map (set_position 0) (filter keep rows') = map (set_position 0) (filter keep rows).
Proof.
  intros Hk. revert rows'. induction rows as [|r rows IH]; intros [|r' rows'];
    cbn [map filter]; try discriminate; [reflexivity|].
  intros E.
  pose proof (f_equal (hd r) E) as E1. pose proof (f_equal (@tl _) E) as E2.
  cbn [hd tl] in E1, E2.
  assert (Hr : keep r' = keep r)
    by (rewrite <- (Hk 0 r'), <- (Hk 0 r); now rewrite E1).
  rewrite Hr. destruct (keep r); cbn [map]; [f_equal; [exact E1|]|]; now apply IH.
Qed.

(** The segment table after deleting rows of it. *)
Lemma segments_sound_filter (db db' : Db) (keep : route_segment -> bool) :
  segments_sound db ->
  trip_route_segments db' = filter keep (trip_route_segments db) ->
  trip_route_segments_id_seq db <= trip_route_segments_id_seq db' ->
  (forall g, In g (trip_route_segments db') -> joins (trip_stops db) g ->
             joins (trip_stops db') g) ->
  segments_sound db'.
Proof.
  intros [Hk Hs Hu Hj] E Hseq Hjoin. constructor; rewrite ?E.
  - now apply NoDup_map_filter.
  - rewrite Forall_forall in *. intros i Hi. apply in_map_iff in Hi.
    destruct Hi as [g [<- Hg]]. apply filter_In in Hg.
    assert (segment_id g < trip_route_segments_id_seq db)
      by (apply Hs, in_map; tauto).
    lia.
  - now apply NoDup_map_filter.
  - rewrite Forall_forall in *. intros g Hg. apply Hjoin; [now rewrite E|].
    apply filter_In in Hg. apply Hj. tauto.
Qed.

Lemma joins_incl (rows rows' : list trip_stop) (g : route_segment) :
  incl (map owner rows) (map owner rows') -> joins rows g -> joins rows' g.
Proof. intros H [H1 H2]. split; now apply H. Qed.

(** *** [POST .../stops] *)

Lemma invalidate_filter (tripId pos : Z) (stop : trip_stop) (db : Db) :
  exists keep,
    fst (invalidate tripId pos (Some stop) db)
    = with_segments (filter keep (trip_route_segments db)) db.
Proof.
  unfold invalidate, bind, delete_segments, select_stops, ret.
  cbn [with_segments trip_stops].
  match goal with |- context [filter ?c (trip_stops db)] =>
    destruct (filter c (trip_stops db)) as [|n0 [|n1 [|n2 l]]] end;
    cbn [fst].
  4: idtac.
  all: try (eexists; reflexivity).
  exists (fun g => negb ((segment_trip_id g =? tripId) && touches (stop_id stop) g)
                   && negb (segment_key tripId (stop_id n0) (stop_id n1) g)).
  cbn [trip_route_segments]. unfold with_segments. cbn.
  f_equal.
  induction (trip_route_segments db) as [|g l IH]; [reflexivity|].
  cbn [filter]. destruct (negb ((segment_trip_id g =? tripId) && _)); cbn [andb filter];
    [destruct (negb (segment_key _ _ _ g))|]; now rewrite IH.
Qed.

Lemma filter_true {A} (l : list A) : filter (fun _ => true) l = l.
Proof. apply filter_all. reflexivity. Qed.

Lemma place_columns (tripId : Z) (body : stop_body) (db : Db) :
  map (set_position 0) (trip_stops (fst (place tripId body db)))
  = map (set_position 0) (trip_stops db)
  /\ trip_route_segments_id_seq (fst (place tripId body db))
     = trip_route_segments_id_seq db.
Proof.
  pose proof (place_cases tripId body db) as H.
  destruct (body_position body) as [pos|]; [|rewrite H; cbn; auto].
  destruct (update_rows _ _ _ _) as [rows|] eqn:E; rewrite H; cbn; auto.
  apply update_rows_result in E. cbn [app] in E. subst rows.
  rewrite update_position_columns. auto.
Qed.

Lemma insert_trip_stop_sound (tripId pos : Z) entry wl wn (db db2 : Db)
  (stop : trip_stop) :
  insert_trip_stop tripId pos entry wl wn db = (db2, Returns stop) ->
  stop_sound db stop.
Proof.
  intros H. pose proof (insert_trip_stop_returns _ _ _ _ _ _ _ _ H) as [Ht He].
  unfold insert_trip_stop in H.
  destruct (stop_has_source _) eqn:Hs; cbn [negb] in H; [|discriminate].
  destruct (mem_key _ _); [discriminate|].
  destruct (negb (mem_id tripId (trips db))); [discriminate|].
  destruct (match entry with Some e => _ | None => false end); [discriminate|].
  injection H as _ <-. repeat split; assumption.
Qed.

Lemma post_stop_shape (tripId : Z) (body : stop_body) (db : Db) :
  exists rows1 keep,
    map (set_position 0) rows1 = map (set_position 0) (trip_stops db)
    /\ trip_route_segments (fst (post_stop tripId body db))
       = filter keep (trip_route_segments db)
    /\ trips (fst (post_stop tripId body db)) = trips db
    /\ timeline_entries (fst (post_stop tripId body db)) = timeline_entries db
    /\ trip_route_segments_id_seq (fst (post_stop tripId body db))
       = trip_route_segments_id_seq db
    /\ (trip_stops (fst (post_stop tripId body db)) = rows1
        \/ exists stop,
             trip_stops (fst (post_stop tripId body db)) = rows1 ++ [stop]
             /\ stop_sound db stop).
Proof.
  pose proof (post_stop_cases tripId body db) as H.
  pose proof (place_frame tripId body db) as [_ [Hsegs [_ [Htrips Hentries]]]].
  pose proof (place_columns tripId body db) as [Hcols Hseq].
  destruct (place tripId body db) as [db1 [pos|e]]; cbn [fst] in *.
  2:{ exists (trip_stops db1), (fun _ => true). rewrite H, filter_true. cbn [fst].
      auto 7. }
  destruct (chosen_source body) as [[[entry wl] wn]|].
  2:{ exists (trip_stops db1), (fun _ => true). rewrite H, filter_true. cbn [fst].
      auto 7. }
  destruct (insert_trip_stop tripId pos entry wl wn db1) as [db2 [stop|e]] eqn:E.
  2:{ destruct (insert_trip_stop_cases tripId pos entry wl wn db1) as [[c E'] | E'];
        rewrite E' in E; [|discriminate]. injection E as <- _.
      exists (trip_stops db1), (fun _ => true). rewrite H, filter_true. cbn [fst].
      auto 7. }
  pose proof (insert_trip_stop_sound _ _ _ _ _ _ _ _ E) as Hsound.
  destruct (insert_trip_stop_cases tripId pos entry wl wn db1) as [[c E'] | E'];
    rewrite E' in E; [discriminate|]. injection E as <- <-.
  match type of H with _ = serve (invalidate ?t ?p (Some ?s)) ?d =>
    destruct (invalidate_filter t p s d) as [keep Hk];
    destruct (invalidate_created t p s d) as [db3 [E3 _]]
  end.
  rewrite H. unfold serve. rewrite E3 in *. cbn [fst] in *. subst db3.
  exists (trip_stops db1), keep.
  cbn [with_segments with_trip_stops advance_stop_seq trip_stops trips
         timeline_entries trip_route_segments trip_route_segments_id_seq].
  repeat split; try assumption; try congruence.
  right. eexists. split; [reflexivity|].
  eapply stop_sound_frame; [| |exact Hsound]; congruence.
Qed.

Lemma post_stop_sound (tripId : Z) (body : stop_body) (db : Db) :
  sound db -> sound (fst (post_stop tripId body db)).
Proof.
  intros [Hint [Hstops Hsegs]].
  assert (Hfk : segments_integrity db).
  { unfold segments_integrity. destruct Hsegs as [_ _ _ Hj].
    rewrite Forall_forall in *. intros g Hg. destruct (Hj g Hg) as [H1 H2].
    apply in_map_iff in H1, H2.
    destruct H1 as [a [Ea Ha]], H2 as [b [Eb Hb]].
    injection Ea as Ea _. injection Eb as Eb _.
    split; apply in_map_iff; eauto. }
  pose proof (post_stop_integrity tripId body db (conj Hint Hfk)) as [Hint' _].
  destruct (post_stop_shape tripId body db)
    as [rows1 [keep [Hcols [Hfilter [Htrips [Hentries [Hseq Hrows]]]]]]].
  assert (Hsound1 : Forall (stop_sound (fst (post_stop tripId body db))) rows1).
  { apply (same_columns_sound _ (trip_stops db)); [assumption|].
    rewrite Forall_forall in *. intros st Hst.
    apply (stop_sound_frame db); auto. }
  assert (Hown : incl (map owner (trip_stops db))
                      (map owner (trip_stops (fst (post_stop tripId body db))))).
  { rewrite <- (same_columns_owner _ _ Hcols).
    destruct Hrows as [-> | [stop [-> _]]]; [apply incl_refl|].
    rewrite map_app. apply incl_appl, incl_refl. }
  split; [assumption|]. split.
  - destruct Hrows as [-> | [stop [-> Hstop]]]; [assumption|].
    apply Forall_app. split; [assumption|]. constructor; [|constructor].
    apply (stop_sound_frame db); auto.
  - apply (segments_sound_filter db _ keep); try assumption; [lia|].
    intros g _. now apply joins_incl.
Qed.

Lemma sound_segments_integrity (db : Db) : sound db -> integrity db.
Proof.
  intros [Hint [_ [_ _ _ Hj]]]. split; [assumption|].
  unfold segments_integrity. rewrite Forall_forall in *.
  intros g Hg. destruct (Hj g Hg) as [H1 H2]. apply in_map_iff in H1, H2.
  destruct H1 as [a [Ea Ha]], H2 as [b [Eb Hb]].
  injection Ea as Ea _. injection Eb as Eb _.
  split; apply in_map_iff; eauto.
Qed.

(** *** [DELETE .../stops/:stopId] *)

Lemma delete_stop_shape (tripId stopId : Z) (db : Db) :
  fst (delete_stop tripId stopId db) = db
  \/ (map (set_position 0) (trip_stops (fst (delete_stop tripId stopId db)))
      = map (set_position 0)
          (filter (fun s => negb (stop_id s =? stopId)) (trip_stops db))
      /\ trip_route_segments (fst (delete_stop tripId stopId db))
         = filter (fun g => negb (touches stopId g)) (trip_route_segments db)
      /\ trips (fst (delete_stop tripId stopId db)) = trips db
      /\ timeline_entries (fst (delete_stop tripId stopId db)) = timeline_entries db
      /\ trip_route_segments_id_seq (fst (delete_stop tripId stopId db))
         = trip_route_segments_id_seq db).
Proof.
  pose proof (delete_stop_cases tripId stopId db) as H.
  destruct (filter _ (trip_stops db)) as [|stop found]; [left; now rewrite H|].
  right. destruct (update_rows _ _ _ _) as [rows|] eqn:E; rewrite H; cbn; auto 6.
  apply update_rows_result in E. cbn [app] in E. subst rows.
  rewrite update_position_columns. auto 6.
Qed.

Lemma delete_stop_sound (tripId stopId : Z) (db : Db) :
  sound db -> sound (fst (delete_stop tripId stopId db)).
Proof.
  intros Hs.
  pose proof (delete_stop_integrity tripId stopId db (sound_segments_integrity db Hs))
    as [Hint' _].
  destruct Hs as [Hint [Hstops Hsegs]].
  destruct (delete_stop_shape tripId stopId db)
    as [-> | [Hcols [Hfilter [Htrips [Hentries Hseq]]]]];
    [exact (conj Hint (conj Hstops Hsegs))|].
  split; [assumption|]. split.
  - apply (same_columns_sound _ _ _ Hcols).
    rewrite Forall_forall in *. intros st Hst. apply filter_In in Hst.
    apply (stop_sound_frame db); try assumption. apply Hstops. tauto.
  - apply (segments_sound_filter db _ (fun g => negb (touches stopId g)));
      try assumption; [lia|].
    intros g Hg [H1 H2]. rewrite Hfilter in Hg. apply filter_In in Hg.
    destruct Hg as [_ Hg]. apply negb_true_iff in Hg. unfold touches in Hg.
    apply orb_false_iff in Hg. destruct Hg as [Hfrom Hto].
    apply Z.eqb_neq in Hfrom, Hto.
    unfold joins. rewrite (same_columns_owner _ _ Hcols).
    assert (Hkeep : forall x t, x <> stopId ->
              In (x, t) (map owner (trip_stops db)) ->
              In (x, t) (map owner (filter (fun s => negb (stop_id s =? stopId))
                                      (trip_stops db)))).
    { intros x t Hx Hi. apply in_map_iff in Hi. destruct Hi as [st [E Hst]].
      apply in_map_iff. exists st. split; [assumption|]. apply filter_In.
      split; [assumption|]. apply negb_true_iff, Z.eqb_neq.
      injection E as E _. congruence. }
    split; apply Hkeep; assumption.
Qed.

(** *** [PUT .../stops/reorder] *)

Lemma put_reorder_preserves {X} (proj : Db -> X) (tripId : Z) (order : list Z)
  (db : Db) :
  (forall f i x d, proj (fst (assign tripId f i x d)) = proj d) ->
  proj (fst (put_reorder tripId (OrderArray order) db))
  = proj (without_segments tripId db).
Proof.
  intros Hstep.
  unfold put_reorder, serve, put_reorder_handler, bind.
  change (delete_segments (fun g => segment_trip_id g =? tripId) db)
    with (without_segments tripId db, @Returns unit tt).
  cbv beta iota.
  pose proof (for_each_preserves proj (stage tripId)
                (Hstep (fun i => - (i + 1))) order 0
                (without_segments tripId db)) as H1.
  destruct (for_each 0 order (stage tripId) (without_segments tripId db))
    as [db1 [u|e]]; cbn [fst] in H1.
  - pose proof (for_each_preserves proj (finalize tripId)
                  (Hstep (fun i => i)) order 0 db1) as H2.
    destruct (for_each 0 order (finalize tripId) db1) as [db2 [u'|e]];
      cbn [fst snd ret] in *; rewrite H2, H1; reflexivity.
  - cbn [fst]. rewrite H1. reflexivity.
Qed.

Lemma put_reorder_sound (tripId : Z) (body : order_field) (db : Db) :
  sound db -> sound (fst (put_reorder tripId body db)).
Proof.
  intros Hs. destruct body as [|order]; [exact Hs|].
  pose proof (put_reorder_integrity tripId (OrderArray order) db
                (sound_segments_integrity db Hs)) as [Hint' _].
  destruct Hs as [Hint [Hstops Hsegs]].
  assert (H : (map (set_position 0)
                 (trip_stops (fst (put_reorder tripId (OrderArray order) db))),
               trips (fst (put_reorder tripId (OrderArray order) db)),
               timeline_entries (fst (put_reorder tripId (OrderArray order) db)),
               trip_route_segments_id_seq
                 (fst (put_reorder tripId (OrderArray order) db)))
              = (map (set_position 0) (trip_stops db), trips db,
                 timeline_entries db, trip_route_segments_id_seq db)).
  { apply (put_reorder_preserves
             (fun d => (map (set_position 0) (trip_stops d), trips d,
                        timeline_entries d, trip_route_segments_id_seq d))).
    intros f i x d. pose proof (assign_frame tripId f i x d) as Hf.
    injection Hf as -> _ -> -> _ ->. reflexivity. }
  pose proof (put_reorder_preserves trip_route_segments tripId order db
                (assign_segments tripId)) as Hg.
  cbn [without_segments delete_segments fst with_segments trip_route_segments] in Hg.
  pose proof (f_equal (fun t => fst (fst (fst t))) H) as Hcols.
  pose proof (f_equal (fun t => snd (fst (fst t))) H) as Htrips.
  pose proof (f_equal (fun t => snd (fst t)) H) as Hentries.
  pose proof (f_equal snd H) as Hseq.
  cbn [fst snd] in Hcols, Htrips, Hentries, Hseq. clear H.
  split; [assumption|]. split.
  - apply (same_columns_sound _ _ _ Hcols).
    rewrite Forall_forall in *. intros st Hst.
    apply (stop_sound_frame db); auto.
  - apply (segments_sound_filter db _ (fun g => negb (segment_trip_id g =? tripId)));
      try assumption; [lia|].
    intros g _. apply joins_incl. rewrite (same_columns_owner _ _ Hcols).
    apply incl_refl.
Qed.

(** *** [POST .../routes] *)

Lemma upsert_sound (tripId fromId toId : Z) geometry distance duration (db : Db) :
  In (fromId, tripId) (map owner (trip_stops db)) ->
  In (toId, tripId) (map owner (trip_stops db)) ->
  sound db ->
  sound (fst (upsert_segment tripId fromId toId geometry distance duration db)).
Proof.
  intros Hfrom Hto [[Hpk Hseq Huniq] [Hstops [Hk Hs Hu Hj]]].
  split; [now constructor|]. split; [exact Hstops|].
  unfold upsert_segment.
  destruct (existsb (segment_key tripId fromId toId) (trip_route_segments db)) eqn:E.
  - match goal with |- context [map ?u (trip_route_segments db)] => set (upd := u) end.
    assert (Hupd : forall g, segment_id (upd g) = segment_id g
                             /\ segment_triple (upd g) = segment_triple g
                             /\ from_stop_id (upd g) = from_stop_id g
                             /\ to_stop_id (upd g) = to_stop_id g
                             /\ segment_trip_id (upd g) = segment_trip_id g).
    { intros g. unfold upd. destruct (segment_key tripId fromId toId g); auto. }
    constructor; cbn [fst trip_route_segments trip_route_segments_id_seq trip_stops].
    + rewrite map_map. erewrite map_ext; [exact Hk|]. intros g. apply Hupd.
    + rewrite map_map. erewrite map_ext; [|intros g; apply Hupd].
      rewrite Forall_forall in *. intros i Hi. apply Hs in Hi. lia.
    + rewrite map_map. erewrite map_ext; [exact Hu|]. intros g. apply Hupd.
    + rewrite Forall_forall in *. intros g' Hg'. apply in_map_iff in Hg'.
      destruct Hg' as [g [<- Hg]]. specialize (Hj g Hg).
      destruct (Hupd g) as [_ [_ [H1 [H2 H3]]]].
      unfold joins in *. now rewrite H1, H2, H3.
  - constructor; cbn [fst trip_route_segments trip_route_segments_id_seq trip_stops].
    + rewrite map_app. cbn [map segment_id].
      eapply Permutation_NoDup; [apply Permutation_cons_append|].
      constructor; [|assumption].
      intros Hin. rewrite Forall_forall in Hs. apply Hs in Hin. lia.
    + rewrite map_app. apply Forall_app. split.
      * rewrite Forall_forall in *. intros i Hi. apply Hs in Hi. lia.
      * repeat constructor. cbn. lia.
    + rewrite map_app. cbn [map]. unfold segment_triple at 2. cbn.
      eapply Permutation_NoDup; [apply Permutation_cons_append|].
      constructor; [|assumption].
      intros Hin. apply in_map_iff in Hin. destruct Hin as [g [Eg Hg]].
      injection Eg as E1 E2 E3.
      assert (Ht : existsb (segment_key tripId fromId toId)
                     (trip_route_segments db) = true).
      { apply existsb_exists. exists g. split; [assumption|].
        unfold segment_key. rewrite E1, E2, E3, !Z.eqb_refl. reflexivity. }
      congruence.
    + apply Forall_app. split; [assumption|]. repeat constructor; assumption.
Qed.

Lemma routes_loop_sound (svc : directions) (tripId : Z) (force : bool)
  (stops : list stop_with_coords) : forall db,
  (forall s, In s stops -> In (id s, tripId) (map owner (trip_stops db))) ->
  sound db ->
  sound (fst (fst (routes_loop svc tripId force stops db))).
Proof.
  induction stops as [|from rest IH]; intros db Hin Hs; [exact Hs|].
  destruct rest as [|to rest']; [exact Hs|].
  rewrite routes_loop_step.
  assert (Hrest : forall s, In s (to :: rest') ->
                    In (id s, tripId) (map owner (trip_stops db)))
    by (intros s Hi; apply Hin; now right).
  destruct (negb force && cached tripId from to db); [now apply IH|].
  destruct (fetchRouteSegment svc (query_of from to)) as [r|e]; [|exact Hs].
  specialize (IH (fst (upsert_segment tripId (id from) (id to)
                         (geometry r) (distance r) (duration r) db)) Hrest).
  destruct (routes_loop svc tripId force (to :: rest') _) as [[db2 res] calls].
  cbn [fst] in *. apply IH. apply upsert_sound; [| |assumption]; apply Hin.
  - now left.
  - right. now left.
Qed.

Lemma post_routes_sound (svc : directions) (tripId : Z) (force : bool) (db : Db) :
  sound db -> sound (fst (fst (post_routes svc tripId force db))).
Proof.
  intros Hs. pose proof (post_routes_cases svc tripId force db) as Hc.
  destruct (_ <? 2); [now rewrite Hc|].
  assert (H0 : sound (routes_start tripId force db)).
  { unfold routes_start. destruct force; [|exact Hs].
    destruct Hs as [[Hpk Hseq Huniq] [Hstops Hsegs]].
    split; [now constructor|]. split; [exact Hstops|].
    apply (segments_sound_filter db _ (fun g => negb (segment_trip_id g =? tripId)));
      try assumption; [reflexivity | cbn; lia | auto]. }
  pose proof (routes_loop_sound svc tripId force (loadStopsWithCoords tripId db)
                (routes_start tripId force db)) as Hl.
  destruct (routes_loop _ _ _ _ _) as [[db1 [u|e]] calls];
    rewrite Hc; cbn [fst] in *; apply Hl; try assumption;
    intros s Hi; destruct (routes_start_frame tripId force db) as [-> _];
    unfold loadStopsWithCoords in Hi; apply in_map_iff in Hi;
    destruct Hi as [r [<- Hr]];
    apply (Permutation_in _ (order_by_position_perm _)) in Hr;
    apply filter_In in Hr; destruct Hr as [Hr Ht]; apply Z.eqb_eq in Ht;
    apply in_map_iff; exists r; (split; [|assumption]);
    unfold owner; cbn; now rewrite Ht.
Qed.

Lemma answer_sound (r : api_request) (db : Db) : sound db -> sound (answer r db).
Proof.
  intros H. destruct r as [t body | t stopId | t body | svc t force]; cbn [answer].
  - now apply post_stop_sound.
  - now apply delete_stop_sound.
  - now apply put_reorder_sound.
  - now apply post_routes_sound.
Qed.

(** ** The whole server *)

Lemma answer_frame (r : api_request) (db : Db) :
  trips (answer r db) = trips db
  /\ timeline_entries (answer r db) = timeline_entries db.
Proof.
  destruct r as [t body | t stopId | t body | svc t force]; cbn [answer].
  - destruct (post_stop_shape t body db) as [_ [_ [_ [_ [H1 [H2 _]]]]]]. auto.
  - destruct (delete_stop_shape t stopId db) as [-> | [_ [_ [H1 [H2 _]]]]]; auto.
  - destruct body as [|order]; [auto|].
    pose proof (put_reorder_preserves (fun d => (trips d, timeline_entries d))
                  t order db) as H.
    cbv beta in H. cbn [without_segments delete_segments fst with_segments trips
                          timeline_entries] in H.
    assert (E : (trips (fst (put_reorder t (OrderArray order) db)),
                 timeline_entries (fst (put_reorder t (OrderArray order) db)))
                = (trips db, timeline_entries db)).
    { apply H. intros f i x d. pose proof (assign_frame t f i x d) as Hf.
      injection Hf as _ _ -> -> _ _. reflexivity. }
    injection E as -> ->. auto.
  - pose proof (post_routes_cases svc t force db) as Hc.
    destruct (_ <? 2); [rewrite Hc; auto|].
    pose proof (routes_loop_frame svc t force (loadStopsWithCoords t db)
                  (routes_start t force db)) as [_ [H2 H3]].
    assert (H0 : trips (routes_start t force db) = trips db
                 /\ timeline_entries (routes_start t force db) = timeline_entries db)
      by (unfold routes_start; destruct force; auto).
    destruct H0 as [E2 E3].
    destruct (routes_loop _ _ _ _ _) as [[db1 [u|e]] calls]; rewrite Hc;
      cbn [fst] in *; split; congruence.
Qed.

Lemma tables_store (db : Db) (s : Server) :
  trips db = trips (tables s) ->
  timeline_entries db = timeline_entries (tables s) ->
  tables (store db s) = db.
Proof.
  destruct db as [t e r g q1 q2]. cbn [trips timeline_entries]. intros -> ->.
  reflexivity.
Qed.

Lemma tables_answer (r : api_request) (s : Server) :
  tables (store (answer r (tables s)) s) = answer r (tables s).
Proof.
  destruct (answer_frame r (tables s)) as [H1 H2]. now apply tables_store.
Qed.

Lemma stop_sound_weaken (db db' : Db) (st : trip_stop) :
  incl (trips db) (trips db') ->
  incl (map entry_id (timeline_entries db)) (map entry_id (timeline_entries db')) ->
  stop_sound db st -> stop_sound db' st.
Proof.
  intros Ht He [H1 [H2 H3]]. repeat split; [assumption | now apply Ht |].
  destruct (timeline_entry_id st); [now apply He | exact I].
Qed.

Lemma api_consistent (r : api_request) (s : Server) :
  consistent s -> consistent (store (answer r (tables s)) s).
Proof.
  intros [H1 H2 H3 H4 H5]. constructor; try assumption.
  rewrite tables_answer. now apply answer_sound.
Qed.

Lemma post_trip_consistent (now : Z) (body : trip_body) (s : Server) :
  consistent s -> consistent (fst (post_trip now body s)).
Proof.
  intros Hc. unfold post_trip.
  destruct (name_or_null (trip_name body)) as [name|]; [|exact Hc].
  destruct Hc as [H1 H2 H3 H4 [[Hpk Hseq Huniq] [Hstops [Hk Hs Hu Hj]]]].
  cbn [fst]. constructor; cbn [with_trips trips_table trips_id_seq timeline_table];
    try assumption.
  - rewrite map_app. cbn [map Trips.id].
    eapply Permutation_NoDup; [apply Permutation_cons_append|].
    constructor; [|assumption].
    intros Hin. rewrite Forall_forall in H2. apply H2 in Hin. lia.
  - rewrite map_app. apply Forall_app. split.
    + rewrite Forall_forall in *. intros i Hi. apply H2 in Hi. lia.
    + repeat constructor. cbn. lia.
  - split; [now constructor|]. split; [|now constructor].
    cbn [tables with_trips stops_table trip_stops] in *.
    rewrite Forall_forall in *. intros st Hst.
    eapply stop_sound_weaken; [| |apply (Hstops st Hst)].
    + cbn. rewrite map_app. apply incl_appl, incl_refl.
    + apply incl_refl.
Qed.

Lemma put_trip_tables (now tripId : Z) (body : trip_body) (s : Server) :
  tables (fst (put_trip now tripId body s)) = tables s
  /\ trips_id_seq (fst (put_trip now tripId body s)) = trips_id_seq s
  /\ timeline_table (fst (put_trip now tripId body s)) = timeline_table s.
Proof.
  unfold put_trip.
  destruct (filter _ (trips_table s)) as [|t found]; [auto|].
  cbn [fst]. repeat split. unfold tables. cbn. f_equal.
  rewrite map_map. apply map_ext. intros r.
  now destruct (Trips.id r =? tripId).
Qed.

Lemma put_trip_consistent (now tripId : Z) (body : trip_body) (s : Server) :
  consistent s -> consistent (fst (put_trip now tripId body s)).
Proof.
  intros [H1 H2 H3 H4 H5].
  destruct (put_trip_tables now tripId body s) as [Ht [Hseq Htl]].
  assert (Hids : map Trips.id (trips_table (fst (put_trip now tripId body s)))
                 = map Trips.id (trips_table s))
    by exact (f_equal trips Ht).
  constructor; rewrite ?Hids, ?Hseq, ?Htl, ?Ht; assumption.
Qed.

Lemma delete_trip_consistent (tripId : Z) (s : Server) :
  consistent s -> consistent (fst (delete_trip tripId s)).
Proof.
  intros Hc. unfold delete_trip.
  destruct (existsb _ (trips_table s)); [|exact Hc].
  destruct Hc as [H1 H2 H3 H4 [[Hpk Hseq Huniq] [Hstops Hsegs]]].
  cbn [fst]. constructor; cbn [trips_table trips_id_seq timeline_table];
    try assumption.
  - now apply NoDup_map_filter.
  - rewrite Forall_forall in *. intros i Hi. apply in_map_iff in Hi.
    destruct Hi as [t [<- Ht]]. apply filter_In in Ht. apply H2, in_map. tauto.
  - cbn [tables trip_stops trips_table] in *.
    split; [|split].
    + constructor; cbn [tables trip_stops trip_stops_id_seq stops_table stops_id_seq].
      * now apply NoDup_map_filter.
      * rewrite Forall_forall in *. intros i Hi. apply in_map_iff in Hi.
        destruct Hi as [st [<- Hst]]. apply filter_In in Hst.
        apply Hseq, in_map. tauto.
      * now apply NoDup_map_filter.
    + cbn [tables trip_stops stops_table]. rewrite Forall_forall in *.
      intros st Hst. apply filter_In in Hst. destruct Hst as [Hst Hne].
      destruct (Hstops st Hst) as [Ha [Hb Hc]]. repeat split; [assumption| |assumption].
      cbn [tables trips trips_table] in *. apply in_map_iff in Hb.
      destruct Hb as [t [Et Ht]]. apply in_map_iff. exists t. split; [assumption|].
      apply filter_In. split; [assumption|]. now rewrite Et.
    + eapply (segments_sound_filter (tables s)); [exact Hsegs | reflexivity | cbn; lia |].
      cbn [tables trip_route_segments trip_stops segments_table stops_table].
      intros g Hg [Hfrom Hto]. apply filter_In in Hg. destruct Hg as [_ Hg].
      apply andb_true_iff in Hg. destruct Hg as [Hg _].
      assert (Hkeep : forall x, In (x, segment_trip_id g) (map owner (stops_table s)) ->
                In (x, segment_trip_id g)
                  (map owner (filter (fun st => negb (stop_trip_id st =? tripId))
                                (stops_table s)))).
      { intros x Hx. apply in_map_iff in Hx. destruct Hx as [st [E Hst]].
        apply in_map_iff. exists st. split; [assumption|]. apply filter_In.
        split; [assumption|]. injection E as _ E. now rewrite E. }
      split; apply Hkeep; assumption.
Qed.

Lemma relocated_violated (lng lat : number) (r : Timeline.row) :
  Timeline.violated r = None -> Timeline.violated (relocated lng lat r) = None.
Proof.
  unfold Timeline.violated, Timeline.valid_activity_data, Timeline.valid_visit_data.
  cbn [relocated Timeline.entry_type Timeline.route Timeline.location Timeline.place_id].
  destruct (Timeline.entry_type r), (Timeline.route r), (Timeline.location r),
    (Timeline.place_id r); cbn; congruence.
Qed.

Lemma patch_timeline_consistent (entryId : Z) (body : location_body) (s : Server) :
  consistent s -> consistent (fst (patch_timeline entryId body s)).
Proof.
  intros Hc. unfold patch_timeline.
  destruct (patch_lng body) as [lng|], (patch_lat body) as [lat|]; try exact Hc.
  destruct (Timeline.first_violated _); [exact Hc|].
  destruct Hc as [H1 H2 H3 H4 [Hint [Hstops Hsegs]]].
  cbn [fst]. constructor; cbn [with_timeline trips_table trips_id_seq timeline_table];
    try assumption.
  - rewrite map_map. erewrite map_ext; [exact H3|].
    intros r. now destruct (Timeline.id r =? entryId).
  - rewrite Forall_forall in *. intros r' Hr'. apply in_map_iff in Hr'.
    destruct Hr' as [r [<- Hr]].
    destruct (Timeline.id r =? entryId); [apply relocated_violated|]; auto.
  - split; [destruct Hint; now constructor|]. split; [|destruct Hsegs; now constructor].
    cbn [tables with_timeline stops_table trip_stops] in *.
    rewrite Forall_forall in *. intros st Hst.
    eapply stop_sound_weaken; [| |apply (Hstops st Hst)]; cbn; [apply incl_refl|].
    rewrite !map_map. erewrite map_ext; [apply incl_refl|].
    intros r. cbn. now destruct (Timeline.id r =? entryId).
Qed.

Lemma serve_request_consistent (r : server_request) (s : Server) :
  consistent s -> consistent (serve_request r s).
Proof.
  intros H.
  destruct r as [r | now body | now t body | t | e body]; cbn [serve_request].
  - now apply api_consistent.
  - now apply post_trip_consistent.
  - now apply put_trip_consistent.
  - now apply delete_trip_consistent.
  - now apply patch_timeline_consistent.
Qed.

(** X10.  What the schema declares of the four tables (the primary
    keys, [unique_position_per_trip], [unique_segment], the foreign keys,
    [stop_has_source], [valid_visit_data], [valid_activity_data]), and that
    a cached segment joins two stops of its own trip, holds after every
    sequence of requests on a server on which it held before. *)
Theorem server_stays_consistent (rs : list server_request) (s : Server) :
  consistent s -> consistent (serve_all rs s).
Proof.
  revert s. induction rs as [|r rs IH]; intros s H; [exact H|].
  cbn [serve_all fold_left]. apply IH. now apply serve_request_consistent.
Qed.

(** ** [POST /api/trips] and [GET /api/trips/:id] *)

Lemma find_none_id (tripId : Z) (rows : list Trips.row) :
  ~ In tripId (map Trips.id rows) ->
  find (fun t => Trips.id t =? tripId) rows = None.
Proof.
  induction rows as [|r rows IH]; cbn [map find]; intros H; [reflexivity|].
  replace (Trips.id r =? tripId) with false.
  - apply IH. intros Hin. apply H. now right.
  - symmetry. apply Z.eqb_neq. intros E. apply H. now left.
Qed.

Lemma find_after {A} (p : A -> bool) (l1 l2 : list A) :
  find p l1 = None -> find p (l1 ++ l2) = find p l2.
Proof.
  induction l1 as [|a l1 IH]; cbn [app find]; [reflexivity|].
  destruct (p a); [discriminate | exact IH].
Qed.

Lemma no_stops_of_missing_trip (tripId : Z) (db : Db) :
  sound db -> ~ In tripId (trips db) ->
  stops_of tripId db = []
  /\ filter (fun g => segment_trip_id g =? tripId) (trip_route_segments db) = [].
Proof.
  intros [_ [Hstops [_ _ _ Hj]]] Hno. rewrite Forall_forall in *.
  assert (Hnone : forall st, In st (trip_stops db) -> stop_trip_id st <> tripId).
  { intros st Hst E. destruct (Hstops st Hst) as [_ [H _]]. congruence. }
  split; apply filter_none.
  - intros st Hst. apply Z.eqb_neq. now apply Hnone.
  - intros g Hg. apply Z.eqb_neq. intros E. destruct (Hj g Hg) as [H _].
    apply in_map_iff in H. destruct H as [st [Eo Hst]]. injection Eo as _ Et.
    apply (Hnone st Hst). congruence.
Qed.

(** X11.  [POST /api/trips] without a name, or with an empty one, is
    answered 400 and changes nothing.  With a name, on a server that
    satisfies the schema, it is answered 201 with the new trip, stored last
    under an id no trip has, with the given name and the colour ["#e11d48"]
    when the body gives none; [GET /api/trips/:id] of that id then returns
    the trip without stops and without route. *)
Theorem new_trip_is_empty (now : Z) (body : trip_body) (s : Server) :
  (name_or_null (trip_name body) = None ->
     post_trip now body s = (s, Status400 "name required"))
  /\ forall name, name_or_null (trip_name body) = Some name ->
       consistent s ->
       exists t,
         snd (post_trip now body s) = Status201 t
         /\ Trips.name t = name
         /\ Trips.color t <> None
         /\ (name_or_null (trip_color body) = None -> Trips.color t = Some "#e11d48")
         /\ ~ In (Trips.id t) (map Trips.id (trips_table s))
         /\ trips_table (fst (post_trip now body s)) = trips_table s ++ [t]
         /\ get_trip (Trips.id t) (fst (post_trip now body s))
            = Status200 (t, {| trip := Trips.id t; stops := []; route := [] |}).
Proof.
  unfold post_trip. split; [now intros ->|].
  intros name Hname Hc. rewrite Hname. cbn [fst snd].
  eexists. split; [reflexivity|]. cbn [Trips.name Trips.color Trips.id].
  destruct Hc as [H1 H2 H3 H4 Hs].
  assert (Hfresh : ~ In (trips_id_seq s) (map Trips.id (trips_table s))).
  { intros Hin. rewrite Forall_forall in H2. apply H2 in Hin. lia. }
  repeat split; try assumption; try discriminate.
  - now intros ->.
  - unfold get_trip. cbn [with_trips trips_table].
    rewrite (find_after _ _ _ (find_none_id _ _ Hfresh)). cbn [find Trips.id].
    rewrite Z.eqb_refl.
    unfold buildTripResponse.
    match goal with |- context [mem_id ?t (trips ?d)] =>
      replace (mem_id t (trips d)) with true
    end.
    2:{ symmetry. apply mem_id_In. cbn. rewrite map_app. apply in_or_app.
        right. now left. }
    destruct (no_stops_of_missing_trip (trips_id_seq s) (tables s) Hs Hfresh)
      as [E1 E2].
    unfold loadStopsWithCoords.
    match goal with |- context [stops_of ?t ?d] =>
      change (stops_of t d) with (stops_of t (tables s))
    end.
    match goal with |- context [trip_route_segments ?d] =>
      change (trip_route_segments d) with (trip_route_segments (tables s))
    end.
    rewrite E1, E2. reflexivity.
Qed.

(** ** [PUT /api/trips/:id] *)

Lemma filter_by_key {A} (key : A -> Z) (k : Z) (l : list A) (a : A) :
  NoDup (map key l) -> In a l -> key a = k ->
  filter (fun x => key x =? k) l = [a].
Proof.
  induction l as [|x l IH]; cbn [map filter]; intros Hnd Hin Hk; [contradiction|].
  inversion Hnd as [|? ? Hnotin Hnd']; subst.
  destruct Hin as [-> | Hin].
  - rewrite Z.eqb_refl. f_equal. apply filter_none.
    intros y Hy. apply Z.eqb_neq. intros E. apply Hnotin. rewrite <- E.
    now apply in_map.
  - replace (key x =? key a) with false; [now apply IH|].
    symmetry. apply Z.eqb_neq. intros E. apply Hnotin. rewrite E. now apply in_map.
Qed.

(** X12.  With the ids of the trips a key, [PUT /api/trips/:id] of an id
    that names no trip is answered 404 and changes nothing.  Of a trip, it is
    answered 200 with the updated row: the fields the body gives are written
    and those it omits are kept, so that a description once set cannot be
    cleared; [id] and [created_at] are kept and [updated_at] is the instant
    of the update.  The other trips, and the stops and segments of every
    trip, are as before. *)
Theorem put_trip_keeps_omitted_fields (now tripId : Z) (body : trip_body) (s : Server) :
  NoDup (map Trips.id (trips_table s)) ->
  (~ In tripId (map Trips.id (trips_table s)) ->
     put_trip now tripId body s = (s, Status404 "Not found"))
  /\ forall t, In t (trips_table s) -> Trips.id t = tripId ->
       exists t',
         snd (put_trip now tripId body s) = Status200 t'
         /\ In t' (trips_table (fst (put_trip now tripId body s)))
         /\ Trips.id t' = tripId
         /\ Trips.created_at t' = Trips.created_at t
         /\ Trips.updated_at t' = now
         /\ (forall n, trip_name body = Some n -> Trips.name t' = n)
         /\ (trip_name body = None -> Trips.name t' = Trips.name t)
         /\ (forall d, trip_description body = Some d -> Trips.description t' = Some d)
         /\ (trip_description body = None ->
             Trips.description t' = Trips.description t)
         /\ (forall c, trip_color body = Some c -> Trips.color t' = Some c)
         /\ (trip_color body = None -> Trips.color t' = Trips.color t)
         /\ (Trips.description t <> None -> Trips.description t' <> None)
         /\ (forall r, In r (trips_table s) -> Trips.id r <> tripId ->
               In r (trips_table (fst (put_trip now tripId body s))))
         /\ tables (fst (put_trip now tripId body s)) = tables s.
Proof.
  intros Hnd. split.
  - intros Hno. unfold put_trip. rewrite filter_none; [reflexivity|].
    intros t Ht. apply Z.eqb_neq. intros E. apply Hno. rewrite <- E.
    now apply in_map.
  - intros t Ht Hid.
    pose proof (put_trip_tables now tripId body s) as [Htab _].
    unfold put_trip in *.
    rewrite (filter_by_key Trips.id tripId _ t Hnd Ht Hid) in *.
    cbn [fst snd] in *. exists (updated_trip now body t).
    split; [reflexivity|]. split.
    { cbn [with_trips trips_table]. apply in_map_iff. exists t.
      split; [|assumption]. now rewrite Hid, Z.eqb_refl. }
    unfold updated_trip.
    cbn [Trips.id Trips.created_at Trips.updated_at Trips.name Trips.description
           Trips.color].
    repeat split; try assumption; try reflexivity.
    + now intros n ->.
    + now intros ->.
    + now intros d ->.
    + now intros ->.
    + now intros c ->.
    + now intros ->.
    + unfold coalesce. destruct (trip_description body); [discriminate | auto].
    + intros r Hr Hne. cbn [with_trips trips_table]. apply in_map_iff. exists r.
      split; [|assumption]. apply Z.eqb_neq in Hne. now rewrite Hne.
Qed.

(** ** [DELETE /api/trips/:id] *)

Lemma existsb_trip (tripId : Z) (rows : list Trips.row) :
  existsb (fun t => Trips.id t =? tripId) rows = true
  <-> In tripId (map Trips.id rows).
Proof.
  rewrite existsb_exists, in_map_iff. split; intros [t H]; exists t.
  - destruct H as [H1 H2]. apply Z.eqb_eq in H2. auto.
  - destruct H as [H1 H2]. split; [assumption | now apply Z.eqb_eq].
Qed.

Lemma cascade_by_trip (tripId : Z) (db : Db) (g : route_segment) :
  sound db -> In g (trip_route_segments db) ->
  existsb (fun st => touches (stop_id st) g)
    (filter (fun st => stop_trip_id st =? tripId) (trip_stops db)) = true ->
  segment_trip_id g = tripId.
Proof.
  intros [[Hpk _ _] [_ [_ _ _ Hj]]] Hg Hex.
  rewrite Forall_forall in Hj. destruct (Hj g Hg) as [Hfrom Hto].
  apply existsb_exists in Hex. destruct Hex as [st [Hst Ht]].
  apply filter_In in Hst. destruct Hst as [Hst Htrip]. apply Z.eqb_eq in Htrip.
  unfold touches in Ht. apply orb_true_iff in Ht.
  apply in_map_iff in Hfrom, Hto.
  destruct Hfrom as [a [Ea Ha]], Hto as [b [Eb Hb]].
  injection Ea as Ea1 Ea2. injection Eb as Eb1 Eb2.
  destruct Ht as [Ht | Ht]; apply Z.eqb_eq in Ht.
  - assert (a = st) by (apply (NoDup_map_In_eq stop_id (trip_stops db)); congruence).
    subst a. congruence.
  - assert (b = st) by (apply (NoDup_map_In_eq stop_id (trip_stops db)); congruence).
    subst b. congruence.
Qed.

(** X13.  On a server that satisfies the schema, with every cached
    segment joining stops of its own trip, [DELETE /api/trips/:id] is
    answered 200 whether or not the trip exists.  The trip, its stops and its
    cached segments are removed, and no other row is (the rows of other
    trips, the timeline); the trip is not found afterwards; for an id that
    names no trip nothing changes; a second delete changes nothing more. *)
Theorem delete_trip_cascades (tripId : Z) (s : Server) :
  consistent s ->
  snd (delete_trip tripId s) = Status200 tt
  /\ trips_table (fst (delete_trip tripId s))
     = filter (fun t => negb (Trips.id t =? tripId)) (trips_table s)
  /\ stops_table (fst (delete_trip tripId s))
     = filter (fun st => negb (stop_trip_id st =? tripId)) (stops_table s)
  /\ segments_table (fst (delete_trip tripId s))
     = filter (fun g => negb (segment_trip_id g =? tripId)) (segments_table s)
  /\ timeline_table (fst (delete_trip tripId s)) = timeline_table s
  /\ get_trip tripId (fst (delete_trip tripId s)) = Status404 "Not found"
  /\ (~ In tripId (map Trips.id (trips_table s)) -> fst (delete_trip tripId s) = s)
  /\ fst (delete_trip tripId (fst (delete_trip tripId s)))
     = fst (delete_trip tripId s).
Proof.
  intros Hc. pose proof (tables_sound s Hc) as Hs.
  assert (Hgone : forall s', ~ In tripId (map Trips.id (trips_table s')) ->
                    fst (delete_trip tripId s') = s').
  { intros s' Hno. unfold delete_trip.
    destruct (existsb _ (trips_table s')) eqn:E; [|reflexivity].
    apply existsb_trip in E. contradiction. }
  assert (Hafter : ~ In tripId (map Trips.id (trips_table (fst (delete_trip tripId s))))).
  { unfold delete_trip. destruct (existsb _ (trips_table s)) eqn:E; cbn [fst trips_table].
    - intros Hin. apply in_map_iff in Hin. destruct Hin as [t [Et Ht]].
      apply filter_In in Ht. destruct Ht as [_ Ht].
      apply negb_true_iff, Z.eqb_neq in Ht. contradiction.
    - intros Hin. apply existsb_trip in Hin. congruence. }
  assert (Hshape :
            trips_table (fst (delete_trip tripId s))
            = filter (fun t => negb (Trips.id t =? tripId)) (trips_table s)
            /\ stops_table (fst (delete_trip tripId s))
               = filter (fun st => negb (stop_trip_id st =? tripId)) (stops_table s)
            /\ segments_table (fst (delete_trip tripId s))
               = filter (fun g => negb (segment_trip_id g =? tripId))
                   (segments_table s)).
  { unfold delete_trip. destruct (existsb _ (trips_table s)) eqn:E; cbn [fst].
    - cbn [trips_table stops_table segments_table]. repeat split.
      apply filter_ext_in. intros g Hg.
      destruct (segment_trip_id g =? tripId) eqn:Et; [reflexivity|]. cbn [negb andb].
      destruct (existsb (fun st => touches (stop_id st) g) _) eqn:Ex; [|reflexivity].
      apply (cascade_by_trip tripId (tables s) g Hs Hg) in Ex.
      apply Z.eqb_neq in Et. contradiction.
    - assert (Hno : ~ In tripId (trips (tables s))).
      { intros Hin. apply existsb_trip in Hin. congruence. }
      destruct (no_stops_of_missing_trip tripId (tables s) Hs Hno) as [E1 E2].
      unfold stops_of in E1. cbn [tables trip_stops trip_route_segments] in E1, E2.
      repeat split; symmetry; apply filter_all.
      + intros t Ht. apply negb_true_iff, Z.eqb_neq. intros Eid. apply Hno.
        cbn. rewrite <- Eid. now apply in_map.
      + intros st Hst. destruct (stop_trip_id st =? tripId) eqn:Et; [|reflexivity].
        assert (Hin : In st []) by (rewrite <- E1; apply filter_In; auto).
        contradiction.
      + intros g Hg. destruct (segment_trip_id g =? tripId) eqn:Et; [|reflexivity].
        assert (Hin : In g []) by (rewrite <- E2; apply filter_In; auto).
        contradiction. }
  destruct Hshape as [E1 [E2 E3]].
  split; [unfold delete_trip; now destruct (existsb _ _)|].
  repeat (split; [assumption|]).
  split; [unfold delete_trip; now destruct (existsb _ _)|].
  split; [|split; [apply Hgone | now apply Hgone]].
  unfold get_trip. now rewrite (find_none_id _ _ Hafter).
Qed.

(** ** [GET /api/trips] *)

Lemma insert_newest_perm (t : Trips.row) (l : list Trips.row) :
  Permutation (insert_newest t l) (t :: l).
Proof.
  induction l as [|x l IH]; cbn [insert_newest]; [apply Permutation_refl|].
  destruct (_ <=? _); [apply Permutation_refl|].
  etransitivity; [apply perm_skip, IH | apply perm_swap].
Qed.

Lemma newest_first_perm (l : list Trips.row) : Permutation (newest_first l) l.
Proof.
  induction l as [|t l IH]; cbn [newest_first fold_right]; [constructor|].
  etransitivity; [apply insert_newest_perm | now apply perm_skip].
Qed.

Lemma insert_newest_sorted (t : Trips.row) (l : list Trips.row) :
  StronglySorted (fun a b => Trips.created_at b <= Trips.created_at a) l ->
  StronglySorted (fun a b => Trips.created_at b <= Trips.created_at a)
    (insert_newest t l).
Proof.
  induction l as [|x l IH]; cbn [insert_newest]; intros Hs.
  - repeat constructor.
  - inversion Hs as [|? ? Hs' Hall]; subst.
    destruct (Trips.created_at x <=? Trips.created_at t) eqn:E.
    + apply Z.leb_le in E. constructor; [assumption|].
      constructor; [assumption|].
      rewrite Forall_forall in *. intros y Hy. specialize (Hall y Hy). lia.
    + apply Z.leb_gt in E. constructor; [now apply IH|].
      rewrite Forall_forall in *. intros y Hy.
      apply (Permutation_in _ (insert_newest_perm t l)) in Hy.
      destruct Hy as [<- | Hy]; [lia | now apply Hall].
Qed.

Lemma newest_first_sorted (l : list Trips.row) :
  StronglySorted (fun a b => Trips.created_at b <= Trips.created_at a)
    (newest_first l).
Proof.
  induction l as [|t l IH]; cbn [newest_first fold_right]; [constructor|].
  now apply insert_newest_sorted.
Qed.

Lemma find_by_key (tripId : Z) (rows : list Trips.row) (t : Trips.row) :
  NoDup (map Trips.id rows) -> In t rows -> Trips.id t = tripId ->
  find (fun r => Trips.id r =? tripId) rows = Some t.
Proof.
  induction rows as [|x rows IH]; cbn [map find]; intros Hnd Hin Hk; [contradiction|].
  inversion Hnd as [|? ? Hnotin Hnd']; subst.
  destruct Hin as [-> | Hin]; [now rewrite Z.eqb_refl|].
  replace (Trips.id x =? Trips.id t) with false; [now apply IH|].
  symmetry. apply Z.eqb_neq. intros E. apply Hnotin. rewrite E. now apply in_map.
Qed.

(** X14.  With the ids of the trips a key, [GET /api/trips] lists every
    trip once, the newest first by [created_at], each with its [stop_count],
    which is the number of stops [GET /api/trips/:id] returns for the trip. *)
Theorem trips_listed_newest_first (s : Server) (rows : list (Trips.row * Z)) :
  NoDup (map Trips.id (trips_table s)) ->
  get_trips s = Status200 rows ->
  Permutation (map fst rows) (trips_table s)
  /\ StronglySorted (fun a b => Trips.created_at b <= Trips.created_at a)
       (map fst rows)
  /\ forall t n, In (t, n) rows ->
       exists r, get_trip (Trips.id t) s = Status200 (t, r)
                 /\ n = Z.of_nat (List.length (stops r)).
Proof.
  intros Hnd [= <-]. rewrite map_map. cbn [fst]. rewrite map_id.
  split; [apply newest_first_perm|]. split; [apply newest_first_sorted|].
  intros t n Hin. apply in_map_iff in Hin. destruct Hin as [t' [E Ht]].
  injection E as -> <-.
  apply (Permutation_in _ (newest_first_perm _)) in Ht.
  unfold get_trip. rewrite (find_by_key _ _ t Hnd Ht eq_refl).
  unfold buildTripResponse.
  replace (mem_id (Trips.id t) (trips (tables s))) with true
    by (symmetry; apply mem_id_In; cbn; now apply in_map).
  eexists. split; [reflexivity|]. cbn [stops].
  unfold loadStopsWithCoords, stop_count. rewrite length_map.
  rewrite (Permutation_length (order_by_position_perm _)). reflexivity.
Qed.

(** ** [PATCH /api/timeline/:id] *)

Lemma first_violated_none (rows : list Timeline.row) :
  Forall (fun r => Timeline.violated r = None) rows ->
  Timeline.first_violated rows = None.
Proof.
  induction 1 as [|r rows Hr _ IH]; cbn [Timeline.first_violated]; [reflexivity|].
  now rewrite Hr.
Qed.

Lemma patch_timeline_accepts (entryId : Z) (x y : number) (s : Server) :
  Forall (fun r => Timeline.violated r = None) (timeline_table s) ->
  patch_timeline entryId {| patch_lng := Some x; patch_lat := Some y |} s
  = (with_timeline
       (map (fun r => if Timeline.id r =? entryId then relocated x y r else r)
          (timeline_table s)) s,
     Status200 (entryId, x, y)).
Proof.
  intros Hvalid. unfold patch_timeline. cbn [patch_lng patch_lat].
  rewrite first_violated_none; [reflexivity|].
  rewrite Forall_forall in *. intros r' Hr'. apply in_map_iff in Hr'.
  destruct Hr' as [r [<- Hr]]. apply filter_In in Hr.
  apply relocated_violated. apply Hvalid. tauto.
Qed.

(** X15.  [PATCH /api/timeline/:id] without [lng] or without [lat] is
    answered 400 and changes nothing.  With both, on a timeline whose rows
    pass the checks of the schema, it is answered 200 with the id and the
    coordinate as given; the entries with that id are marked [edited] and
    the other entries are kept; an id that names no entry is answered 200
    all the same and changes nothing; the trips, the stops and the cached
    segments are never touched.  For a coordinate within
    [-180, 180] x [-90, 90], which the cast to [geography] stores as it is,
    the entry with that id gets the coordinate for location and keeps its
    other columns. *)
Theorem patch_relocates_one_entry (entryId : Z) (body : location_body) (s : Server) :
  (patch_lng body = None \/ patch_lat body = None ->
     patch_timeline entryId body s = (s, Status400 "lng and lat required"))
  /\ forall lng lat,
       patch_lng body = Some lng -> patch_lat body = Some lat ->
       Forall (fun r => Timeline.violated r = None) (timeline_table s) ->
       snd (patch_timeline entryId body s) = Status200 (entryId, lng, lat)
       /\ (in_range lng lat ->
           timeline_table (fst (patch_timeline entryId body s))
           = map (fun r => if Timeline.id r =? entryId then relocated lng lat r else r)
               (timeline_table s))
       /\ (forall r, In r (timeline_table (fst (patch_timeline entryId body s))) ->
             Timeline.id r = entryId -> Timeline.edited r = Some true)
       /\ (forall r, In r (timeline_table s) -> Timeline.id r <> entryId ->
             In r (timeline_table (fst (patch_timeline entryId body s))))
       /\ (~ In entryId (map Timeline.id (timeline_table s)) ->
           fst (patch_timeline entryId body s) = s)
       /\ (trips_table (fst (patch_timeline entryId body s)),
           stops_table (fst (patch_timeline entryId body s)),
           segments_table (fst (patch_timeline entryId body s)))
          = (trips_table s, stops_table s, segments_table s).
Proof.
  unfold patch_timeline. split.
  - intros [-> | ->]; [reflexivity | now destruct (patch_lng body)].
  - intros lng lat -> -> Hvalid.
    rewrite first_violated_none.
    2:{ rewrite Forall_forall in *. intros r' Hr'. apply in_map_iff in Hr'.
        destruct Hr' as [r [<- Hr]]. apply filter_In in Hr.
        apply relocated_violated. apply Hvalid. tauto. }
    cbn [fst snd with_timeline timeline_table trips_table stops_table segments_table].
    split; [reflexivity|]. split; [reflexivity|]. split; [|split; [|split]].
    + intros r' Hr' Hid. apply in_map_iff in Hr'. destruct Hr' as [r [<- Hr]].
      destruct (Timeline.id r =? entryId) eqn:E; [reflexivity|].
      apply Z.eqb_neq in E. contradiction.
    + intros r Hr Hid. apply in_map_iff. exists r. split; [|assumption].
      apply Z.eqb_neq in Hid. now rewrite Hid.
    + intros Hno. destruct s as [t q tl st sg q1 q2]. unfold with_timeline.
      cbn [timeline_table trips_table trips_id_seq stops_table segments_table
             stops_id_seq segments_id_seq] in *.
      f_equal. rewrite <- (map_id tl) at 2. apply map_ext_in. intros r Hr.
      replace (Timeline.id r =? entryId) with false; [reflexivity|].
      symmetry. apply Z.eqb_neq. intros E. apply Hno. rewrite <- E. now apply in_map.
    + reflexivity.
Qed.

(** ** A moved timeline entry and the cached routes *)

Lemma cached_by_ids (tripId : Z) (l l' : list stop_with_coords) (db db' : Db) :
  map id l' = map id l ->
  trip_route_segments db' = trip_route_segments db ->
  Forall (fun p => cached tripId (fst p) (snd p) db = true) (consecutive l) ->
  Forall (fun p => cached tripId (fst p) (snd p) db' = true) (consecutive l').
Proof.
  intros Hids Hsegs. revert l' Hids.
  induction l as [|a l IH]; intros [|a' l'] Hids H; try discriminate; [constructor|].
  destruct l as [|b l], l' as [|b' l'']; try discriminate; [constructor|].
  rewrite consecutive_step in *. inversion H as [|? ? Hc Hrest]; subst.
  pose proof (f_equal (hd 0) Hids) as Ea.
  pose proof (f_equal (@tl _) Hids) as Et. cbn [map hd tl] in Ea, Et.
  pose proof (f_equal (hd 0) Et) as Eb. cbn [hd] in Eb.
  constructor.
  - cbn [fst snd] in *. unfold cached in *. now rewrite Hsegs, Ea, Eb.
  - apply IH; [exact Et | exact Hrest].
Qed.

Lemma find_relocated (entryId : Z) (x y : number) (rows : list Timeline.row) :
  In entryId (map Timeline.id rows) ->
  exists te,
    find (fun te => entry_id te =? entryId)
      (map entry_of
         (map (fun r => if Timeline.id r =? entryId then relocated x y r else r) rows))
    = Some te
    /\ location te = Some (x, y).
Proof.
  induction rows as [|r rows IH]; cbn [map find]; intros Hin; [contradiction|].
  destruct (Timeline.id r =? entryId) eqn:E.
  - cbn [entry_of relocated entry_id Timeline.id]. rewrite E.
    eexists. split; reflexivity.
  - cbn [entry_of entry_id]. rewrite E. apply IH.
    destruct Hin as [Hin | Hin]; [|assumption].
    apply Z.eqb_neq in E. contradiction.
Qed.

(** X16.  Moving a timeline entry does not invalidate the routes cached
    for the stops on it.  On a timeline whose rows pass the checks of the
    schema, after a generation that completed and a [PATCH] of any entry, a
    generation with [force] unset calls the service for no pair, changes
    nothing and returns the segments cached before the move, for the same
    stops; and the stops on the moved entry are listed at the new
    coordinate, for a coordinate within [-180, 180] x [-90, 90], which the
    cast to [geography] stores as it is. *)
Theorem moved_entry_keeps_cached_routes (svc svc' : directions) (tripId : Z)
  (force : bool) (entryId : Z) (x y : number) (s : Server) (db1 : Db)
  (body : option trip_response) (calls : list query) :
  Forall (fun r => Timeline.violated r = None) (timeline_table s) ->
  post_routes svc tripId force (tables s) = (db1, OkTrip body, calls) ->
  exists body',
    post_routes svc' tripId false
      (tables (fst (patch_timeline entryId
                      {| patch_lng := Some x; patch_lat := Some y |}
                      (store db1 s))))
    = (tables (fst (patch_timeline entryId
                      {| patch_lng := Some x; patch_lat := Some y |}
                      (store db1 s))),
       OkTrip body', [])
    /\ option_map route body' = option_map route body
    /\ option_map (fun t => map id (stops t)) body'
       = option_map (fun t => map id (stops t)) body
    /\ (in_range x y -> In entryId (map Timeline.id (timeline_table s)) ->
        forall t r, body' = Some t -> In r (stops t) ->
          sc_timeline_entry_id r = Some entryId ->
          lng r = Some x /\ lat r = Some y).
Proof.
  intros Hvalid H.
  set (s2 := fst (patch_timeline entryId {| patch_lng := Some x; patch_lat := Some y |}
                    (store db1 s))).
  pose proof (post_routes_cases svc tripId force (tables s)) as Hc.
  destruct (_ <? 2) eqn:Hlen; [rewrite Hc in H; discriminate|].
  destruct (routes_loop _ _ _ _ _) as [[db1' [u|e']] calls'] eqn:Hloop;
    rewrite Hc in H; [|discriminate].
  injection H as -> <- ->. destruct u.
  pose proof (routes_loop_caches svc tripId force _ _ _ _ Hloop) as Hcached.
  pose proof (routes_loop_frame svc tripId force (loadStopsWithCoords tripId (tables s))
                (routes_start tripId force (tables s))) as [Hrows [Htrips Hentries]].
  rewrite Hloop in Hrows, Htrips, Hentries. cbn [fst] in Hrows, Htrips, Hentries.
  destruct (routes_start_frame tripId force (tables s)) as [Hr0 He0].
  rewrite Hr0 in Hrows. rewrite He0 in Hentries.
  assert (Ht0 : trips (routes_start tripId force (tables s)) = trips (tables s))
    by (unfold routes_start; now destruct force).
  rewrite Ht0 in Htrips.
  assert (Hs1 : tables (store db1 s) = db1) by (now apply tables_store).
  assert (Hs2 : s2 = with_timeline
                       (map (fun r => if Timeline.id r =? entryId
                                      then relocated x y r else r)
                          (timeline_table (store db1 s))) (store db1 s)).
  { unfold s2. now rewrite patch_timeline_accepts. }
  assert (Htl : timeline_table s2
                = map (fun r => if Timeline.id r =? entryId then relocated x y r else r)
                    (timeline_table (store db1 s))) by now rewrite Hs2.
  assert (Hstops2 : trip_stops (tables s2) = trip_stops (tables s)).
  { rewrite Hs2. exact Hrows. }
  assert (Hsegs2 : trip_route_segments (tables s2) = trip_route_segments db1).
  { now rewrite Hs2. }
  assert (Htrips2 : trips (tables s2) = trips (tables s)).
  { now rewrite Hs2. }
  assert (Hids : map id (loadStopsWithCoords tripId (tables s2))
                 = map id (loadStopsWithCoords tripId (tables s))).
  { unfold loadStopsWithCoords, stops_of. rewrite !map_map, Hstops2. reflexivity. }
  pose proof (post_routes_cases svc' tripId false (tables s2)) as Hc2.
  replace (Z.of_nat (List.length (loadStopsWithCoords tripId (tables s2))) <? 2)
    with false in Hc2.
  2:{ assert (Hl : List.length (loadStopsWithCoords tripId (tables s2))
                   = List.length (loadStopsWithCoords tripId (tables s))).
      { rewrite <- (length_map id (loadStopsWithCoords tripId (tables s2))), Hids.
        apply length_map. }
      rewrite Hl. now symmetry. }
  unfold routes_start in Hc2.
  rewrite routes_loop_all_cached in Hc2.
  2:{ eapply cached_by_ids; [exact Hids | exact Hsegs2 | exact Hcached]. }
  eexists. split; [exact Hc2|].
  unfold buildTripResponse. rewrite Htrips2, Htrips.
  rewrite (loadStopsWithCoords_frame tripId (tables s) db1 Hrows Hentries).
  destruct (mem_id tripId (trips (tables s))); cbn [option_map route stops];
    [|repeat split; intros; discriminate].
  split; [now rewrite Hsegs2|]. split; [now rewrite Hids|].
  intros _ Hin t r [= <-] Hr Hentry. cbn [stops] in Hr.
  unfold loadStopsWithCoords in Hr. apply in_map_iff in Hr.
  destruct Hr as [st [<- Hst]].
  unfold with_coords, joined_entry in *. cbn [sc_timeline_entry_id lng lat] in *.
  rewrite Hentry.
  cbn [tables timeline_entries]. rewrite Htl.
  destruct (find_relocated entryId x y (timeline_table (store db1 s)) Hin)
    as [te [-> Hloc]].
  rewrite Hloc. split; reflexivity.
Qed.

(** ** A reorder with a permutation of the ids *)

Lemma reorder_listing (tripId : Z) (order : list Z) (db : Db) :
  NoDup (map stop_id (trip_stops db)) ->
  (forall s, In s (stops_of tripId db) -> 0 <= position s) ->
  Permutation order (map stop_id (stops_of tripId db)) ->
  snd (put_reorder tripId (OrderArray order) db) = OkTrue
  /\ map id (loadStopsWithCoords tripId (fst (put_reorder tripId (OrderArray order) db)))
     = order
  /\ contiguous tripId (fst (put_reorder tripId (OrderArray order) db)).
Proof.
  intros Hnd Hnonneg Hperm.
  set (db0 := without_segments tripId db).
  set (neg := fun i : Z => - (i + 1)).
  set (rows1 := map (reassign tripId neg 0 order) (trip_stops db)).
  set (rows2 := map (reassign tripId (fun i => i) 0 order) rows1).
  assert (Horder : NoDup order).
  { eapply Permutation_NoDup; [apply Permutation_sym, Hperm|].
    apply NoDup_map_filter, Hnd. }
  assert (Hin_order : forall s, In s (trip_stops db) -> stop_trip_id s = tripId ->
                                exists j, index_of (stop_id s) 0 order = Some j).
  { intros s Hs Ht. apply index_of_some.
    eapply Permutation_in; [apply Permutation_sym, Hperm|].
    apply in_map, filter_In. split; [assumption | now apply Z.eqb_eq]. }
  assert (Hstage : for_each 0 order (stage tripId) db0
                   = (with_trip_stops rows1 db0, Returns tt)).
  { change (stage tripId) with (assign tripId neg).
    apply for_each_assign; try assumption.
    - unfold neg. intros a b. lia.
    - intros s k Hs Ht Hk.
      assert (0 <= position s).
      { apply Hnonneg. apply filter_In. split; [exact Hs | now apply Z.eqb_eq]. }
      unfold neg. lia. }
  assert (Hneg : forall s', In s' rows1 -> stop_trip_id s' = tripId -> position s' < 0).
  { intros s' Hs' Ht'. apply in_map_iff in Hs'. destruct Hs' as [s [<- Hs]].
    rewrite reassign_trip in Ht'.
    destruct (Hin_order s Hs Ht') as [j Hj].
    rewrite (reassign_found tripId neg 0 j order s Ht' Hj).
    apply index_of_nth in Hj. unfold neg. lia. }
  assert (Hfinal : for_each 0 order (finalize tripId) (with_trip_stops rows1 db0)
                   = (with_trip_stops rows2 db0, Returns tt)).
  { change (finalize tripId) with (assign tripId (fun i => i)).
    rewrite for_each_assign; try assumption.
    - reflexivity.
    - auto.
    - cbn [with_trip_stops trip_stops]. unfold rows1. rewrite map_map.
      rewrite (map_ext _ stop_id); [assumption|].
      intros s. apply reassign_id.
    - cbn [with_trip_stops trip_stops]. intros s k Hs Ht Hk.
      specialize (Hneg s Hs Ht). lia. }
  assert (Hput : put_reorder tripId (OrderArray order) db
                 = (with_trip_stops rows2 db0, OkTrue)).
  { unfold put_reorder, serve, put_reorder_handler, bind.
    change (delete_segments (fun g => segment_trip_id g =? tripId) db)
      with (db0, @Returns unit tt).
    cbv beta iota. rewrite Hstage. cbv beta iota. rewrite Hfinal. reflexivity. }
  set (G := fun s => reassign tripId (fun i => i) 0 order (reassign tripId neg 0 order s)).
  assert (HL : stops_of tripId (with_trip_stops rows2 db0)
               = map G (stops_of tripId db)).
  { unfold stops_of, rows2, rows1. cbn [with_trip_stops trip_stops].
    rewrite map_map. apply filter_map_commute.
    intros s. unfold G. now rewrite !reassign_trip. }
  assert (Hids : map stop_id (map G (stops_of tripId db))
                 = map stop_id (stops_of tripId db)).
  { rewrite map_map. apply map_ext. intros s. unfold G. now rewrite !reassign_id. }
  destruct (order_by_position_ids (map G (stops_of tripId db)) order)
    as [Hpos Hsorted].
  { rewrite Hids. apply NoDup_map_filter, Hnd. }
  { now rewrite Hids. }
  { intros s' Hs'. apply in_map_iff in Hs'. destruct Hs' as [s [<- Hs]].
    apply filter_In in Hs. destruct Hs as [Hs Ht]. apply Z.eqb_eq in Ht.
    destruct (Hin_order s Hs Ht) as [j Hj].
    unfold G. rewrite reassign_id.
    rewrite (reassign_found tripId (fun i => i) 0 j order);
      [now rewrite reassign_id | now rewrite reassign_trip | now rewrite reassign_id]. }
  rewrite Hput. cbn [fst snd].
  split; [reflexivity|]. split.
  - unfold loadStopsWithCoords. rewrite map_map.
    match goal with |- map ?f _ = _ => change f with stop_id end.
    rewrite HL. exact Hsorted.
  - unfold contiguous. rewrite HL, <- Hpos.
    apply Permutation_map, Permutation_sym, order_by_position_perm.
Qed.

(** ** The move buttons *)

Lemma indexOf_from_found (x : Z) (l1 l2 : list Z) : forall i,
  ~ In x l1 ->
  indexOf_from x i (map Some (l1 ++ x :: l2)) = i + Z.of_nat (List.length l1).
Proof.
  induction l1 as [|y l1 IH]; intros i H; cbn [app map indexOf_from List.length].
  - rewrite Z.eqb_refl. lia.
  - replace (y =? x) with false.
    + rewrite IH by (intros Hin; apply H; now right). lia.
    + symmetry. apply Z.eqb_neq. intros ->. apply H. now left.
Qed.

Lemma at_index_middle (l1 l2 : list Z) (x : Z) :
  at_index (map Some (l1 ++ x :: l2)) (Z.of_nat (List.length l1)) = Some x.
Proof.
  unfold at_index. replace (Z.of_nat (List.length l1) <? 0) with false
    by (symmetry; apply Z.ltb_ge; lia).
  rewrite Nat2Z.id. induction l1 as [|y l1 IH]; [reflexivity | exact IH].
Qed.

Lemma assign_index_middle (l1 : list Z) (rest : list (option Z)) (old v : option Z) :
  assign_index (map Some l1 ++ old :: rest) (Z.of_nat (List.length l1)) v
  = map Some l1 ++ v :: rest.
Proof.
  unfold assign_index. replace (Z.of_nat (List.length l1) <? 0) with false
    by (symmetry; apply Z.ltb_ge; lia).
  rewrite Nat2Z.id. induction l1 as [|y l1 IH]; [reflexivity|].
  cbn [List.length map app set_nth]. now rewrite IH.
Qed.

Lemma first_occurrence (x : Z) (l : list Z) :
  In x l -> exists l1 l2, l = l1 ++ x :: l2 /\ ~ In x l1.
Proof.
  induction l as [|y l IH]; [contradiction|]. intros Hin.
  destruct (Z.eq_dec y x) as [-> | Hne].
  - exists [], l. auto.
  - destruct Hin as [-> | Hin]; [contradiction|].
    destruct (IH Hin) as [l1 [l2 [-> Hno]]]. exists (y :: l1), l2.
    split; [reflexivity|]. intros [H | H]; auto.
Qed.

Lemma move_swaps (dir : string) (stopId : Z) (stops : list stop_with_coords)
  (arr : list (option Z)) :
  In stopId (map id stops) ->
  move dir stopId stops = Some arr ->
  exists pre a b post,
    map id stops = pre ++ a :: b :: post
    /\ arr = map Some (pre ++ b :: a :: post)
    /\ ~ In stopId pre
    /\ (dir = "up" /\ stopId = b /\ a <> b \/ dir = "down" /\ stopId = a).
Proof.
  intros Hin. unfold move.
  replace (map (fun s => Some (id s)) stops) with (map Some (map id stops))
    by (rewrite map_map; reflexivity).
  destruct (first_occurrence stopId (map id stops) Hin) as [l1 [l2 [E Hno]]].
  rewrite E. unfold indexOf. rewrite indexOf_from_found by assumption.
  rewrite Z.add_0_l, length_map.
  destruct (String.eqb_spec dir "up") as [Hup | Hup]; cbn [andb].
  - destruct (0 <? Z.of_nat (List.length l1)) eqn:Hpos.
    + apply Z.ltb_lt in Hpos.
      destruct (exists_last (l := l1)) as [pre [a El1]];
        [intros ->; cbn in Hpos; lia|].
      subst l1. intros [= <-].
      exists pre, a, stopId, l2.
      assert (Hne : a <> stopId)
        by (intros ->; apply Hno; apply in_or_app; right; now left).
      split; [now rewrite <- app_assoc|]. split; [|split].
      * rewrite at_index_middle.
        replace (Z.of_nat (List.length (pre ++ [a])) - 1)
          with (Z.of_nat (List.length pre))
          by (rewrite length_app; cbn [List.length]; lia).
        rewrite <- app_assoc. cbn [app].
        rewrite at_index_middle.
        rewrite map_app. cbn [map].
        rewrite assign_index_middle.
        change (map Some pre ++ Some stopId :: Some stopId :: map Some l2)
          with (map Some pre ++ [Some stopId] ++ Some stopId :: map Some l2).
        rewrite app_assoc.
        replace (map Some pre ++ [Some stopId]) with (map Some (pre ++ [stopId]))
          by (rewrite map_app; reflexivity).
        replace (Z.of_nat (List.length (pre ++ [a])))
          with (Z.of_nat (List.length (pre ++ [stopId])))
          by (rewrite !length_app; reflexivity).
        rewrite assign_index_middle.
        rewrite !map_app. cbn [map]. rewrite <- app_assoc. reflexivity.
      * intros Hp. apply Hno. apply in_or_app. now left.
      * left. auto.
    + destruct (String.eqb_spec dir "down"); [subst; discriminate|].
      cbn [andb]. discriminate.
  - destruct (String.eqb_spec dir "down") as [Hdown | Hdown]; cbn [andb];
      [|discriminate].
    destruct (_ <? _) eqn:Hlt; [|discriminate].
    apply Z.ltb_lt in Hlt. rewrite length_app in Hlt. cbn [List.length] in Hlt.
    destruct l2 as [|b post]; [cbn [List.length] in Hlt; lia|].
    intros [= <-]. exists l1, stopId, b, post.
    split; [reflexivity|]. split; [|split; [assumption | right; auto]].
    rewrite at_index_middle.
    replace (l1 ++ stopId :: b :: post) with ((l1 ++ [stopId]) ++ b :: post)
      by (rewrite <- app_assoc; reflexivity).
    replace (Z.of_nat (List.length l1) + 1)
      with (Z.of_nat (List.length (l1 ++ [stopId])))
      by (rewrite length_app; cbn [List.length]; lia).
    rewrite at_index_middle.
    rewrite (map_app _ (l1 ++ [stopId])). cbn [map].
    rewrite assign_index_middle.
    rewrite map_app. cbn [map]. rewrite <- app_assoc. cbn [app].
    rewrite assign_index_middle.
    rewrite map_app. reflexivity.
Qed.

Lemma move_at_the_ends (stops : list stop_with_coords) :
  NoDup (map id stops) ->
  (forall x rest, map id stops = x :: rest -> move "up" x stops = None)
  /\ (forall pre x, map id stops = pre ++ [x] -> move "down" x stops = None).
Proof.
  intros Hnd. unfold move.
  replace (map (fun s => Some (id s)) stops) with (map Some (map id stops))
    by (rewrite map_map; reflexivity).
  split.
  - intros x rest E. rewrite E. unfold indexOf.
    change (x :: rest) with ([] ++ x :: rest).
    rewrite (indexOf_from_found x [] rest 0) by auto.
    cbn [List.length Z.of_nat Z.add Z.ltb Z.compare andb].
    rewrite andb_false_r. reflexivity.
  - intros pre x E. rewrite E in *. unfold indexOf.
    rewrite (indexOf_from_found x pre [] 0).
    + rewrite length_map, length_app. cbn [List.length String.eqb Ascii.eqb andb].
      replace (0 + Z.of_nat (List.length pre) <? Z.of_nat (List.length pre + 1) - 1)
        with false by (symmetry; apply Z.ltb_ge; lia).
      reflexivity.
    + apply NoDup_remove_2 in Hnd. rewrite app_nil_r in Hnd. exact Hnd.
Qed.

Lemma NoDup_pivot (x : Z) (l1 : list Z) : forall l2 l1' l2',
  NoDup (l1 ++ x :: l2) -> l1 ++ x :: l2 = l1' ++ x :: l2' ->
  l1 = l1' /\ l2 = l2'.
Proof.
  induction l1 as [|y l1 IH]; intros l2 l1' l2' Hnd E.
  - destruct l1' as [|y' l1']; cbn [app] in E.
    + injection E as <-. auto.
    + injection E as <- E. exfalso. inversion Hnd as [|? ? Hno _]; subst.
      apply Hno. apply in_or_app. right. now left.
  - destruct l1' as [|y' l1']; cbn [app] in E.
    + injection E as -> E. exfalso. inversion Hnd as [|? ? Hno _]; subst.
      apply Hno. apply in_or_app. right. now left.
    + injection E as <- E. inversion Hnd as [|? ? _ Hnd']; subst.
      destruct (IH l2 l1' l2' Hnd' E) as [-> ->]. auto.
Qed.

Lemma move_sends (stops : list stop_with_coords) (pre post : list Z) (a b : Z) :
  NoDup (map id stops) ->
  map id stops = pre ++ a :: b :: post ->
  move "up" b stops = Some (map Some (pre ++ b :: a :: post))
  /\ move "down" a stops = Some (map Some (pre ++ b :: a :: post)).
Proof.
  intros Hnd E.
  assert (Hb : ~ In b (pre ++ [a])).
  { rewrite E in Hnd. replace (pre ++ a :: b :: post) with ((pre ++ [a]) ++ b :: post)
      in Hnd by (rewrite <- app_assoc; reflexivity).
    now apply NoDup_remove_2 in Hnd; intros H; apply Hnd; apply in_or_app; left. }
  assert (Ha : ~ In a pre).
  { rewrite E in Hnd. apply NoDup_remove_2 in Hnd.
    intros H. apply Hnd. apply in_or_app. now left. }
  assert (Hin_b : In b (map id stops))
    by (rewrite E; apply in_or_app; right; right; now left).
  assert (Hin_a : In a (map id stops))
    by (rewrite E; apply in_or_app; right; now left).
  assert (Hsome_up : exists arr, move "up" b stops = Some arr).
  { unfold move.
    replace (map (fun s => Some (id s)) stops) with (map Some (map id stops))
      by (rewrite map_map; reflexivity).
    rewrite E.
    replace (pre ++ a :: b :: post) with ((pre ++ [a]) ++ b :: post)
      by (rewrite <- app_assoc; reflexivity).
    unfold indexOf. rewrite indexOf_from_found by assumption.
    change (String.eqb "up" "up") with true. cbn [andb].
    replace (0 <? 0 + Z.of_nat (List.length (pre ++ [a]))) with true
      by (symmetry; apply Z.ltb_lt; rewrite length_app; cbn [List.length]; lia).
    eexists. reflexivity. }
  assert (Hsome_down : exists arr, move "down" a stops = Some arr).
  { unfold move.
    replace (map (fun s => Some (id s)) stops) with (map Some (map id stops))
      by (rewrite map_map; reflexivity).
    rewrite E. unfold indexOf. rewrite indexOf_from_found by assumption.
    change (String.eqb "down" "up") with false.
    change (String.eqb "down" "down") with true. cbn [andb].
    replace (0 + Z.of_nat (List.length pre)
             <? Z.of_nat (List.length (map Some (pre ++ a :: b :: post))) - 1)
      with true
      by (symmetry; apply Z.ltb_lt; rewrite length_map, length_app;
          cbn [List.length]; lia).
    eexists. reflexivity. }
  split.
  - destruct Hsome_up as [arr Hmove]. rewrite Hmove. f_equal.
    destruct (move_swaps "up" b stops arr Hin_b Hmove)
      as [pre' [a' [b' [post' [E' [-> [Hno [[_ [<- _]] | [Hd _]]]]]]]]];
      [|discriminate].
    rewrite E in E'.
    replace (pre ++ a :: b :: post) with ((pre ++ [a]) ++ b :: post) in E'
      by (rewrite <- app_assoc; reflexivity).
    replace (pre' ++ a' :: b :: post') with ((pre' ++ [a']) ++ b :: post') in E'
      by (rewrite <- app_assoc; reflexivity).
    destruct (NoDup_pivot b (pre ++ [a]) post (pre' ++ [a']) post') as [E1 ->];
      [|exact E'|].
    + rewrite <- app_assoc. cbn [app]. now rewrite <- E.
    + apply app_inj_tail in E1. destruct E1 as [-> ->]. reflexivity.
  - destruct Hsome_down as [arr Hmove]. rewrite Hmove. f_equal.
    destruct (move_swaps "down" a stops arr Hin_a Hmove)
      as [pre' [a' [b' [post' [E' [-> [Hno [[Hd _] | [_ <-]]]]]]]]];
      [discriminate|].
    rewrite E in E'.
    destruct (NoDup_pivot a pre (b :: post) pre' (b' :: post')) as [-> E2];
      [now rewrite <- E | exact E'|].
    injection E2 as -> ->. reflexivity.
Qed.

(** X17.  The move buttons of the stop list of [frontend.ts], on a trip
    whose positions are not negative, the ids of the stops being a key.  Up
    on the first stop and down on the last send no request.  Up on any other
    stop sends the ids as listed with the stop and the one before it
    exchanged, and down on any other stop sends them with the stop and the
    one after it exchanged; the reorder of that array is answered 200, and
    the trip then lists its stops in that order, at the positions
    [0 .. N-1]. *)
Theorem move_button_swaps_neighbours (tripId : Z) (db : Db) :
  NoDup (map stop_id (trip_stops db)) ->
  (forall s, In s (stops_of tripId db) -> 0 <= position s) ->
  (forall x rest, map id (loadStopsWithCoords tripId db) = x :: rest ->
     move "up" x (loadStopsWithCoords tripId db) = None)
  /\ (forall pre x, map id (loadStopsWithCoords tripId db) = pre ++ [x] ->
        move "down" x (loadStopsWithCoords tripId db) = None)
  /\ forall pre a b post,
       map id (loadStopsWithCoords tripId db) = pre ++ a :: b :: post ->
       move "up" b (loadStopsWithCoords tripId db)
       = Some (map Some (pre ++ b :: a :: post))
       /\ move "down" a (loadStopsWithCoords tripId db)
          = Some (map Some (pre ++ b :: a :: post))
       /\ snd (put_reorder tripId (OrderArray (pre ++ b :: a :: post)) db) = OkTrue
       /\ map id (loadStopsWithCoords tripId
                    (fst (put_reorder tripId (OrderArray (pre ++ b :: a :: post)) db)))
          = pre ++ b :: a :: post
       /\ contiguous tripId
            (fst (put_reorder tripId (OrderArray (pre ++ b :: a :: post)) db)).
Proof.
  intros Hnd Hnonneg.
  pose proof (loadStopsWithCoords_ids tripId db Hnd) as Hids.
  destruct (move_at_the_ends (loadStopsWithCoords tripId db) Hids) as [Hup Hdown].
  split; [exact Hup|]. split; [exact Hdown|].
  intros pre a b post E.
  destruct (move_sends (loadStopsWithCoords tripId db) pre post a b Hids E)
    as [Hu Hd].
  split; [exact Hu|]. split; [exact Hd|].
  apply reorder_listing; try assumption.
  transitivity (map id (loadStopsWithCoords tripId db)).
  - rewrite E. apply Permutation_app_head. apply perm_swap.
  - unfold loadStopsWithCoords. rewrite map_map.
    match goal with |- Permutation (map ?f _) _ => change f with stop_id end.
    apply Permutation_map, order_by_position_perm.
Qed.

(** ** [GET /api/timeline] *)

Lemma insert_by_start_perm (r : Timeline.row) (l : list Timeline.row) :
  Permutation (insert_by_start r l) (r :: l).
Proof.
  induction l as [|x l IH]; cbn [insert_by_start]; [apply Permutation_refl|].
  destruct (_ <=? _); [apply Permutation_refl|].
  etransitivity; [apply perm_skip, IH | apply perm_swap].
Qed.

Lemma order_by_start_perm (l : list Timeline.row) : Permutation (order_by_start l) l.
Proof.
  induction l as [|t l IH]; cbn [order_by_start fold_right]; [constructor|].
  etransitivity; [apply insert_by_start_perm | now apply perm_skip].
Qed.

Lemma insert_by_start_sorted (r : Timeline.row) (l : list Timeline.row) :
  StronglySorted (fun a b => Timeline.start_time a <= Timeline.start_time b) l ->
  StronglySorted (fun a b => Timeline.start_time a <= Timeline.start_time b)
    (insert_by_start r l).
Proof.
  induction l as [|x l IH]; cbn [insert_by_start]; intros Hs.
  - repeat constructor.
  - inversion Hs as [|? ? Hs' Hall]; subst.
    destruct (Timeline.start_time r <=? Timeline.start_time x) eqn:E.
    + apply Z.leb_le in E. constructor; [assumption|].
      constructor; [assumption|].
      rewrite Forall_forall in *. intros y Hy. specialize (Hall y Hy). lia.
    + apply Z.leb_gt in E. constructor; [now apply IH|].
      rewrite Forall_forall in *. intros y Hy.
      apply (Permutation_in _ (insert_by_start_perm r l)) in Hy.
      destruct Hy as [<- | Hy]; [lia | now apply Hall].
Qed.

Lemma order_by_start_sorted (l : list Timeline.row) :
  StronglySorted (fun a b => Timeline.start_time a <= Timeline.start_time b)
    (order_by_start l).
Proof.
  induction l as [|t l IH]; cbn [order_by_start fold_right]; [constructor|].
  now apply insert_by_start_sorted.
Qed.

Lemma firstn_incl {A} (n : nat) : forall (l : list A) (x : A),
  In x (firstn n l) -> In x l.
Proof.
  induction n as [|n IH]; intros [|a l] x; cbn [firstn In]; try tauto.
  intros [H | H]; [now left | right; now apply IH].
Qed.

Lemma sorted_firstn {A} (R : A -> A -> Prop) (n : nat) : forall l,
  StronglySorted R l -> StronglySorted R (firstn n l).
Proof.
  induction n as [|n IH]; intros [|a l] Hs; cbn [firstn]; try constructor.
  - inversion Hs; subst. auto.
  - inversion Hs as [|? ? _ Hall]; subst. rewrite Forall_forall in *.
    intros x Hx. apply Hall. now apply (firstn_incl n).
Qed.

Lemma sorted_map {A B} (f : A -> B) (R : B -> B -> Prop) (l : list A) :
  StronglySorted (fun a b => R (f a) (f b)) l -> StronglySorted R (map f l).
Proof.
  induction 1 as [|a l _ IH Hall]; cbn [map]; constructor; [assumption|].
  rewrite Forall_forall in *. intros y Hy. apply in_map_iff in Hy.
  destruct Hy as [x [<- Hx]]. auto.
Qed.

Lemma limit_at_most_5000 (limit : js_number) (n : nat) :
  sql_limit (min_5000 (or_5000 limit)) = Some n ->
  (n <= 5000)%nat
  /\ (forall k, limit = Num k -> 0 < k -> n = Z.to_nat (Z.min k 5000))
  /\ (limit = NaN \/ limit = Num 0 \/ limit = Infinity -> n = 5000%nat).
Proof.
  destruct limit as [|k| |]; cbn [or_5000 min_5000 sql_limit].
  - intros [= <-]. repeat split; try lia. intros k [=].
  - destruct k as [|p|p]; cbn [min_5000 sql_limit].
    + intros [= <-]. repeat split; try lia. intros k [= <-]. lia.
    + destruct (Z.min (Z.pos p) 5000 <? 0) eqn:E; [discriminate|].
      intros [= <-]. repeat split; try lia.
      * intros k [= <-] _. reflexivity.
      * intros [H | [H | H]]; discriminate.
    + destruct (Z.min (Z.neg p) 5000 <? 0) eqn:E; [discriminate|].
      apply Z.ltb_ge in E. lia.
  - intros [= <-]. repeat split; try lia. intros k [=].
  - discriminate.
Qed.

(** X18.  [GET /api/timeline] without [start] or [end], or with an empty
    one, is answered 400; with dates that PostgreSQL reads and a negative
    [limit] the statement is refused and the request ends with status 500.
    An answer with status 200 holds at most
    5000 features, and at most [limit] of them for a positive limit: visits
    only, each with a point for geometry when the rows pass
    [valid_visit_data], in ascending order of [start_time], none starting
    before [start] or ending after the day of [end]. *)
Theorem timeline_serves_visits_up_to_the_limit (pg : postgres_dates)
  (start end_ : option string) (limit : js_number) (s : Server) :
  (name_or_null start = None \/ name_or_null end_ = None ->
     get_timeline pg start end_ limit s
     = Status400 "start and end query params required (YYYY-MM-DD)")
  /\ (forall a b from until k,
        start = Some a -> end_ = Some b -> a <> "" -> b <> "" ->
        timestamptz pg a = Some from -> day_after pg b = Some until ->
        limit = Num k -> k < 0 ->
        get_timeline pg start end_ limit s
        = Status500 (DbError "LIMIT must not be negative"))
  /\ forall features,
       Forall (fun r => Timeline.violated r = None) (timeline_table s) ->
       get_timeline pg start end_ limit s = Status200 features ->
       (List.length features <= 5000)%nat
       /\ (forall k, limit = Num k -> 0 < k ->
             (List.length features <= Z.to_nat k)%nat)
       /\ Forall (fun f => feature_type f = Timeline.visit
                           /\ exists p, feature_geometry f = Some (Point p))
            features
       /\ StronglySorted (fun f g => feature_start_time f <= feature_start_time g)
            features
       /\ exists a b from until,
            start = Some a /\ end_ = Some b
            /\ timestamptz pg a = Some from /\ day_after pg b = Some until
            /\ Forall (fun f => from <= feature_start_time f
                                /\ feature_end_time f <= until
                                /\ exists r, In r (timeline_table s) /\ f = feature_of r)
                 features.
Proof.
  unfold get_timeline. split; [|split].
  - intros [-> | ->]; [reflexivity | now destruct (name_or_null start)].
  - intros a b from until k -> -> Ha Hb Hfrom Huntil -> Hk.
    cbn [name_or_null]. apply String.eqb_neq in Ha, Hb. rewrite Ha, Hb.
    rewrite Hfrom, Huntil.
    destruct k as [|p|p]; try lia. cbn [or_5000 min_5000 sql_limit].
    replace (Z.min (Z.neg p) 5000 <? 0) with true; [reflexivity|].
    symmetry. apply Z.ltb_lt. lia.
  - intros features Hvalid.
    destruct start as [a|]; cbn [name_or_null]; [|discriminate].
    destruct (String.eqb a ""); [discriminate|].
    destruct end_ as [b|]; cbn [name_or_null]; [|discriminate].
    destruct (String.eqb b ""); [discriminate|].
    destruct (timestamptz pg a) as [from|] eqn:Hfrom; [|discriminate].
    destruct (day_after pg b) as [until|] eqn:Huntil; [|discriminate].
    destruct (sql_limit _) as [n|] eqn:Hlimit; [|discriminate].
    intros [= <-].
    destruct (limit_at_most_5000 limit n Hlimit) as [Hn [Hk _]].
    set (keep := fun r => is_visit r && (from <=? Timeline.start_time r)
                          && (Timeline.end_time r <=? until)).
    assert (Hrows : forall r, In r (firstn n (order_by_start (filter keep (timeline_table s)))) ->
                      In r (timeline_table s) /\ keep r = true).
    { intros r Hr. apply firstn_incl in Hr.
      apply (Permutation_in _ (order_by_start_perm _)) in Hr.
      now apply filter_In in Hr. }
    rewrite length_map. split; [|split; [|split; [|split]]].
    + etransitivity; [apply firstn_le_length | exact Hn].
    + intros k Hl Hpos. rewrite (Hk k Hl Hpos).
      etransitivity; [apply firstn_le_length | lia].
    + rewrite Forall_forall. intros f Hf. apply in_map_iff in Hf.
      destruct Hf as [r [<- Hr]]. destruct (Hrows r Hr) as [Hin Hkeep].
      unfold keep in Hkeep. apply andb_true_iff in Hkeep.
      destruct Hkeep as [Hkeep _]. apply andb_true_iff in Hkeep.
      destruct Hkeep as [Hvisit _]. unfold is_visit in Hvisit.
      rewrite Forall_forall in Hvalid. specialize (Hvalid r Hin).
      unfold feature_of, Timeline.violated, Timeline.valid_activity_data,
        Timeline.valid_visit_data in *.
      cbn [feature_type feature_geometry].
      destruct (Timeline.entry_type r); [|discriminate].
      split; [reflexivity|].
      destruct (Timeline.location r) as [p|]; [now exists p|].
      cbn in Hvalid. discriminate.
    + apply sorted_map. apply sorted_firstn.
      apply (order_by_start_sorted (filter keep (timeline_table s))).
    + exists a, b, from, until. repeat (split; [reflexivity || assumption|]).
      rewrite Forall_forall. intros f Hf. apply in_map_iff in Hf.
      destruct Hf as [r [<- Hr]]. destruct (Hrows r Hr) as [Hin Hkeep].
      unfold keep in Hkeep. apply andb_true_iff in Hkeep.
      destruct Hkeep as [Hkeep Hend]. apply andb_true_iff in Hkeep.
      destruct Hkeep as [_ Hstart]. apply Z.leb_le in Hstart, Hend.
      cbn [feature_of feature_start_time feature_end_time]. eauto.
Qed.

(** ** A created stop in the listing, and two moves of an entry *)

Lemma post_stop_inserted (tripId : Z) (body : stop_body) (db : Db) (stop : trip_stop) :
  snd (post_stop tripId body db) = Created stop ->
  chosen_source body
  = Some (timeline_entry_id stop, waypoint_location stop, waypoint_name stop)
  /\ stop_trip_id stop = tripId
  /\ In stop (trip_stops (fst (post_stop tripId body db)))
  /\ timeline_entries (fst (post_stop tripId body db)) = timeline_entries db
  /\ match timeline_entry_id stop with
     | Some e => In e (map entry_id (timeline_entries db))
     | None => True
     end.
Proof.
  pose proof (post_stop_cases tripId body db) as H.
  pose proof (place_frame tripId body db) as [_ [_ [_ [_ Hentries]]]].
  destruct (place tripId body db) as [db1 [pos|e]]; [|rewrite H; discriminate].
  cbn [fst] in Hentries.
  destruct (chosen_source body) as [[[entry wl] wn]|] eqn:Hsrc; [|rewrite H; discriminate].
  destruct (insert_trip_stop tripId pos entry wl wn db1) as [db2 [st|e]] eqn:E;
    [|rewrite H; discriminate].
  pose proof (insert_trip_stop_returns _ _ _ _ _ _ _ _ E) as [_ Hfk].
  destruct (insert_trip_stop_cases tripId pos entry wl wn db1) as [[c E'] | E'];
    rewrite E' in E; [discriminate|]. injection E as <- <-.
  match type of H with _ = serve (invalidate ?t ?p (Some ?s)) ?d =>
    destruct (invalidate_created t p s d) as [db3 [E3 [Hrows _]]];
    destruct (invalidate_filter t p s d) as [keep Hk]
  end.
  rewrite H. unfold serve. rewrite E3 in *. cbn [fst snd] in *. subst db3.
  intros [= <-].
  cbn [new_stop timeline_entry_id waypoint_location waypoint_name stop_trip_id
         with_segments with_trip_stops advance_stop_seq trip_stops timeline_entries].
  repeat split; try assumption.
  - apply in_or_app. right. now left.
  - destruct entry; [rewrite <- Hentries|]; exact Hfk.
Qed.

(** X19.  A created stop is listed by its trip under the id and at the
    position of the answer: for a body with a timeline entry, with the
    location of the entry and its place name (["Waypoint"] when it has none);
    for a waypoint, with its name, ["Waypoint"] when the name is absent or
    empty, and with the coordinate of the body when that is within
    [-180, 180] x [-90, 90], which the cast to [geography] stores as it
    is. *)
Theorem created_stop_is_listed (tripId : Z) (body : stop_body) (db : Db)
  (stop : trip_stop) :
  snd (post_stop tripId body db) = Created stop ->
  exists r,
    In r (loadStopsWithCoords tripId (fst (post_stop tripId body db)))
    /\ id r = stop_id stop
    /\ sc_position r = position stop
    /\ match truthy_id (body_timeline_entry_id body) with
       | Some e =>
           type r = "timeline_entry"
           /\ sc_timeline_entry_id r = Some e
           /\ exists te,
                In te (timeline_entries db) /\ entry_id te = e
                /\ lng r = option_map fst (location te)
                /\ lat r = option_map snd (location te)
                /\ name r = match place_name te with
                            | Some n => n
                            | None => "Waypoint"
                            end
       | None =>
           type r = "waypoint"
           /\ sc_timeline_entry_id r = None
           /\ (forall x y, body_lng body = Some x -> body_lat body = Some y ->
                 in_range x y -> lng r = Some x /\ lat r = Some y)
           /\ name r = match body_name body with
                       | Some n => if String.eqb n "" then "Waypoint" else n
                       | None => "Waypoint"
                       end
       end.
Proof.
  intros Hcreated.
  destruct (post_stop_inserted tripId body db stop Hcreated)
    as [Hsrc [Htrip [Hin [Hentries Hfk]]]].
  exists (with_coords (timeline_entries db) stop). split; [|split; [|split]].
  - unfold loadStopsWithCoords. rewrite Hentries. apply in_map.
    apply (Permutation_in _ (Permutation_sym (order_by_position_perm _))).
    unfold stops_of. apply filter_In. split; [assumption|]. now apply Z.eqb_eq.
  - reflexivity.
  - reflexivity.
  - unfold chosen_source in Hsrc. unfold with_coords, joined_entry.
    cbn [type sc_timeline_entry_id lng lat name].
    destruct (truthy_id (body_timeline_entry_id body)) as [e|].
    + injection Hsrc as H1 H2 H3. rewrite <- H1, <- ?H2, <- ?H3 in *.
      split; [reflexivity|]. split; [reflexivity|].
      destruct (find (fun te => entry_id te =? e) (timeline_entries db)) as [te|] eqn:F.
      * apply find_some in F. destruct F as [Hte Hid]. apply Z.eqb_eq in Hid.
        exists te. cbn [coalesce]. repeat split; try assumption.
        destruct (place_name te); reflexivity.
      * apply in_map_iff in Hfk. destruct Hfk as [te [Hid Hte]].
        pose proof (find_none _ _ F te Hte) as Hno. cbn beta in Hno.
        rewrite Hid, Z.eqb_refl in Hno. discriminate.
    + destruct (body_lat body) as [y|]; [|discriminate].
      destruct (body_lng body) as [x|]; [|discriminate].
      injection Hsrc as H1 H2 H3. rewrite <- H1, <- ?H2, <- ?H3 in *.
      cbn [option_map fst snd coalesce].
      split; [reflexivity|]. split; [reflexivity|].
      split; [intros x' y' [= <-] [= <-] _; split; reflexivity|].
      unfold name_or_null. destruct (body_name body) as [n|]; [|reflexivity].
      destruct (String.eqb n ""); reflexivity.
Qed.

Lemma relocated_back (x y : number) (r : Timeline.row) :
  Timeline.location r = Some (x, y) -> Timeline.edited r = Some true ->
  relocated x y r = r.
Proof.
  destruct r. cbn [Timeline.location Timeline.edited]. intros -> ->. reflexivity.
Qed.

(** X20.  On a timeline whose rows pass the checks of the schema, two
    moves of an entry amount to the second: state and answer are those of
    the second move alone.  A moved entry is marked [edited], and a move
    never clears the mark: moving the entry back to where it was gives back
    the state as it was when the entry was marked before. *)
Theorem second_move_overrides_first (entryId : Z) (x1 y1 x2 y2 : number) (s : Server) :
  Forall (fun r => Timeline.violated r = None) (timeline_table s) ->
  patch_timeline entryId {| patch_lng := Some x2; patch_lat := Some y2 |}
    (fst (patch_timeline entryId {| patch_lng := Some x1; patch_lat := Some y1 |} s))
  = patch_timeline entryId {| patch_lng := Some x2; patch_lat := Some y2 |} s
  /\ Forall (fun r => Timeline.id r = entryId -> Timeline.edited r = Some true)
       (timeline_table
          (fst (patch_timeline entryId {| patch_lng := Some x1; patch_lat := Some y1 |} s)))
  /\ (Forall (fun r => Timeline.id r = entryId ->
                       Timeline.location r = Some (x2, y2)
                       /\ Timeline.edited r = Some true) (timeline_table s) ->
      fst (patch_timeline entryId {| patch_lng := Some x2; patch_lat := Some y2 |}
             (fst (patch_timeline entryId
                     {| patch_lng := Some x1; patch_lat := Some y1 |} s)))
      = s).
Proof.
  intros Hvalid.
  assert (Hmoved : Forall (fun r => Timeline.violated r = None)
                     (map (fun r => if Timeline.id r =? entryId
                                    then relocated x1 y1 r else r) (timeline_table s))).
  { rewrite Forall_forall in *. intros r' Hr'. apply in_map_iff in Hr'.
    destruct Hr' as [r [<- Hr]].
    destruct (Timeline.id r =? entryId); [apply relocated_violated|]; auto. }
  rewrite (patch_timeline_accepts entryId x1 y1 s Hvalid). cbn [fst].
  rewrite (patch_timeline_accepts entryId x2 y2 s Hvalid).
  rewrite patch_timeline_accepts by exact Hmoved.
  assert (Hmap : map (fun r => if Timeline.id r =? entryId then relocated x2 y2 r else r)
                   (map (fun r => if Timeline.id r =? entryId
                                  then relocated x1 y1 r else r) (timeline_table s))
                 = map (fun r => if Timeline.id r =? entryId then relocated x2 y2 r else r)
                     (timeline_table s)).
  { rewrite map_map. apply map_ext. intros r.
    destruct (Timeline.id r =? entryId) eqn:E.
    - cbn [relocated Timeline.id]. rewrite E. reflexivity.
    - rewrite E. reflexivity. }
  cbn [with_timeline timeline_table trips_table trips_id_seq stops_table
         segments_table stops_id_seq segments_id_seq fst].
  rewrite Hmap. split; [reflexivity|]. split.
  - rewrite Forall_forall. intros r' Hr'. apply in_map_iff in Hr'.
    destruct Hr' as [r [<- Hr]]. destruct (Timeline.id r =? entryId) eqn:E.
    + reflexivity.
    + intros Hid. apply Z.eqb_neq in E. contradiction.
  - intros Hback.
    replace (map (fun r => if Timeline.id r =? entryId then relocated x2 y2 r else r)
               (timeline_table s)) with (timeline_table s).
    + now destruct s.
    + rewrite <- (map_id (timeline_table s)) at 1. apply map_ext_in.
      intros r Hr. rewrite Forall_forall in Hback.
      destruct (Timeline.id r =? entryId) eqn:E; [|reflexivity].
      apply Z.eqb_eq in E. destruct (Hback r Hr E) as [Hl He].
      symmetry. now apply relocated_back.
Qed.

(** ** The properties on the sample data *)

Lemma one_two_in_range : in_range (1 # 1) (2 # 1).
Proof. repeat split; discriminate. Qed.

Lemma empty_server_consistent : consistent empty_server.
Proof.
  constructor.
  - constructor.
  - constructor.
  - vm_compute. distinct.
  - repeat constructor.
  - split; [|split].
    + constructor; constructor.
    + constructor.
    + constructor; constructor.
Qed.

Lemma planned_consistent : consistent planned.
Proof.
  assert (E : planned = serve_all planning empty_server) by (vm_compute; reflexivity).
  rewrite E. unfold planning, serve_all. cbn [fold_left].
  do 4 apply serve_request_consistent. exact empty_server_consistent.
Qed.

Lemma sample_server_consistent : consistent sample_server.
Proof.
  assert (E : sample_server
              = serve_all [Api (PostRoutes service_up 1 false);
                           PostTrip 2000 (named "Inland")] planned)
    by (vm_compute; reflexivity).
  rewrite E. unfold serve_all. cbn [fold_left].
  do 2 apply serve_request_consistent. exact planned_consistent.
Qed.

Lemma three_stops_reference_trips : stops_reference_trips three_stops_routed.
Proof.
  apply Forall_forall. intros s Hs. vm_compute in Hs.
  intuition (subst; vm_compute; auto).
Qed.

Lemma routes_answer_carries_trip_witness :
  2 <= Z.of_nat (List.length (loadStopsWithCoords 1 three_stops_routed)).
Proof.
  apply (routes_answer_carries_trip service_up 1 true three_stops_routed
           (fst (fst (post_routes service_up 1 true three_stops_routed)))
           (buildTripResponse 1
              (fst (fst (post_routes service_up 1 true three_stops_routed))))
           (snd (post_routes service_up 1 true three_stops_routed))).
  - exact three_stops_reference_trips.
  - reflexivity.
Defined.

Lemma forced_routes_cache_consecutive_pairs_witness :
  Forall2 (fun g p => from_stop_id g = id (fst p)
                      /\ to_stop_id g = id (snd p)
                      /\ profile g = "driving"
                      /\ exists r, fetchRouteSegment service_up
                                     (query_of (fst p) (snd p)) = Returns r)
    (trip_segments 1 (fst (fst (post_routes service_up 1 true three_stops_routed))))
    (consecutive (loadStopsWithCoords 1 three_stops_routed)).
Proof.
  apply (forced_routes_cache_consecutive_pairs service_up 1 three_stops_routed
           (fst (fst (post_routes service_up 1 true three_stops_routed)))
           (buildTripResponse 1
              (fst (fst (post_routes service_up 1 true three_stops_routed))))
           (snd (post_routes service_up 1 true three_stops_routed))).
  - apply three_stops_routed_integrity.
  - reflexivity.
Defined.

Lemma insert_needs_references_witness :
  post_stop 9 (waypoint None 1) three_stops_routed
  = (advance_stop_seq three_stops_routed,
     InternalServerError (DbError "trip_stops_trip_id_fkey")).
Proof.
  apply (insert_needs_references 9 (waypoint None 1) three_stops_routed).
  - discriminate.
  - intros [H _]. vm_compute in H. intuition discriminate.
  - exact three_stops_reference_trips.
  - intros H. vm_compute in H. intuition discriminate.
Defined.

Lemma refused_body_keeps_shift_witness :
  ~ In 2 (map position
            (stops_of 1 (fst (post_stop 1 (position_only 2) three_stops_routed)))).
Proof.
  assert (H1 : ~ has_entry (position_only 2)) by (intros H; apply H; reflexivity).
  assert (H2 : ~ has_coordinate (position_only 2))
    by (intros [H _]; apply H; reflexivity).
  assert (H3 : body_position (position_only 2) = Some 2) by reflexivity.
  assert (H4 : shift_accepted 1 (position_only 2) three_stops_routed)
    by (vm_compute; discriminate).
  exact (proj1 (proj2 (refused_body_keeps_shift 1 2 (position_only 2)
                         three_stops_routed H1 H2 H3 H4))).
Defined.

Lemma stop_ids_never_reused_witness :
  ~ In 2 (map stop_id
            (trip_stops (session [PostStop 1 (waypoint None 1)] empty_db))).
Proof.
  apply (stop_ids_never_reused [PostStop 1 (waypoint None 1)] [DeleteStop 1 1] 1
           (waypoint None 5) empty_db (waypoint_stop 2 0 5)).
  - split.
    + constructor; constructor.
    + constructor.
  - reflexivity.
Defined.

Lemma insert_before_last_stop_shifts_it_witness :
  exists stop,
    snd (post_stop 1 (waypoint (Some 2) 4) three_stops_routed) = Created stop
    /\ map id (loadStopsWithCoords 1
                 (fst (post_stop 1 (waypoint (Some 2) 4) three_stops_routed)))
       = [1; 2; stop_id stop; 3].
Proof.
  destruct (insert_before_last_stop_shifts_it 1 (waypoint (Some 2) 4)
              three_stops_routed [waypoint_stop 1 0 1] (waypoint_stop 2 1 2)
              (waypoint_stop 3 2 3))
    as [stop [H1 [_ [_ [_ [H2 _]]]]]].
  - split; [|split].
    + apply three_stops_routed_integrity.
    + apply three_stops_routed_integrity.
    + reflexivity.
  - apply three_stops_routed_integrity.
  - reflexivity.
  - reflexivity.
  - split; [now left | exact I].
  - exists stop. split; [exact H1 | exact H2].
Defined.

Lemma server_stays_consistent_witness : consistent (serve_all planning empty_server).
Proof.
  exact (server_stays_consistent planning empty_server empty_server_consistent).
Defined.

Lemma new_trip_is_empty_witness :
  exists t,
    snd (post_trip 3000 (named "Hills") sample_server) = Status201 t
    /\ get_trip (Trips.id t) (fst (post_trip 3000 (named "Hills") sample_server))
       = Status200 (t, {| trip := Trips.id t; stops := []; route := [] |}).
Proof.
  destruct (proj2 (new_trip_is_empty 3000 (named "Hills") sample_server) "Hills")
    as [t [H1 [_ [_ [_ [_ [_ H2]]]]]]].
  - reflexivity.
  - exact sample_server_consistent.
  - exists t. split; [exact H1 | exact H2].
Defined.

Lemma put_trip_keeps_omitted_fields_witness :
  exists t',
    snd (put_trip 3000 1
           {| trip_name := None; trip_description := Some "by the sea";
              trip_color := None |} sample_server) = Status200 t'
    /\ Trips.name t' = "Coast"
    /\ Trips.description t' = Some "by the sea"
    /\ Trips.created_at t' = 1000
    /\ Trips.updated_at t' = 3000.
Proof.
  destruct (proj2 (put_trip_keeps_omitted_fields 3000 1
                     {| trip_name := None; trip_description := Some "by the sea";
                        trip_color := None |} sample_server
                     (trips_key _ sample_server_consistent))
              {| Trips.id := 1; Trips.name := "Coast"; Trips.description := None;
                 Trips.color := Some "#e11d48"; Trips.created_at := 1000;
                 Trips.updated_at := 1000 |})
    as [t' [H1 [_ [_ [H2 [H3 [_ [H4 [H5 _]]]]]]]]].
  - now left.
  - reflexivity.
  - exists t'. split; [exact H1|]. split; [now apply H4|].
    split; [now apply H5|]. split; [exact H2 | exact H3].
Defined.

Lemma delete_trip_cascades_witness :
  get_trip 1 (fst (delete_trip 1 sample_server)) = Status404 "Not found"
  /\ stops_table (fst (delete_trip 1 sample_server)) = []
  /\ segments_table (fst (delete_trip 1 sample_server)) = [].
Proof.
  destruct (delete_trip_cascades 1 sample_server sample_server_consistent)
    as [_ [_ [H1 [H2 [_ [H3 _]]]]]].
  split; [exact H3|]. split; [rewrite H1 | rewrite H2]; reflexivity.
Defined.

Lemma trips_listed_newest_first_witness :
  Permutation
    (map fst (map (fun t => (t, stop_count (Trips.id t) sample_server))
                (newest_first (trips_table sample_server))))
    (trips_table sample_server).
Proof.
  apply (trips_listed_newest_first sample_server
           (map (fun t => (t, stop_count (Trips.id t) sample_server))
              (newest_first (trips_table sample_server)))).
  - exact (trips_key _ sample_server_consistent).
  - reflexivity.
Defined.

Lemma patch_relocates_one_entry_witness :
  snd (patch_timeline 7 {| patch_lng := Some (1 # 1)%Q; patch_lat := Some (2 # 1)%Q |}
         sample_server)
  = Status200 (7, (1 # 1)%Q, (2 # 1)%Q)
  /\ timeline_table
       (fst (patch_timeline 7
               {| patch_lng := Some (1 # 1)%Q; patch_lat := Some (2 # 1)%Q |}
               sample_server))
     = [relocated (1 # 1) (2 # 1) visit_7; walk_8].
Proof.
  destruct (proj2 (patch_relocates_one_entry 7
                     {| patch_lng := Some (1 # 1)%Q; patch_lat := Some (2 # 1)%Q |}
                     sample_server) (1 # 1)%Q (2 # 1)%Q eq_refl eq_refl
              (timeline_checks _ sample_server_consistent))
    as [H1 [H2 _]].
  split; [exact H1|]. rewrite (H2 one_two_in_range). reflexivity.
Defined.

Lemma moved_entry_keeps_cached_routes_witness :
  exists body',
    post_routes (service_down_from 1) 1 false
      (tables (fst (patch_timeline 7
                      {| patch_lng := Some (1 # 1)%Q; patch_lat := Some (2 # 1)%Q |}
                      (store planned_routed planned))))
    = (tables (fst (patch_timeline 7
                      {| patch_lng := Some (1 # 1)%Q; patch_lat := Some (2 # 1)%Q |}
                      (store planned_routed planned))),
       OkTrip body', [])
    /\ forall t r, body' = Some t -> In r (stops t) ->
         sc_timeline_entry_id r = Some 7 ->
         lng r = Some (1 # 1)%Q /\ lat r = Some (2 # 1)%Q.
Proof.
  assert (H : post_routes service_up 1 false (tables planned)
              = (planned_routed, OkTrip (buildTripResponse 1 planned_routed),
                 consecutive_queries (loadStopsWithCoords 1 (tables planned))))
    by (vm_compute; reflexivity).
  destruct (moved_entry_keeps_cached_routes service_up (service_down_from 1) 1 false 7
              (1 # 1)%Q (2 # 1)%Q planned planned_routed
              (buildTripResponse 1 planned_routed)
              (consecutive_queries (loadStopsWithCoords 1 (tables planned)))
              (timeline_checks _ planned_consistent) H)
    as [body' [H' [_ [_ Hmoved]]]].
  exists body'. split; [exact H'|]. apply (Hmoved one_two_in_range).
  vm_compute. auto.
Defined.

Lemma move_button_swaps_neighbours_witness :
  move "up" 2 (loadStopsWithCoords 1 three_stops_routed)
  = Some [Some 2; Some 1; Some 3]
  /\ move "down" 1 (loadStopsWithCoords 1 three_stops_routed)
     = Some [Some 2; Some 1; Some 3]
  /\ map id (loadStopsWithCoords 1
               (fst (put_reorder 1 (OrderArray [2; 1; 3]) three_stops_routed)))
     = [2; 1; 3].
Proof.
  assert (H1 : NoDup (map stop_id (trip_stops three_stops_routed)))
    by apply three_stops_routed_integrity.
  assert (H2 : forall s, In s (stops_of 1 three_stops_routed) -> 0 <= position s)
    by (intros s Hs; vm_compute in Hs; intuition (subst; cbn; lia)).
  destruct (proj2 (proj2 (move_button_swaps_neighbours 1 three_stops_routed H1 H2))
              [] 1 2 [3] eq_refl) as [Hu [Hd [_ [Hl _]]]].
  split; [exact Hu|]. split; [exact Hd | exact Hl].
Defined.

Lemma timeline_serves_visits_up_to_the_limit_witness :
  Forall (fun f => feature_type f = Timeline.visit
                   /\ exists p, feature_geometry f = Some (Point p))
    [feature_of visit_7].
Proof.
  assert (H : get_timeline one_day (Some "2024-05-01") (Some "2024-05-01") (Num 1)
                sample_server
              = Status200 [feature_of visit_7]) by (vm_compute; reflexivity).
  exact (proj1 (proj2 (proj2
           (proj2 (proj2 (timeline_serves_visits_up_to_the_limit one_day
                           (Some "2024-05-01") (Some "2024-05-01") (Num 1)
                           sample_server))
              [feature_of visit_7]
              (timeline_checks _ sample_server_consistent) H)))).
Defined.

Lemma created_stop_is_listed_witness :
  exists r,
    In r (loadStopsWithCoords 1 (fst (post_stop 1 (on_entry 7) empty_db)))
    /\ name r = "Home" /\ lng r = Some (10 # 1)%Q /\ lat r = Some (20 # 1)%Q.
Proof.
  destruct (created_stop_is_listed 1 (on_entry 7) empty_db
              {| stop_id := 1; stop_trip_id := 1; position := 0;
                 timeline_entry_id := Some 7; waypoint_location := None;
                 waypoint_name := None |})
    as [r [Hin [_ [_ [_ [_ [te [Hte [_ [Hlng [Hlat Hname]]]]]]]]]]].
  - reflexivity.
  - exists r. split; [exact Hin|].
    vm_compute in Hte. destruct Hte as [<- | []].
    split; [exact Hname|]. split; [exact Hlng | exact Hlat].
Defined.

Lemma second_move_overrides_first_witness :
  patch_timeline 7 {| patch_lng := Some (10 # 1)%Q; patch_lat := Some (20 # 1)%Q |}
    (fst (patch_timeline 7
            {| patch_lng := Some (1 # 1)%Q; patch_lat := Some (2 # 1)%Q |} sample_server))
  = patch_timeline 7 {| patch_lng := Some (10 # 1)%Q; patch_lat := Some (20 # 1)%Q |}
      sample_server.
Proof.
  apply (second_move_overrides_first 7 (1 # 1)%Q (2 # 1)%Q (10 # 1)%Q (20 # 1)%Q
           sample_server).
  exact (timeline_checks _ sample_server_consistent).
Defined.

Lemma delete_stop_not_found_witness :
  delete_stop 1 9 three_stops_routed = (three_stops_routed, NotFound).
Proof.
  apply (delete_stop_not_found 1 9 three_stops_routed).
  intros s Hs. vm_compute in Hs. intuition (subst; discriminate).
Defined.

Lemma delete_stop_cascade_witness :
  ~ In 3 (map stop_id (trip_stops (fst (delete_stop 1 3 three_stops_routed)))).
Proof.
  apply (delete_stop_cascade 1 3 three_stops_routed (waypoint_stop 3 2 3)).
  - vm_compute. auto.
  - reflexivity.
  - reflexivity.
Defined.

Lemma delete_stop_stored_in_order_witness :
  snd (delete_stop 1 1 three_stops_routed) = OkTrue.
Proof.
  apply (delete_stop_stored_in_order 1 1 three_stops_routed (waypoint_stop 1 0 1)).
  - split; [|split].
    + apply three_stops_routed_integrity.
    + apply three_stops_routed_integrity.
    + reflexivity.
  - vm_compute. auto.
  - reflexivity.
  - reflexivity.
Defined.

Lemma shift_rejected_in_order_witness :
  post_stop 1 (waypoint (Some 0) 4) three_stops_routed
  = (three_stops_routed, InternalServerError (DbError "unique_position_per_trip")).
Proof.
  apply (shift_rejected_in_order 1 0 (waypoint (Some 0) 4) three_stops_routed).
  - reflexivity.
  - reflexivity.
  - lia.
  - vm_compute. discriminate.
Defined.
